(** * SimpleFS: a shallow embedding of the mutation pipeline

    The development follows the Go sources of the [fs] package: path
    resolution ([fullPath], [IsValidPath]), the write-ahead journal, the
    per-path lock registry, the explicit lock manager, the version store and
    the hook pipeline.  Go strings and byte slices are byte sequences and are
    both rendered as [string]; Go maps are [gmap]s; [int] and
    [time.Duration] values are [Z]. *)

From Stdlib Require Import ZArith Lia Ascii String DecimalString.
From stdpp Require Import gmap strings list sorting.

Local Open Scope string_scope.
Local Open Scope Z_scope.

(** ** Errors and results *)

(** Go [error] values.  [Wrapped ctx e] is [fmt.Errorf("ctx: %w", e)];
    [HookError m] is whatever error a registered hook returned. *)
Inductive error : Type :=
| ErrEmptyPath                       (* errors.New("empty path") *)
| ErrEscapesRoot                     (* "path attempts to escape the root directory" *)
| ErrRel (basepath targpath : string) (* "Rel: can't make targ relative to base" *)
| ErrHost (call path : string)       (* an error of the host file system call *)
| ErrMsg (msg : string)              (* errors.New / fmt.Errorf without %w *)
| HookError (msg : string)
| Wrapped (ctx : string) (e : error).

Inductive result (A : Type) : Type :=
| Ok (a : A)
| Err (e : error).
Arguments Ok {A} a.
Arguments Err {A} e.

(** ** Lexical paths: [strings] and [path/filepath] on a slash-separated host *)

Module filepath.

Definition Separator : ascii := "/"%char.

(** [strings.Split(s, "/")]: never empty, every element free of the separator. *)
Fixpoint split (s : string) : list string :=
  match s with
  | EmptyString => [EmptyString]
  | String c r =>
      if decide (c = Separator) then EmptyString :: split r
      else match split r with
           | x :: xs => String c x :: xs
           | [] => [String c EmptyString]
           end
  end.

(** [strings.Join(elems, "/")]. *)
Fixpoint join (elems : list string) : string :=
  match elems with
  | [] => ""
  | c :: rest =>
      match rest with
      | [] => c
      | _ :: _ => c ++ String Separator (join rest)
      end
  end.

(** [strings.Count(s, "/")]. *)
Fixpoint count_sep (s : string) : nat :=
  match s with
  | EmptyString => O
  | String c r => if decide (c = Separator) then S (count_sep r) else count_sep r
  end.

Definition is_rooted (path : string) : bool :=
  match path with
  | String c _ => bool_decide (c = Separator)
  | EmptyString => false
  end.

(** One step of the element loop of [filepath.Clean].  [out] is the output
    buffer as a stack of elements (last written first).  The [dotdot] mark of
    the Go code separates the leading [..] elements from the ones that can be
    backtracked over; since a [..] is only ever written when nothing can be
    backtracked, [out.w > dotdot] holds exactly when the stack has a top
    element other than [..]. *)
Definition clean_step (rooted : bool) (out : list string) (elem : string) : list string :=
  if decide (elem = "") then out                    (* empty path element *)
  else if decide (elem = ".") then out              (* . element *)
  else if decide (elem = "..") then
    match out with
    | top :: out' =>
        if decide (top = "..")
        then (if rooted then out else elem :: out)
        else out'                                   (* can backtrack *)
    | [] => if rooted then out else elem :: out     (* cannot backtrack *)
    end
  else elem :: out.                                 (* real path element *)

(** [filepath.Clean]. *)
Definition Clean (path : string) : string :=
  if decide (path = "") then "."
  else
    let rooted := is_rooted path in
    let out := fold_left (clean_step rooted) (split path) [] in
    let body := join (rev out) in
    if rooted then String Separator body
    else if decide (body = "") then "." else body.

(** [filepath.Join]: the elements from the first non-empty one on are joined
    with the separator and cleaned. *)
Fixpoint Join (elem : list string) : string :=
  match elem with
  | [] => ""
  | e :: rest => if decide (e = "") then Join rest else Clean (join elem)
  end.

(** The element loop of [filepath.Rel]: [bs] and [ts] are the elements of
    [base[bi:]] and [targ[ti:]].  The result is [base[b0:bi]], [base[b0:]]
    and [targ[t0:]] at the exit of the loop. *)
Fixpoint rel_loop (bs ts : list string) : string * string * string :=
  match bs, ts with
  | cb :: rb, ct :: rt =>
      if bool_decide (join bs = "") || bool_decide (join ts = "")
      then ("", join bs, join ts)                   (* bi = bl or ti = tl *)
      else if decide (cb = ct) then rel_loop rb rt
      else (cb, join bs, join ts)                   (* break *)
  | _, _ => ("", join bs, join ts)
  end.

Fixpoint dotdots (n : nat) : string :=
  match n with
  | O => ""
  | S n' => "/.." ++ dotdots n'
  end.

(** [filepath.Rel]. *)
Definition Rel (basepath targpath : string) : result string :=
  let base := Clean basepath in
  let targ := Clean targpath in
  if decide (targ = base) then Ok "."
  else
    let base := if decide (base = ".") then "" else base in
    if negb (eqb (is_rooted base) (is_rooted targ))
    then Err (ErrRel basepath targpath)
    else
      let '(cur, brest, trest) := rel_loop (split base) (split targ) in
      if decide (cur = "..") then Err (ErrRel basepath targpath)
      else if decide (brest = "") then Ok trest
      else Ok (".." ++ dotdots (count_sep brest)
                    ++ (if decide (trest = "") then "" else String Separator trest)).

(** The prefix of [path] up to and including its last separator. *)
Fixpoint upto_last_sep (path : string) : string :=
  match path with
  | EmptyString => ""
  | String c r =>
      match upto_last_sep r with
      | EmptyString => if decide (c = Separator) then String c "" else ""
      | p => String c p
      end
  end.

(** [filepath.Dir]. *)
Definition Dir (path : string) : string := Clean (upto_last_sep path).

(** [filepath.IsAbs]. *)
Definition IsAbs (path : string) : bool := is_rooted path.

End filepath.

(** ** Path resolution of the facade *)

(** [rel == ".." || filepath.HasPrefix(rel, "../")]. *)
Definition escapes (rel : string) : bool :=
  bool_decide (rel = "..") || String.prefix "../" rel.

(** [SimpleFS.fullPath]. *)
Definition fullPath (rootPath path : string) : result string :=
  let cleanPath := filepath.Clean path in
  let full := filepath.Join [rootPath; cleanPath] in
  match filepath.Rel rootPath full with
  | Err e => Err (Wrapped "invalid path" e)
  | Ok rel => if escapes rel then Err ErrEscapesRoot else Ok full
  end.

(** [SimpleFS.IsValidPath]; the Go pair [(bool, error)] is a [result]. *)
Definition IsValidPath (rootPath path : string) : result bool :=
  if decide (path = "") then Err ErrEmptyPath
  else
    match fullPath rootPath path with
    | Err e => Err e
    | Ok full =>
        match filepath.Rel rootPath full with
        | Err e => Err (Wrapped "invalid path" e)
        | Ok rel => if escapes rel then Err ErrEscapesRoot else Ok true
        end
    end.

(** ** The host file system

    The tree under the root is a finite map from cleaned absolute paths to
    nodes; the host root [/] always exists.  File modes are carried by the
    calls but the host does not enforce permissions.  The three bookkeeping
    files of the facade (journal log, version records, attribute maps) hold
    serialised records and are kept as typed stores of their own, see
    [State]. *)

Inductive node : Type :=
| Dir
| File (data : string).

Module os.

Definition Stat (h : gmap string node) (name : string) : option node :=
  if decide (name = "/") then Some Dir else h !! name.

(** The parent directories of [name], nearest first; a path of length [n]
    has at most [n] of them. *)
Fixpoint parents (n : nat) (name : string) : list string :=
  match n with
  | O => []
  | S n' => filepath.Dir name :: parents n' (filepath.Dir name)
  end.

(** A regular file lies on the way to [name]: the host then answers
    [ENOTDIR], which [os.IsNotExist] does not take for absence. *)
Definition under_file (h : gmap string node) (name : string) : bool :=
  existsb (λ d, match Stat h d with Some (File _) => true | _ => false end)
          (parents (String.length name) name).

(** [name] lies strictly below the directory [dir]. *)
Definition below (dir name : string) : bool :=
  String.prefix (dir ++ "/") name && negb (bool_decide (name = dir ++ "/")).

Definition Mkdir (h : gmap string node) (name : string) : option (gmap string node) :=
  match Stat h name with
  | Some _ => None
  | None =>
      match Stat h (filepath.Dir name) with
      | Some Dir => Some (<[name := Dir]> h)
      | _ => None
      end
  end.

(** [os.MkdirAll] on the elements of the path, last element first:
    [path = join (rev relems)] and the parent [path[:i]] is
    [join (rev (tail relems))].  The facade only passes cleaned paths, for
    which cutting at the last separator is cutting the last element. *)
Fixpoint MkdirAll_elems (h : gmap string node) (relems : list string)
  : option (gmap string node) :=
  let path := filepath.join (rev relems) in
  match Stat h path with
  | Some Dir => Some h
  | Some (File _) => None
  | None =>
      match relems with
      | [] => None
      | _ :: parent =>
          match (if decide (filepath.join (rev parent) = "") then Some h
                 else MkdirAll_elems h parent) with
          | Some h1 => Mkdir h1 path
          | None => None
          end
      end
  end.

Definition MkdirAll (h : gmap string node) (path : string) : option (gmap string node) :=
  MkdirAll_elems h (rev (filepath.split path)).

(** [os.WriteFile]: create or truncate, then write. *)
Definition WriteFile (h : gmap string node) (name data : string)
  : option (gmap string node) :=
  match Stat h name with
  | Some Dir => None
  | Some (File _) => Some (<[name := File data]> h)
  | None =>
      match Stat h (filepath.Dir name) with
      | Some Dir => Some (<[name := File data]> h)
      | _ => None
      end
  end.

Definition ReadFile (h : gmap string node) (name : string) : option string :=
  match Stat h name with
  | Some (File data) => Some data
  | _ => None
  end.

Definition has_children (h : gmap string node) (dir : string) : bool :=
  bool_decide (Exists (λ kv, below dir kv.1 = true) (map_to_list h)).

Definition Remove (h : gmap string node) (name : string) : option (gmap string node) :=
  match h !! name with
  | Some (File _) => Some (delete name h)
  | Some Dir => if has_children h name then None else Some (delete name h)
  | None => None
  end.

Definition RemoveAll (h : gmap string node) (name : string) : gmap string node :=
  filter (λ kv, kv.1 ≠ name ∧ below name kv.1 = false) h.

(** The path of an entry after its ancestor [old] became [new]. *)
Definition rekey (old new name : string) : string :=
  if decide (name = old) then new
  else if below old name
       then new ++ substring (String.length old) (String.length name) name
       else name.

Definition Rename (h : gmap string node) (old new : string)
  : option (gmap string node) :=
  match h !! old with
  | None => None
  | Some (File data) =>
      match Stat h new, Stat h (filepath.Dir new) with
      | Some Dir, _ => None
      | _, Some Dir => Some (<[new := File data]> (delete old h))
      | _, _ => None
      end
  | Some Dir =>
      if below old new then None
      else
        match Stat h new, Stat h (filepath.Dir new) with
        | Some (File _), _ => None
        | Some Dir, _ =>
            if decide (new = old) then Some h
            else if has_children h new then None
            else Some (list_to_map (prod_map (rekey old new) id <$> map_to_list (delete new h)))
        | None, Some Dir =>
            Some (list_to_map (prod_map (rekey old new) id <$> map_to_list h))
        | None, _ => None
        end
  end.

End os.

(** ** Records of the facade *)

Module JournalEntry.
Record t : Type := mk {
  Operation : string;
  Path : string;
  Data : string;
  Timestamp : Z;
  Attributes : gmap string string }.
(** [JournalEntry.IsDir]. *)
Definition IsDir (e : t) : bool :=
  bool_decide (String.length (Data e) = 0%nat) && bool_decide (Operation e = "mkdir").
End JournalEntry.

Module Journal.
(** [mu] tells whether the journal mutex is held, [file] whether the append
    handle is open, [log] is the content of the file at [path] ([None] when
    the file cannot be opened for reading).  The file holds the entries that
    were logged, in order, each of them decodable. *)
Record t : Type := mk {
  path : string;
  mu : bool;
  file : bool;
  log : option (list JournalEntry.t) }.
End Journal.

Module HookContext.
Record t : Type := mk {
  Operation : string;
  Path : string;
  SrcPath : string;
  Data : string;
  Mode : Z;
  Key : string;
  Value : string }.
End HookContext.

(** A hook is taken by its verdict on the context: [None] lets the call
    pass, an error vetoes it.  This covers the hooks that decide on the
    context alone, as [ReadOnlyHook] does.  A hook that calls back into the
    facade through [ctx.FS] or writes files of its own ([BackupHook],
    [LoggingHook]) does more than return a verdict; what such a hook does
    besides is not part of the state, and the statements about hooks are
    about hooks of the first kind. *)
Definition HookFunc : Type := HookContext.t → option error.

Definition OpCreateDir := "createDir".
Definition OpWriteFile := "writeFile".
Definition OpReadFile := "readFile".
Definition OpListDir := "listDir".
Definition OpDeleteFile := "deleteFile".
Definition OpDeleteDir := "deleteDir".
Definition OpCopyFile := "copyFile".
Definition OpMoveFile := "moveFile".
Definition OpSetAttribute := "setAttribute".
Definition OpGetAttribute := "getAttribute".
Definition OpGetAllAttributes := "getAllAttributes".
Definition OpDeleteAttribute := "deleteAttribute".
Definition OpCreateVersion := "createVersion".
Definition OpGetVersion := "getVersion".
Definition OpListVersions := "listVersions".
Definition HookTypePre := "pre".
Definition HookTypePost := "post".

(** [ReadOnlyHook]: lets the reading operations pass and denies the rest. *)
Definition ReadOnlyHook : HookFunc :=
  λ ctx, let op := HookContext.Operation ctx in
         if bool_decide (op ∈ [OpReadFile; OpListDir; OpGetAttribute;
                              OpGetAllAttributes; OpGetVersion; OpListVersions])
         then None
         else Some (ErrMsg "filesystem is read-only").

Module VersionInfo.
Record t : Type := mk {
  VersionID : string;
  Path : string;
  CreatedAt : Z;
  Size : Z;
  Attributes : gmap string string;
  Description : string }.
End VersionInfo.

(** [sync.RWMutex]: the writer flag and the number of readers holding it. *)
Record RWMutex : Type := mkRW { writer : bool; readers : nat }.
Definition unlocked : RWMutex := mkRW false 0.

(** The facade together with the stores it works on.  [journal] tells
    whether [fs.journal] is set; it then points to the journal object [jrnl].
    [versions] maps the hashed path of a version directory to its records by
    version ID (the [.json] and [.data] pair), [attributes] the hashed path
    to the attribute map of its [.json] file. *)
Record State : Type := mkState {
  rootPath : string;
  journal : bool;
  jrnl : Journal.t;
  locks : gmap string RWMutex;
  hooks : gmap (string * string) (list HookFunc);
  versioning : bool;
  versionPath : string;
  maxVersions : Z;
  host : gmap string node;
  versions : gmap string (gmap string (VersionInfo.t * string));
  attributes : gmap string (gmap string string) }.

Definition set_host (h : gmap string node) (s : State) : State :=
  mkState (rootPath s) (journal s) (jrnl s) (locks s) (hooks s) (versioning s)
          (versionPath s) (maxVersions s) h (versions s) (attributes s).
Definition set_locks (l : gmap string RWMutex) (s : State) : State :=
  mkState (rootPath s) (journal s) (jrnl s) l (hooks s) (versioning s)
          (versionPath s) (maxVersions s) (host s) (versions s) (attributes s).
Definition set_jrnl (j : Journal.t) (s : State) : State :=
  mkState (rootPath s) (journal s) j (locks s) (hooks s) (versioning s)
          (versionPath s) (maxVersions s) (host s) (versions s) (attributes s).
Definition set_versions (v : gmap string (gmap string (VersionInfo.t * string)))
    (s : State) : State :=
  mkState (rootPath s) (journal s) (jrnl s) (locks s) (hooks s) (versioning s)
          (versionPath s) (maxVersions s) (host s) v (attributes s).
Definition set_attributes (a : gmap string (gmap string string)) (s : State) : State :=
  mkState (rootPath s) (journal s) (jrnl s) (locks s) (hooks s) (versioning s)
          (versionPath s) (maxVersions s) (host s) (versions s) a.
Definition set_hooks (k : gmap (string * string) (list HookFunc)) (s : State) : State :=
  mkState (rootPath s) (journal s) (jrnl s) (locks s) k (versioning s)
          (versionPath s) (maxVersions s) (host s) (versions s) (attributes s).

(** What the environment supplies to one call: the reading of the clock and
    the UUID drawn by [uuid.New]. *)
Record Env : Type := mkEnv { now : Z; uuid : string }.

(** ** Calls: state passing with errors and blocking

    A call returns normally ([Done]), returns an error ([Fail]) or blocks on
    a mutex that is held ([Blocked]).  Calls run in a single thread of
    execution, so a mutex that is held when the thread asks for it is held by
    the thread itself (or was held before the call) and is never released:
    [Blocked] is final. *)

Inductive outcome (A : Type) : Type :=
| Done (a : A) (s : State)
| Fail (e : error) (s : State)
| Blocked (s : State).
Arguments Done {A} a s.
Arguments Fail {A} e s.
Arguments Blocked {A} s.

Definition M (A : Type) : Type := State → outcome A.

Definition ret {A} (a : A) : M A := λ s, Done a s.
Definition bind {A B} (m : M A) (k : A → M B) : M B :=
  λ s, match m s with
       | Done a s' => k a s'
       | Fail e s' => Fail e s'
       | Blocked s' => Blocked s'
       end.
Definition fail {A} (e : error) : M A := λ s, Fail e s.
Definition get {A} (f : State → A) : M A := λ s, Done (f s) s.
Definition modify (f : State → State) : M unit := λ s, Done tt (f s).

Notation "'do' x <- m ; k" := (bind m (λ x, k))
  (at level 10, x name, m at level 100, k at level 200).
Notation "m >> k" := (bind m (λ _, k))
  (at level 100, k at level 200, right associativity).

(** [if err != nil { return fmt.Errorf("ctx: %w", err) }]. *)
Definition wrap {A} (ctx : string) (m : M A) : M A :=
  λ s, match m s with
       | Fail e s' => Fail (Wrapped ctx e) s'
       | r => r
       end.

(** [defer cleanup()]: runs on every return of [body], not when it blocks. *)
Definition defer {A} (cleanup : State → State) (body : M A) : M A :=
  λ s, match body s with
       | Done a s' => Done a (cleanup s')
       | Fail e s' => Fail e (cleanup s')
       | Blocked s' => Blocked s'
       end.

(** The error of a call is only reported ([fmt.Printf]) or dropped. *)
Definition ignore_error {A} (d : A) (m : M A) : M A :=
  λ s, match m s with
       | Fail _ s' => Done d s'
       | r => r
       end.

Definition when (b : bool) (m : M unit) : M unit := if b then m else ret tt.

Definition lift {A} (r : result A) : M A :=
  λ s, match r with Ok a => Done a s | Err e => Fail e s end.

(** A call of the host file system that changes the tree. *)
Definition host_call (call name : string)
    (f : gmap string node → option (gmap string node)) : M unit :=
  λ s, match f (host s) with
       | Some h => Done tt (set_host h s)
       | None => Fail (ErrHost call name) s
       end.

(** [fmt.Sprintf("%d", n)]. *)
Definition fmt_d (n : Z) : string := NilZero.string_of_int (Z.to_int n).

(** [fmt.Sscanf(s, "%o", &v)]: the value of the leading octal digits, [0]
    when there is none ([v] keeps its zero value). *)
Definition octal_digit (c : ascii) : option Z :=
  let n := Z.of_nat (nat_of_ascii c) in
  if (48 <=? n) && (n <=? 55) then Some (n - 48) else None.
Fixpoint scan_octal_from (acc : Z) (s : string) : Z :=
  match s with
  | EmptyString => acc
  | String c r =>
      match octal_digit c with
      | Some d => scan_octal_from (8 * acc + d) r
      | None => acc
      end
  end.
Definition scan_octal (s : string) : Z := scan_octal_from 0 s.

(** ** The facade *)

Section Facade.

(** [utils.HashString], the hexadecimal SHA-256 digest of its argument. *)
Variable HashString : string → string.

(** *** The implicit lock registry *)

Definition mutex (s : State) (key : string) : RWMutex :=
  default unlocked (locks s !! key).

(** [getFileLock]: the mutex registered for [path], created on first use.
    The mutex is identified by its key. *)
Definition getFileLock (path : string) : M string :=
  λ s, match locks s !! path with
       | Some _ => Done path s
       | None => Done path (set_locks (<[path := unlocked]> (locks s)) s)
       end.

Definition rw_Lock (key : string) : M unit :=
  λ s, let m := mutex s key in
       if writer m || negb (bool_decide (readers m = 0%nat)) then Blocked s
       else Done tt (set_locks (<[key := mkRW true 0]> (locks s)) s).

Definition rw_Unlock (key : string) (s : State) : State :=
  set_locks (<[key := mkRW false (readers (mutex s key))]> (locks s)) s.

Definition rw_RLock (key : string) : M unit :=
  λ s, let m := mutex s key in
       if writer m then Blocked s
       else Done tt (set_locks (<[key := mkRW false (S (readers m))]> (locks s)) s).

Definition rw_RUnlock (key : string) (s : State) : State :=
  set_locks (<[key := mkRW (writer (mutex s key)) (pred (readers (mutex s key)))]>
               (locks s)) s.

(** [l := fs.getFileLock(key); l.Lock(); defer l.Unlock()] followed by the
    rest of the function. *)
Definition locked {A} (key : string) (body : M A) : M A :=
  do l <- getFileLock key;
  rw_Lock l >>
  defer (rw_Unlock l) body.

(** [l := fs.getFileLock(key); l.RLock(); defer l.RUnlock()] followed by the
    rest of the function. *)
Definition rlocked {A} (key : string) (body : M A) : M A :=
  do l <- getFileLock key;
  rw_RLock l >>
  defer (rw_RUnlock l) body.

(** *** The hook pipeline *)

Fixpoint run_hooks (hs : list HookFunc) (ctx : HookContext.t) : option error :=
  match hs with
  | [] => None
  | hook :: rest =>
      match hook ctx with
      | Some err => Some err
      | None => run_hooks rest ctx
      end
  end.

(** [executeHooks]. *)
Definition executeHooks (typ : string) (ctx : HookContext.t) : M unit :=
  λ s, match hooks s !! (HookContext.Operation ctx, typ) with
       | None => Done tt s
       | Some hs =>
           match run_hooks hs ctx with
           | Some err => Fail err s
           | None => Done tt s
           end
       end.

(** [RegisterHook]. *)
Definition RegisterHook (op typ : string) (hook : HookFunc) (s : State) : State :=
  set_hooks (<[(op, typ) := (default [] (hooks s !! (op, typ)) ++ [hook])%list]> (hooks s)) s.

Definition hook_ctx (op path : string) : HookContext.t :=
  HookContext.mk op path "" "" 0 "" "".

(** *** The journal *)

Definition j_Lock : M unit :=
  λ s, let j := jrnl s in
       if Journal.mu j then Blocked s
       else Done tt (set_jrnl (Journal.mk (Journal.path j) true (Journal.file j)
                                          (Journal.log j)) s).

Definition j_Unlock (s : State) : State :=
  let j := jrnl s in
  set_jrnl (Journal.mk (Journal.path j) false (Journal.file j) (Journal.log j)) s.

(** [Journal.Log]: the entry is appended through the open handle. *)
Definition Journal_Log (entry : JournalEntry.t) : M unit :=
  j_Lock >>
  defer j_Unlock
    (λ s, let j := jrnl s in
          if Journal.file j
          then Done tt (set_jrnl (Journal.mk (Journal.path j) (Journal.mu j) true
                                    ((λ l, (l ++ [entry])%list) <$> Journal.log j)) s)
          else Fail (Wrapped "failed to write to journal"
                       (ErrHost "write" (Journal.path j))) s).

(** *** Files *)

Definition resolve (path : string) : M string :=
  λ s, lift (fullPath (rootPath s) path) s.

(** [FileExists]. *)
Definition FileExists (path : string) (s : State) : bool :=
  match fullPath (rootPath s) path with
  | Err _ => false
  | Ok full => match os.Stat (host s) full with Some _ => true | None => false end
  end.

(** [ReadFile]. *)
Definition ReadFile (path : string) : M string :=
  do full <- resolve path;
  rlocked full
    (let ctx := hook_ctx OpReadFile path in
     executeHooks HookTypePre ctx >>
     do data <- (λ s, match os.ReadFile (host s) full with
                      | Some data => Done data s
                      | None => Fail (ErrHost "open" full) s
                      end);
     executeHooks HookTypePost ctx >>
     ret data).

(** *** Attributes *)

Definition attrFile (root path : string) : string :=
  filepath.Join [filepath.Join [root; ".attributes"]; HashString path ++ ".json"].

(** [GetAllAttributes]. *)
Definition GetAllAttributes (path : string) : M (gmap string string) :=
  do root <- get rootPath;
  do store <- get attributes;
  match store !! HashString path with
  | None => ret ∅
  | Some attrs =>
      rlocked (attrFile root path)
        (let ctx := hook_ctx OpGetAllAttributes path in
         executeHooks HookTypePre ctx >>
         executeHooks HookTypePost ctx >>
         ret attrs)
  end.

(** The part of [SetAttribute] that follows the check of the path: under
    the lock of the attribute file, pre-hooks, journal entry, the new
    attribute map, post-hooks. *)
Definition setAttribute_stored (env : Env) (path key value : string) : M unit :=
  do root <- get rootPath;
  locked (attrFile root path)
    (let ctx := HookContext.mk OpSetAttribute path "" "" 0 key value in
     executeHooks HookTypePre ctx >>
     do store <- get attributes;
     let attrs := <[key := value]> (default ∅ (store !! HashString path)) in
     do j <- get journal;
     when j (wrap "failed to log attribute set"
               (Journal_Log (JournalEntry.mk "setattr" path "" (now env)
                               {[key := value]}))) >>
     modify (λ s, set_attributes (<[HashString path := attrs]> (attributes s)) s) >>
     executeHooks HookTypePost ctx).

(** [SetAttribute].  The call gives up only when [os.Stat] reports that the
    path does not exist; when [os.Stat] fails because a regular file lies on
    the way, the call goes on. *)
Definition SetAttribute (env : Env) (path key value : string) : M unit :=
  do full <- resolve path;
  do h <- get host;
  match os.Stat h full with
  | None =>
      if os.under_file h full then setAttribute_stored env path key value
      else fail (ErrMsg ("file does not exist: " ++ path))
  | Some _ => setAttribute_stored env path key value
  end.

(** *** Versions *)

(** [a] was not created before [b]. *)
Definition not_older (a b : VersionInfo.t) : Prop :=
  VersionInfo.CreatedAt b ≤ VersionInfo.CreatedAt a.

#[global] Instance not_older_dec a b : Decision (not_older a b).
Proof. unfold not_older. apply _. Defined.

Definition version_dir (s : State) (path : string)
  : option (gmap string (VersionInfo.t * string)) :=
  versions s !! HashString path.

(** [ListVersions].  The records of the directory are sorted newest first;
    among records of equal creation time Go's [sort.Slice] fixes no order. *)
Definition ListVersions (path : string) : M (list VersionInfo.t) :=
  do v <- get versioning;
  if negb v then fail (ErrMsg "versioning is not enabled")
  else
    let ctx := hook_ctx OpListVersions path in
    executeHooks HookTypePre ctx >>
    do dir <- get (λ s, version_dir s path);
    match dir with
    | None => ret []
    | Some records =>
        let listing := merge_sort not_older ((λ kv, kv.2.1) <$> map_to_list records) in
        executeHooks HookTypePost ctx >>
        ret listing
    end.

(** [GetVersion]. *)
Definition GetVersion (path versionID : string) : M (string * VersionInfo.t) :=
  do v <- get versioning;
  if negb v then fail (ErrMsg "versioning is not enabled")
  else
    let ctx := hook_ctx OpGetVersion path in
    executeHooks HookTypePre ctx >>
    do dir <- get (λ s, version_dir s path);
    match default ∅ dir !! versionID with
    | None => fail (ErrMsg "version not found")
    | Some (info, data) =>
        executeHooks HookTypePost ctx >>
        ret (data, info)
    end.

(** [DeleteVersion]. *)
Definition DeleteVersion (path versionID : string) : M unit :=
  do v <- get versioning;
  if negb v then fail (ErrMsg "versioning is not enabled")
  else
    do dir <- get (λ s, version_dir s path);
    match default ∅ dir !! versionID with
    | None => fail (ErrMsg "version not found")
    | Some _ =>
        modify (λ s, set_versions
                       (<[HashString path := delete versionID (default ∅ dir)]> (versions s)) s)
    end.

Fixpoint DeleteVersions (path : string) (ids : list string) : M unit :=
  match ids with
  | [] => ret tt
  | versionID :: rest => DeleteVersion path versionID >> DeleteVersions path rest
  end.

(** [pruneVersions]: the loop runs [i] from the last index down to
    [maxVersions], that is over the tail of the listing from the oldest
    record on.  It is only called with [maxVersions > 0]. *)
Definition pruneVersions (path : string) : M unit :=
  do listing <- ListVersions path;
  do maxv <- get maxVersions;
  if Z.of_nat (length listing) <=? maxv then ret tt
  else DeleteVersions path
         (rev (VersionInfo.VersionID <$> drop (Z.to_nat maxv) listing)).

(** [createVersion]. *)
Definition createVersion (env : Env) (path : string) : M unit :=
  do v <- get versioning;
  if negb v then fail (ErrMsg "versioning is not enabled")
  else
    let ctx := hook_ctx OpCreateVersion path in
    executeHooks HookTypePre ctx >>
    do full <- resolve path;
    do h <- get host;
    match os.Stat h full with
    | None => fail (Wrapped "failed to get file info" (ErrHost "stat" full))
    | Some Dir => fail (ErrMsg "cannot version a directory")
    | Some (File _) =>
        do data <- wrap "failed to read file" (ReadFile path);
        do attrs <- ignore_error ∅ (GetAllAttributes path);
        let versionID := uuid env in
        let versionInfo :=
          VersionInfo.mk versionID path (now env) (Z.of_nat (String.length data))
                         attrs "" in
        modify (λ s, set_versions
                       (<[HashString path :=
                            <[versionID := (versionInfo, data)]>
                              (default ∅ (version_dir s path))]> (versions s)) s) >>
        do maxv <- get maxVersions;
        when (0 <? maxv) (wrap "failed to prune old versions" (pruneVersions path)) >>
        executeHooks HookTypePost ctx
    end.

(** *** Mutations *)

(** [CreateDir]. *)
Definition CreateDir (env : Env) (path : string) : M unit :=
  do full <- resolve path;
  locked (filepath.Dir full)
    (let ctx := hook_ctx OpCreateDir path in
     executeHooks HookTypePre ctx >>
     do j <- get journal;
     when j (wrap "failed to log directory creation"
               (Journal_Log (JournalEntry.mk "mkdir" path "" (now env) ∅))) >>
     host_call "mkdir" full (λ h, os.MkdirAll h full) >>
     executeHooks HookTypePost ctx).

(** The part of [WriteFileWithMode] that runs under the lock of the file:
    pre-hooks, snapshot of the prior content, journal entry, the write
    itself, post-hooks. *)
Definition write_locked (env : Env) (path full data : string) (mode : Z) : M unit :=
  let ctx := HookContext.mk OpWriteFile path "" data mode "" "" in
  executeHooks HookTypePre ctx >>
  do v <- get versioning;
  do exists_ <- get (FileExists path);
  when (v && exists_) (wrap "failed to create version" (createVersion env path)) >>
  do j <- get journal;
  when j (wrap "failed to log file write"
            (Journal_Log (JournalEntry.mk "write" path data (now env)
                            {["mode" := fmt_d mode]}))) >>
  host_call "open" full (λ h, os.WriteFile h full data) >>
  executeHooks HookTypePost ctx.

(** [WriteFileWithMode]. *)
Definition WriteFileWithMode (env : Env) (path data : string) (mode : Z) : M unit :=
  do full <- resolve path;
  let dir := filepath.Dir full in
  wrap "failed to create parent directories"
       (host_call "mkdir" dir (λ h, os.MkdirAll h dir)) >>
  locked full (write_locked env path full data mode).

(** [WriteFile]. *)
Definition WriteFile (env : Env) (path data : string) : M unit :=
  WriteFileWithMode env path data 420.

(** [DeleteFile]. *)
Definition DeleteFile (env : Env) (path : string) : M unit :=
  do full <- resolve path;
  do h <- get host;
  match os.Stat h full with
  | None => fail (ErrHost "stat" full)
  | Some Dir =>
      fail (ErrMsg "cannot delete directory with DeleteFile, use DeleteDir instead")
  | Some (File _) =>
      locked full
        (locked (filepath.Dir full)
           (let ctx := hook_ctx OpDeleteFile path in
            executeHooks HookTypePre ctx >>
            do v <- get versioning;
            when v (wrap "failed to create version before deletion"
                      (createVersion env path)) >>
            do j <- get journal;
            when j (wrap "failed to log file deletion"
                      (Journal_Log (JournalEntry.mk "delete" path "" (now env) ∅))) >>
            host_call "remove" full (λ h, os.Remove h full) >>
            executeHooks HookTypePost ctx))
  end.

(** [DeleteDir]. *)
Definition DeleteDir (env : Env) (path : string) : M unit :=
  do full <- resolve path;
  locked full
    (locked (filepath.Dir full)
       (let ctx := hook_ctx OpDeleteDir path in
        executeHooks HookTypePre ctx >>
        do j <- get journal;
        when j (wrap "failed to log directory deletion"
                  (Journal_Log (JournalEntry.mk "delete" path "" (now env) ∅))) >>
        modify (λ s, set_host (os.RemoveAll (host s) full) s) >>
        executeHooks HookTypePost ctx)).

Fixpoint SetAttributes (env : Env) (path : string) (kvs : list (string * string))
  : M unit :=
  match kvs with
  | [] => ret tt
  | (k, v) :: rest =>
      ignore_error tt (SetAttribute env path k v) >> SetAttributes env path rest
  end.

(** [MoveFile]. *)
Definition MoveFile (env : Env) (src dst : string) : M unit :=
  do srcPath <- resolve src;
  do dstPath <- resolve dst;
  locked srcPath
   (locked dstPath
     (locked (filepath.Dir srcPath)
       (locked (filepath.Dir dstPath)
         (let ctx := HookContext.mk OpMoveFile dst src "" 0 "" "" in
          executeHooks HookTypePre ctx >>
          do v <- get versioning;
          do exists_ <- get (FileExists dst);
          when (v && exists_)
               (wrap "failed to create version of destination before move"
                     (createVersion env dst)) >>
          let dstDir := filepath.Dir dstPath in
          host_call "mkdir" dstDir (λ h, os.MkdirAll h dstDir) >>
          do attrs <- ignore_error ∅ (GetAllAttributes src);
          do j <- get journal;
          when j
            (wrap "failed to log move source deletion"
                  (Journal_Log (JournalEntry.mk "delete" src "" (now env) ∅)) >>
             do data <- wrap "failed to read source file for move" (ReadFile src);
             wrap "failed to log move destination write"
                  (Journal_Log (JournalEntry.mk "write" dst data (now env) attrs))) >>
          host_call "rename" srcPath (λ h, os.Rename h srcPath dstPath) >>
          SetAttributes env dst (map_to_list attrs) >>
          executeHooks HookTypePost ctx)))).

(** *** Recovery *)

(** The state map of [Recover]: [fileState[entry.Path] = entry] for every
    entry in turn. *)
Definition fileState (entries : list JournalEntry.t) : gmap string JournalEntry.t :=
  fold_left (λ m entry, <[JournalEntry.Path entry := entry]> m) entries ∅.

(** The body of the replay loop; the error of the primitive is printed and
    dropped. *)
Definition replay (env : Env) (path : string) (entry : JournalEntry.t) : M unit :=
  let op := JournalEntry.Operation entry in
  if decide (op = "write") then
    let mode :=
      match JournalEntry.Attributes entry !! "mode" with
      | Some modeStr =>
          let modeVal := scan_octal modeStr in
          if 0 <? modeVal then modeVal else 420
      | None => 420
      end in
    ignore_error tt (WriteFileWithMode env path (JournalEntry.Data entry) mode)
  else if decide (op = "mkdir") then ignore_error tt (CreateDir env path)
  else if decide (op = "delete") then
    if JournalEntry.IsDir entry
    then ignore_error tt (DeleteDir env path)
    else ignore_error tt (DeleteFile env path)
  else if decide (op = "setattr") then
    SetAttributes env path (map_to_list (JournalEntry.Attributes entry))
  else ret tt.

(** What the environment decides during one recovery: the order in which the
    Go map is ranged over, the clock and UUID of each replayed call, and
    whether the host lets the journal be reopened for appending. *)
Record RecoverEnv : Type := mkRecoverEnv {
  order : list string;
  call_env : string → Env;
  reopen_ok : bool }.

Fixpoint replay_all (renv : RecoverEnv) (state : gmap string JournalEntry.t)
    (paths : list string) : M unit :=
  match paths with
  | [] => ret tt
  | path :: rest =>
      match state !! path with
      | Some entry => replay (call_env renv path) path entry
      | None => ret tt
      end >> replay_all renv state rest
  end.

(** [Journal.Recover(fs)], for the journal object and the facade of the
    state. *)
Definition Journal_Recover (renv : RecoverEnv) : M unit :=
  j_Lock >>
  defer j_Unlock
    (modify (λ s, let j := jrnl s in
                  set_jrnl (Journal.mk (Journal.path j) (Journal.mu j) false
                                       (Journal.log j)) s) >>
     do j <- get jrnl;
     match Journal.log j with
     | None => fail (Wrapped "failed to open journal for recovery"
                             (ErrHost "open" (Journal.path j)))
     | Some entries =>
         replay_all renv (fileState entries) (order renv) >>
         if reopen_ok renv
         then modify (λ s, let j := jrnl s in
                           set_jrnl (Journal.mk (Journal.path j) (Journal.mu j) true
                                                (Journal.log j)) s)
         else fail (Wrapped "failed to reopen journal after recovery"
                            (ErrHost "open" (Journal.path j)))
     end).

(** [SimpleFS.Recover]. *)
Definition Recover (renv : RecoverEnv) : M unit :=
  do j <- get journal;
  if negb j then fail (ErrMsg "journaling is not enabled")
  else Journal_Recover renv.

End Facade.

(** ** The explicit lock manager *)

Module LockInfo.
Record t : Type := mk {
  Path : string;
  Type_ : Z;
  Owner : string;
  CreatedAt : Z;
  Timeout : Z }.
End LockInfo.

(** [LockType]: an [int] with two named values. *)
Definition ReadLock : Z := 0.
Definition WriteLock : Z := 1.

(** [lockWaiters] maps a path to the channels of its waiters; a channel is
    named by a number, and [closed] collects the channels closed so far: a
    waiter blocked on its channel wakes up when the channel is closed. *)
Record ExplicitLockManager : Type := mkLM {
  lm_locks : gmap string LockInfo.t;
  lockWaiters : gmap string (list nat);
  closed : gset nat }.

(** [NewExplicitLockManager]. *)
Definition NewExplicitLockManager : ExplicitLockManager := mkLM ∅ ∅ ∅.

(** [AcquireLock]; [now] is the reading of [time.Now()]. *)
Definition AcquireLock (now : Z) (path owner : string) (lockType timeout : Z)
    (lm : ExplicitLockManager) : result LockInfo.t * ExplicitLockManager :=
  let grant (ty : Z) :=
    let lock := LockInfo.mk path ty owner now timeout in
    (Ok lock, mkLM (<[path := lock]> (lm_locks lm)) (lockWaiters lm) (closed lm)) in
  match lm_locks lm !! path with
  | Some existing =>
      if decide (LockInfo.Type_ existing = WriteLock)
      then (Err (ErrMsg ("path is write-locked by " ++ LockInfo.Owner existing)), lm)
      else if decide (LockInfo.Type_ existing = ReadLock ∧ lockType = ReadLock)
      then grant ReadLock
      else if decide (LockInfo.Type_ existing = ReadLock ∧ lockType = WriteLock)
      then (Err (ErrMsg ("path is read-locked by " ++ LockInfo.Owner existing)), lm)
      else grant lockType
  | None => grant lockType
  end.

(** The registration half of [WaitForLock]: the caller's fresh channel is
    appended to the waiters of the path. *)
Definition register_waiter (path : string) (waiter : nat) (lm : ExplicitLockManager)
  : ExplicitLockManager :=
  mkLM (lm_locks lm)
       (<[path := (default [] (lockWaiters lm !! path) ++ [waiter])%list]> (lockWaiters lm))
       (closed lm).

(** Closing the channel of every waiter of [path] and dropping the entry. *)
Definition wake (path : string) (lm : ExplicitLockManager) : ExplicitLockManager :=
  match lockWaiters lm !! path with
  | Some waiters =>
      mkLM (lm_locks lm) (delete path (lockWaiters lm)) (list_to_set waiters ∪ closed lm)
  | None => lm
  end.

(** [ReleaseLock]. *)
Definition ReleaseLock (path owner : string) (lm : ExplicitLockManager)
  : option error * ExplicitLockManager :=
  match lm_locks lm !! path with
  | None => (Some (ErrMsg ("no lock found for path " ++ path)), lm)
  | Some lock =>
      if decide (LockInfo.Owner lock ≠ owner)
      then (Some (ErrMsg ("lock is owned by " ++ LockInfo.Owner lock ++ ", not " ++ owner)),
            lm)
      else (None, wake path (mkLM (delete path (lm_locks lm)) (lockWaiters lm) (closed lm)))
  end.

(** The test of the sweep: [lock.Timeout > 0 && now.Sub(lock.CreatedAt) > lock.Timeout]. *)
Definition expired (now : Z) (lock : LockInfo.t) : bool :=
  (0 <? LockInfo.Timeout lock) && (LockInfo.Timeout lock <? now - LockInfo.CreatedAt lock).

(** [CleanupExpiredLocks]: the range over the lock table, deleting as it goes. *)
Definition CleanupExpiredLocks (now : Z) (lm : ExplicitLockManager) : ExplicitLockManager :=
  map_fold (λ path lock acc,
              if expired now lock
              then wake path (mkLM (delete path (lm_locks acc)) (lockWaiters acc) (closed acc))
              else acc)
           lm (lm_locks lm).

(** [GetLockInfo]. *)
Definition GetLockInfo (path : string) (lm : ExplicitLockManager) : option LockInfo.t :=
  lm_locks lm !! path.

(** * Vocabulary of the statements *)

(** ** Paths *)

Module PathSpec.
Import filepath.

(** An element that holds no separator. *)
Definition sep_free (c : string) : Prop := split c = [c].

(** A real path element: what [Clean] copies to its output. *)
Definition real (c : string) : Prop :=
  c ≠ "" ∧ c ≠ "." ∧ c ≠ ".." ∧ sep_free c.

(** An element that is neither empty nor a dot. *)
Definition kept (c : string) : Prop := c ≠ "" ∧ c ≠ ".".

(** An element that names an entry of a directory. *)
Definition plain (c : string) : Prop := c ≠ "" ∧ c ≠ "." ∧ c ≠ "..".

(** The non-empty elements of a path. *)
Definition elements (path : string) : list string :=
  filter (λ c, c ≠ "") (split path).

(** The canonical form of a rooted path. *)
Definition rooted_path (cs : list string) : string := String Separator (join cs).

(** Reading the segments of a path from the directory [dir], whose
    elements are kept innermost first: an empty segment and [.] stay, [..]
    goes up and stays at the top, a name goes down. *)
Fixpoint walk (dir : list string) (segments : list string) : list string :=
  match segments with
  | [] => dir
  | seg :: rest =>
      walk (if decide (seg = "") then dir
            else if decide (seg = ".") then dir
            else if decide (seg = "..") then tail dir
            else seg :: dir) rest
  end.

(** The elements of the resolved path, read off the input: a rooted input
    is read from the root of the facade, [..] never leaving it; a relative
    input is read from the root of the facade inside the host tree. *)
Definition resolved (root path : string) : list string :=
  if is_rooted path
  then (elements root ++ rev (walk [] (split path)))%list
  else rev (walk (rev (elements root)) (split path)).

End PathSpec.

(** ** Outcomes of calls *)

(** [post m Q E B s]: started in [s], the call [m] returns normally in a
    state satisfying [Q], returns an error satisfying [E], or blocks in a
    state satisfying [B]. *)
Definition post {A} (m : M A) (Q : A → State → Prop) (E : error → State → Prop)
    (B : State → Prop) (s : State) : Prop :=
  match m s with
  | Done a s' => Q a s'
  | Fail e s' => E e s'
  | Blocked s' => B s'
  end.

Definition never {A} : A → State → Prop := λ _ _, False.
Definition always : State → Prop := λ _, True.

(** The hooks of a phase let the context pass. *)
Definition hooks_pass (s : State) (typ : string) (ctx : HookContext.t) : Prop :=
  ∀ hs, hooks s !! (HookContext.Operation ctx, typ) = Some hs → run_hooks hs ctx = None.

(** ** Mutexes *)

(** Nobody holds the mutex. *)
Definition free (m : RWMutex) : Prop := writer m = false ∧ readers m = 0%nat.

(** The state in which the caller holds the write lock of [key]. *)
Definition acquire (key : string) (s : State) : State :=
  set_locks (<[key := mkRW true 0]> (locks s)) s.

(** The state in which one more reader holds [key]. *)
Definition racquire (key : string) (s : State) : State :=
  set_locks (<[key := mkRW false (S (readers (mutex s key)))]> (locks s)) s.

(** The state after [getFileLock key]. *)
Definition registered (key : string) (s : State) : State :=
  match locks s !! key with
  | Some _ => s
  | None => set_locks (<[key := unlocked]> (locks s)) s
  end.

(** The state after a call that locked [key] and gave it back. *)
Definition released (key : string) (s : State) : State :=
  rw_Unlock key (acquire key s).

(** What every call keeps: the configuration, the hooks, whether the
    journal is open, and the write locks that are held. *)
Definition frame (s s' : State) : Prop :=
  rootPath s' = rootPath s ∧ journal s' = journal s ∧ hooks s' = hooks s
  ∧ versioning s' = versioning s ∧ maxVersions s' = maxVersions s
  ∧ Journal.file (jrnl s') = Journal.file (jrnl s)
  ∧ (∀ k, writer (mutex s k) = true → writer (mutex s' k) = true).

(** Equality of states up to the registry of mutexes, whose states agree. *)
Definition same_but_registry (s s' : State) : Prop :=
  set_locks ∅ s' = set_locks ∅ s ∧ ∀ k, mutex s' k = mutex s k.

(** A facade that neither journals nor versions, has no hooks, and none of
    whose mutexes is held. *)
Definition quiet (s : State) : Prop :=
  journal s = false ∧ versioning s = false ∧ hooks s = ∅ ∧ ∀ k, free (mutex s k).

(** ** The host tree *)

(** The host tree is closed under parents: whatever exists lies in a
    directory. *)
Definition wf_host (h : gmap string node) : Prop :=
  ∀ p nd, h !! p = Some nd → os.Stat h (filepath.Dir p) = Some Dir.

(** [d] is a parent directory of [full], at any distance. *)
Definition parent_of (full d : string) : Prop :=
  ∃ n, d = Nat.iter (S n) filepath.Dir full.

(** Nothing in the host tree stands in the way of writing the file [f]: [f]
    is no directory and no parent directory of [f] is a regular file. *)
Definition target_clear (h : gmap string node) (f : string) : Prop :=
  os.Stat h f ≠ Some Dir ∧ ∀ d c, parent_of f d → os.Stat h d ≠ Some (File c).

(** ** The lock table *)

(** The sweep over a lock table, from any manager. *)
Definition sweep (now : Z) (table : gmap string LockInfo.t) (lm : ExplicitLockManager)
  : ExplicitLockManager :=
  map_fold (λ path lock acc,
              if expired now lock
              then wake path (mkLM (delete path (lm_locks acc)) (lockWaiters acc) (closed acc))
              else acc)
           lm table.

(** [path] has a lock in [table] that the sweep finds expired. *)
Definition swept (now : Z) (table : gmap string LockInfo.t) (path : string) : Prop :=
  ∃ lock, table !! path = Some lock ∧ expired now lock = true.

(** A lock with a negative timeout: its age exceeds its non-zero timeout,
    and the sweep keeps it. *)
Definition negative_timeout_lock : LockInfo.t := LockInfo.mk "p" WriteLock "a" 0 (-1).

(** ** The version store *)

(** The records of one version directory, sorted as [ListVersions] does. *)
Definition listing_of (records : gmap string (VersionInfo.t * string))
  : list VersionInfo.t :=
  merge_sort not_older ((λ kv, kv.2.1) <$> map_to_list records).

(** The records left by the deletion loop of [pruneVersions]; [None] when
    a listed version ID has no record of its own. *)
Fixpoint delete_records (ids : list string)
    (records : gmap string (VersionInfo.t * string))
  : option (gmap string (VersionInfo.t * string)) :=
  match ids with
  | [] => Some records
  | versionID :: rest =>
      match records !! versionID with
      | Some _ => delete_records rest (delete versionID records)
      | None => None
      end
  end.

(** The records left by [pruneVersions]. *)
Definition prune_records (maxv : Z) (records : gmap string (VersionInfo.t * string))
  : option (gmap string (VersionInfo.t * string)) :=
  let listing := listing_of records in
  if Z.of_nat (length listing) <=? maxv then Some records
  else delete_records (rev (VersionInfo.VersionID <$> drop (Z.to_nat maxv) listing))
                      records.

(** The records after a snapshot of [data] taken under [env]. *)
Definition snapshot_records (maxv : Z) (env : Env) (path data : string)
    (records : gmap string (VersionInfo.t * string))
  : option (gmap string (VersionInfo.t * string)) :=
  let info := VersionInfo.mk (uuid env) path (now env)
                (Z.of_nat (String.length data)) ∅ "" in
  let records1 := <[uuid env := (info, data)]> records in
  if 0 <? maxv then prune_records maxv records1 else Some records1.

Section VersionStore.
Variable HashString : string → string.

(** The state in which the version directory of [path] holds [records]. *)
Definition with_records (path : string) (records : gmap string (VersionInfo.t * string))
    (s : State) : State :=
  set_versions (<[HashString path := records]> (versions s)) s.

(** A regular file of a facade with versioning and journaling on and no
    hooks: its content, the records of its version directory, its mutex not
    held by a writer. *)
Definition versioned_file (maxv : Z) (path full content : string)
    (records : gmap string (VersionInfo.t * string)) (s : State) : Prop :=
  versioning s = true ∧ maxVersions s = maxv ∧ hooks s = ∅
  ∧ fullPath (rootPath s) path = Ok full
  ∧ os.Stat (host s) full = Some (File content)
  ∧ writer (mutex s full) = false
  ∧ attributes s !! HashString path = None
  ∧ default ∅ (version_dir HashString s path) = records
  ∧ journal s = true ∧ Journal.file (jrnl s) = true ∧ Journal.mu (jrnl s) = false.

End VersionStore.

(** ** Recovery *)

(** The entries of a journal that concern one path. *)
Definition entries_of (path : string) (entries : list JournalEntry.t)
  : list JournalEntry.t :=
  filter (λ e, JournalEntry.Path e = path) entries.

(** Nothing in the host tree stands in the way of making the directory
    [f]: neither [f] nor a parent directory of [f] is a regular file. *)
Definition dir_clear (h : gmap string node) (f : string) : Prop :=
  (∀ c, os.Stat h f ≠ Some (File c))
  ∧ ∀ d c, parent_of f d → os.Stat h d ≠ Some (File c).

(** From [h] to [h'] nothing has changed besides [f], except that missing
    parent directories of [f] have been made. *)
Definition changes_at (f : string) (h h' : gmap string node) : Prop :=
  ∀ x, x ≠ f →
    os.Stat h' x = os.Stat h x
    ∨ (os.Stat h x = None ∧ os.Stat h' x = Some Dir ∧ parent_of f x).

(** The host tree lets the entry be replayed: a write finds no directory
    in its place and no regular file above it, a directory can be made, a
    deletion finds no directory in its place, attributes are set on what
    exists. *)
Definition replayable (root : string) (h : gmap string node)
    (path : string) (entry : JournalEntry.t) : Prop :=
  ∀ full, fullPath root path = Ok full →
    (JournalEntry.Operation entry = "write" → target_clear h full)
    ∧ (JournalEntry.Operation entry = "mkdir" → dir_clear h full)
    ∧ (JournalEntry.Operation entry = "delete" → os.Stat h full ≠ Some Dir)
    ∧ (JournalEntry.Operation entry = "setattr" → is_Some (os.Stat h full)).

Section RecoverySpec.
Variable HashString : string → string.

(** The state that an entry dictates for its path: a written file holds
    the data of the entry, a made directory exists, a deleted file does
    not, and the attributes of the entry are set. *)
Definition dictated (root : string) (s : State)
    (path : string) (entry : JournalEntry.t) : Prop :=
  ∀ full, fullPath root path = Ok full →
    (JournalEntry.Operation entry = "write" →
       os.Stat (host s) full = Some (File (JournalEntry.Data entry)))
    ∧ (JournalEntry.Operation entry = "mkdir" → os.Stat (host s) full = Some Dir)
    ∧ (JournalEntry.Operation entry = "delete" → os.Stat (host s) full = None)
    ∧ (JournalEntry.Operation entry = "setattr" →
         ∀ key value, JournalEntry.Attributes entry !! key = Some value →
           ∃ attrs, attributes s !! HashString path = Some attrs
                    ∧ attrs !! key = Some value).

(** The retained entries lie apart: two different paths never resolve to
    the same place, the place of a write or of a deletion is no parent
    directory of the place of another entry, and two paths whose attributes
    are set have different hashes. *)
Definition entries_apart (root : string) (retained : gmap string JournalEntry.t)
  : Prop :=
  ∀ p q ep eq fp fq, p ≠ q →
    retained !! p = Some ep → retained !! q = Some eq →
    fullPath root p = Ok fp → fullPath root q = Ok fq →
    fp ≠ fq
    ∧ (parent_of fq fp →
         JournalEntry.Operation ep ≠ "write" ∧ JournalEntry.Operation ep ≠ "delete")
    ∧ (JournalEntry.Operation ep = "setattr" → JournalEntry.Operation eq = "setattr" →
         HashString p ≠ HashString q).

(** What the replay of the entry of [path], which resolves to [full],
    makes of the facade: it stays quiet over a host tree closed under
    parents; the host tree changes at [full] and by missing parent
    directories of [full] only, and only a write makes [full] a regular
    file; the entry can be replayed again and its path is in the state it
    dictates; only the setting of attributes touches the attributes, and
    only those of the path. *)
Definition replays (root : string) (path full : string) (entry : JournalEntry.t)
    (s s' : State) : Prop :=
  rootPath s' = rootPath s ∧ quiet s' ∧ wf_host (host s')
  ∧ changes_at full (host s) (host s')
  ∧ (JournalEntry.Operation entry ≠ "write" →
       ∀ c, os.Stat (host s') full = Some (File c) →
            os.Stat (host s) full = Some (File c))
  ∧ replayable root (host s') path entry
  ∧ dictated root s' path entry
  ∧ (∀ x, (JournalEntry.Operation entry = "setattr" → x ≠ HashString path) →
       attributes s' !! x = attributes s !! x).

(** The state in which the replay loop finds and leaves the facade. *)
Definition replay_inv (root : string) (retained : gmap string JournalEntry.t)
    (replayed : list string) (s : State) : Prop :=
  rootPath s = root ∧ quiet s ∧ wf_host (host s)
  ∧ (∀ p e, retained !! p = Some e → replayable root (host s) p e)
  ∧ (∀ p e, p ∈ replayed → retained !! p = Some e → dictated root s p e).

End RecoverySpec.

(** ** Facades and journals of the examples *)

(** A stand-in for the hash in closed examples: the facade uses it only as
    a function from paths to the keys of its stores. *)
Definition path_key (path : string) : string := path.

(** Root [/data], nothing but the root directory, no journaling, no
    versioning, no hooks. *)
Definition plain_facade : State :=
  mkState "/data" false (Journal.mk "/data/.journal/fs.log" false true (Some []))
    ∅ ∅ false "/data/.versions" 10 {["/data" := Dir]} ∅ ∅.

(** The same facade with [ReadOnlyHook] registered before writes. *)
Definition read_only_facade : State :=
  set_hooks {[ (OpWriteFile, HookTypePre) := [ReadOnlyHook] ]} plain_facade.

(** Root [/data], [a.txt] written with "v1", versioning with at most two
    versions. *)
Definition v1_facade : State :=
  mkState "/data" true
    (Journal.mk "/data/.journal/fs.log" false true
       (Some [JournalEntry.mk "write" "a.txt" "v1" 0 {["mode" := "420"]}]))
    ∅ ∅ true "/data/.versions" 2
    {["/data" := Dir; "/data/a.txt" := File "v1"]} ∅ ∅.

(** A host tree with nothing but the root directory. *)
Definition root_only : gmap string node := {["/data" := Dir]}.

(** A host tree as a crash may leave it. *)
Definition crashed_tree : gmap string node :=
  {["/data" := Dir; "/data/tmp" := File "x"; "/data/notes" := File "n"]}.

(** A facade over the host tree [h] that does not journal, about to
    recover from the journal [log]; [None] when the journal cannot be
    opened. *)
Definition recovering (h : gmap string node) (log : option (list JournalEntry.t))
  : State :=
  set_host h (set_jrnl (Journal.mk "/data/.journal/fs.log" false true log) plain_facade).

Definition write_entry (path data : string) (time : Z) : JournalEntry.t :=
  JournalEntry.mk "write" path data time {["mode" := "420"]}.

(** A recovery that ranges over the map in the order [paths] and finds the
    journal ready to be reopened. *)
Definition replay_in (paths : list string) : RecoverEnv :=
  mkRecoverEnv paths (λ _, mkEnv 5 "id") true.

(** A directory is made and two files are written in it, the first of them
    twice; a file is deleted; an attribute is set. *)
Definition interleaved : list JournalEntry.t :=
  [JournalEntry.mk "mkdir" "docs" "" 1 ∅;
   write_entry "docs/a" "1" 2;
   write_entry "docs/b" "2" 3;
   write_entry "docs/a" "3" 4;
   JournalEntry.mk "delete" "tmp" "" 5 ∅;
   JournalEntry.mk "setattr" "notes" "" 6 {["owner" := "alice"]}].

(** Two path strings for one file. *)
Definition aliased : list JournalEntry.t :=
  [write_entry "a" "1" 1; write_entry "./a" "2" 2].

(** A file and a file below it. *)
Definition nested : list JournalEntry.t :=
  [write_entry "d/x" "1" 1; write_entry "d" "2" 2].

(** The facade of [v1_facade] with [ReadOnlyHook] registered before
    writes: it journals, and [a.txt] holds "v1". *)
Definition guarded_v1_facade : State :=
  set_hooks {[ (OpWriteFile, HookTypePre) := [ReadOnlyHook] ]} v1_facade.

(** A read-only facade in which [f] is a regular file. *)
Definition read_only_over_file : State :=
  set_host {["/data" := Dir; "/data/f" := File "x"]} read_only_facade.

(** A hook that rejects every call for want of space. *)
Definition QuotaHook : HookFunc := λ _, Some (ErrMsg "quota exceeded").

(** A facade with [QuotaHook] and then [ReadOnlyHook] registered before
    writes. *)
Definition twice_guarded_facade : State :=
  RegisterHook OpWriteFile HookTypePre ReadOnlyHook
    (RegisterHook OpWriteFile HookTypePre QuotaHook plain_facade).

(** A journaling facade over the host tree that a crash has left, its
    journal holding the entries of [interleaved]. *)
Definition journaling_crashed : State :=
  mkState "/data" true (Journal.mk "/data/.journal/fs.log" false true (Some interleaved))
    ∅ ∅ false "/data/.versions" 10 crashed_tree ∅ ∅.

(** * Further functions of the package *)

(** ** Path helpers *)

(** [strings.TrimPrefix]. *)
Definition TrimPrefix (s prefix : string) : string :=
  if String.prefix prefix s
  then substring (String.length prefix) (String.length s - String.length prefix)%nat s
  else s.

(** [SanitizePath]. *)
Definition SanitizePath (path : string) : string :=
  TrimPrefix (filepath.Clean path) "/".

(** [JoinPath]. *)
Definition JoinPath (components : list string) : string :=
  SanitizePath (filepath.Join components).

(** [SplitPath]. *)
Definition SplitPath (path : string) : list string :=
  let path := SanitizePath path in
  if decide (path = "") then [] else filepath.split path.

(** [SimpleFS.GetRelativePath]. *)
Definition GetRelativePath (rootPath path : string) : result string :=
  match fullPath rootPath path with
  | Err e => Err e
  | Ok full =>
      match filepath.Rel rootPath full with
      | Err e => Err (Wrapped "failed to get relative path" e)
      | Ok rel => Ok rel
      end
  end.

(** [SimpleFS.GetAbsolutePath]. *)
Definition GetAbsolutePath (rootPath path : string) : result string :=
  fullPath rootPath path.

(** ** String helpers *)

(** [utils.Truncate]; [None] when the slice expression [s[:length-3]]
    panics. *)
Definition Truncate (s : string) (length : Z) : option string :=
  if Z.of_nat (String.length s) <=? length then Some s
  else if length - 3 <? 0 then None
  else Some (substring 0 (Z.to_nat (length - 3)) s ++ "...").

(** ** The hook registry *)

(** [UnregisterHook]. *)
Definition UnregisterHook (op typ : string) (s : State) : State :=
  set_hooks (delete (op, typ) (hooks s)) s.

(** [UnregisterAllHooks]. *)
Definition UnregisterAllHooks (s : State) : State := set_hooks ∅ s.

(** ** The journal file *)

(** [Journal.Truncate]; [reopen_ok] tells whether the host lets the
    journal be reopened for appending. *)
Definition Journal_Truncate (reopen_ok : bool) : M unit :=
  j_Lock >>
  defer j_Unlock
    (modify (λ s, let j := jrnl s in
                  set_jrnl (Journal.mk (Journal.path j) (Journal.mu j) false
                                       (Journal.log j)) s) >>
     do j <- get jrnl;
     match Journal.log j with
     | None => fail (Wrapped "failed to truncate journal file"
                             (ErrHost "truncate" (Journal.path j)))
     | Some _ =>
         modify (λ s, let j := jrnl s in
                      set_jrnl (Journal.mk (Journal.path j) (Journal.mu j) false
                                           (Some [])) s) >>
         if reopen_ok
         then modify (λ s, let j := jrnl s in
                           set_jrnl (Journal.mk (Journal.path j) (Journal.mu j) true
                                                (Journal.log j)) s)
         else fail (Wrapped "failed to reopen journal file after truncation"
                            (ErrHost "open" (Journal.path j)))
     end).

Section Further.

Variable HashString : string → string.

(** ** Attributes *)

(** [GetAttribute]. *)
Definition GetAttribute (path key : string) : M string :=
  do root <- get rootPath;
  rlocked (attrFile HashString root path)
    (let ctx := HookContext.mk OpGetAttribute path "" "" 0 key "" in
     executeHooks HookTypePre ctx >>
     do store <- get attributes;
     match store !! HashString path with
     | None => fail (Wrapped "failed to read attributes"
                             (ErrHost "open" (attrFile HashString root path)))
     | Some attrs =>
         match attrs !! key with
         | None => fail (ErrMsg ("attribute " ++ key ++ " does not exist for " ++ path))
         | Some value => executeHooks HookTypePost ctx >> ret value
         end
     end).

(** [DeleteAttribute]. *)
Definition DeleteAttribute (env : Env) (path key : string) : M unit :=
  do root <- get rootPath;
  locked (attrFile HashString root path)
    (do store <- get attributes;
     match store !! HashString path with
     | None => fail (ErrMsg ("no attributes found for " ++ path))
     | Some attrs =>
         let ctx := HookContext.mk OpDeleteAttribute path "" "" 0 key "" in
         executeHooks HookTypePre ctx >>
         match attrs !! key with
         | None => fail (ErrMsg ("attribute " ++ key ++ " does not exist for " ++ path))
         | Some _ =>
             let attrs' := delete key attrs in
             if decide (attrs' = ∅)
             then
               modify (λ s, set_attributes (delete (HashString path) (attributes s)) s) >>
               executeHooks HookTypePost ctx
             else
               do j <- get journal;
               when j (wrap "failed to log attribute deletion"
                         (Journal_Log (JournalEntry.mk "deleteattr" path "" (now env)
                                         {[key := ""]}))) >>
               modify (λ s, set_attributes (<[HashString path := attrs']> (attributes s)) s) >>
               executeHooks HookTypePost ctx
         end
     end).

(** ** Copies *)

(** [CopyFile]. *)
Definition CopyFile (env : Env) (src dst : string) : M unit :=
  do srcPath <- resolve src;
  do dstPath <- resolve dst;
  rlocked srcPath
    (locked dstPath
       (let ctx := HookContext.mk OpCopyFile dst src "" 0 "" "" in
        executeHooks HookTypePre ctx >>
        do v <- get versioning;
        do exists_ <- get (FileExists dst);
        when (v && exists_)
             (wrap "failed to create version of destination"
                   (createVersion HashString env dst)) >>
        do h <- get host;
        match os.Stat h srcPath with
        | None => fail (ErrHost "open" srcPath)
        | Some _ =>
            let dstDir := filepath.Dir dstPath in
            wrap "failed to create parent directories"
                 (host_call "mkdir" dstDir (λ h, os.MkdirAll h dstDir)) >>
            host_call "open" dstPath (λ h, os.WriteFile h dstPath "") >>
            do h' <- get host;
            match os.ReadFile h' srcPath with
            | None => fail (ErrHost "read" srcPath)
            | Some data =>
                host_call "write" dstPath (λ h, os.WriteFile h dstPath data) >>
                do attrs <- ignore_error ∅ (GetAllAttributes HashString src);
                SetAttributes HashString env dst (map_to_list attrs) >>
                executeHooks HookTypePost ctx
            end
        end)).

(** ** Restoring versions *)

(** The loop of [RestoreVersion] over the attributes of the version. *)
Fixpoint RestoreAttributes (env : Env) (path : string) (kvs : list (string * string))
  : M unit :=
  match kvs with
  | [] => ret tt
  | (k, v) :: rest =>
      wrap ("failed to restore attribute " ++ k) (SetAttribute HashString env path k v) >>
      RestoreAttributes env path rest
  end.

(** [RestoreVersion]; [env] serves the snapshot of the current file, [wenv]
    the write. *)
Definition RestoreVersion (env wenv : Env) (path versionID : string) : M unit :=
  do v <- get versioning;
  if negb v then fail (ErrMsg "versioning is not enabled")
  else
    do r <- wrap "failed to get version" (GetVersion HashString path versionID);
    do exists_ <- get (FileExists path);
    when exists_ (wrap "failed to create version of current file"
                       (createVersion HashString env path)) >>
    wrap "failed to write file" (WriteFile HashString wenv path r.1) >>
    RestoreAttributes wenv path (map_to_list (VersionInfo.Attributes r.2)).

(** [SetVersionDescription]. *)
Definition SetVersionDescription (path versionID description : string) : M unit :=
  do v <- get versioning;
  if negb v then fail (ErrMsg "versioning is not enabled")
  else
    do dir <- get (λ s, version_dir HashString s path);
    match default ∅ dir !! versionID with
    | None => fail (ErrMsg "version not found")
    | Some (info, data) =>
        let version :=
          VersionInfo.mk (VersionInfo.VersionID info) (VersionInfo.Path info)
                         (VersionInfo.CreatedAt info) (VersionInfo.Size info)
                         (VersionInfo.Attributes info) description in
        modify (λ s, set_versions
                       (<[HashString path := <[versionID := (version, data)]> (default ∅ dir)]>
                          (versions s)) s)
    end.

End Further.

(** * Examples of path resolution *)

Example fullPath_inside : fullPath "/data" "a/../b/./c.txt" = Ok "/data/b/c.txt".
Proof. vm_compute. reflexivity. Qed.

Example fullPath_outside : fullPath "/data" "a/../../etc/passwd" = Err ErrEscapesRoot.
Proof. vm_compute. reflexivity. Qed.

Example fullPath_sibling : fullPath "/data" "../database/x" = Err ErrEscapesRoot.
Proof. vm_compute. reflexivity. Qed.

Example fullPath_back_in : fullPath "/data" "../data/x" = Ok "/data/x".
Proof. vm_compute. reflexivity. Qed.

Example fullPath_rooted_input : fullPath "/data" "/../../etc" = Ok "/data/etc".
Proof. vm_compute. reflexivity. Qed.

Example Rel_up : filepath.Rel "/a/b/c" "/a/x" = Ok "../../x".
Proof. vm_compute. reflexivity. Qed.

(** * Lexical paths *)

Module PathFacts.
Import filepath PathSpec.

Lemma split_not_nil s : split s ≠ [].
Proof.
  destruct s as [|c r]; simpl; [done|].
  case_decide; [done|]. destruct (split r); done.
Qed.

Lemma split_app_sep a b :
  split (a ++ String Separator b) = (split a ++ split b)%list.
Proof.
  induction a as [|c a IH]; simpl.
  - done.
  - case_decide; [by rewrite IH|].
    rewrite IH. destruct (split a) eqn:E; [by destruct (split_not_nil a)|done].
Qed.

Lemma split_sep_free s : Forall sep_free (split s).
Proof.
  induction s as [|c r IH]; simpl.
  - by constructor.
  - case_decide.
    + by constructor.
    + destruct (split r) as [|x xs] eqn:E.
      * constructor; [|done]. unfold sep_free. simpl. rewrite decide_False by done. done.
      * inversion IH as [|? ? Hx Hxs]; subst. constructor; [|done].
        unfold sep_free in *. simpl. rewrite decide_False by done. by rewrite Hx.
Qed.

Lemma split_join cs :
  cs ≠ [] → Forall sep_free cs → split (join cs) = cs.
Proof.
  induction cs as [|c cs IH]; [done|]. intros _ Hall.
  inversion Hall as [|? ? Hc Hcs]; subst.
  destruct cs as [|c' cs]; [exact Hc|].
  change (join (c :: c' :: cs)) with (c ++ String Separator (join (c' :: cs))).
  rewrite split_app_sep, Hc, IH by done. done.
Qed.

Lemma join_split s : join (split s) = s.
Proof.
  induction s as [|c r IH]; [done|]. simpl.
  case_decide as Hc.
  - subst c. destruct (split r) eqn:E; [by destruct (split_not_nil r)|].
    simpl in *. by rewrite IH.
  - destruct (split r) as [|x xs] eqn:E; [by destruct (split_not_nil r)|].
    destruct xs; simpl in *; by rewrite <- IH.
Qed.

Lemma real_sep_free c : real c → sep_free c.
Proof. by intros (_ & _ & _ & ?). Qed.

Lemma Forall_real_sep_free cs : Forall real cs → Forall sep_free cs.
Proof. intros H. eapply Forall_impl; [exact H|]. apply real_sep_free. Qed.

Lemma join_cons_ne c cs : c ≠ "" → join (c :: cs) ≠ "".
Proof. intros H. destruct cs, c; simpl; done. Qed.

Lemma join_real_nil cs : Forall real cs → join cs = "" → cs = [].
Proof.
  destruct cs as [|c cs]; [done|]. intros Hall Hj. inversion Hall as [|? ? Hc _]; subst.
  destruct Hc as (Hne & _). by destruct (join_cons_ne c cs Hne).
Qed.

Lemma app_String x (a b : string) : String x a ++ b = String x (a ++ b).
Proof. reflexivity. Qed.

Lemma app_empty_l (a : string) : "" ++ a = a.
Proof. reflexivity. Qed.

Lemma string_app_assoc (a b c : string) : (a ++ b) ++ c = a ++ (b ++ c).
Proof. induction a as [|x a IH]; [done|]. rewrite !app_String. by rewrite IH. Qed.

Lemma prefix_app (a b : string) : String.prefix a (a ++ b) = true.
Proof.
  induction a as [|x a IH]; [by destruct b|]. rewrite app_String. simpl.
  destruct (ascii_dec x x); [done|congruence].
Qed.

Lemma join_cons c cs :
  cs ≠ [] → join (c :: cs) = c ++ String Separator (join cs).
Proof. by destruct cs. Qed.

Lemma join_app xs ys :
  xs ≠ [] → ys ≠ [] → join (xs ++ ys) = join xs ++ String Separator (join ys).
Proof.
  intros Hx Hy. induction xs as [|x xs IH]; [done|].
  destruct xs as [|x' xs].
  - by rewrite <- join_cons.
  - rewrite <- app_comm_cons. rewrite join_cons by done.
    rewrite IH by done. rewrite (join_cons x (x' :: xs)) by done.
    rewrite string_app_assoc. done.
Qed.

Lemma clean_step_real r out c : real c → clean_step r out c = c :: out.
Proof.
  intros (H1 & H2 & H3 & _). unfold clean_step.
  by rewrite !decide_False by done.
Qed.

Lemma clean_fold_real r cs out :
  Forall real cs → fold_left (clean_step r) cs out = (rev cs ++ out)%list.
Proof.
  revert out. induction cs as [|c cs IH]; intros out Hall; [done|].
  inversion Hall; subst. simpl. rewrite clean_step_real by done.
  rewrite IH by done. by rewrite <- app_assoc.
Qed.

Lemma clean_step_rooted_real out c :
  Forall real out → sep_free c → Forall real (clean_step true out c).
Proof.
  intros Hout Hc. unfold clean_step.
  destruct (decide (c = "")); [done|].
  destruct (decide (c = ".")); [done|].
  destruct (decide (c = "..")).
  - destruct out as [|top out']; [done|].
    destruct (decide (top = "..")); [done|]. by inversion Hout.
  - by constructor.
Qed.

Lemma clean_fold_rooted_real cs out :
  Forall real out → Forall sep_free cs →
  Forall real (fold_left (clean_step true) cs out).
Proof.
  revert out. induction cs as [|c cs IH]; intros out Hout Hcs; [done|].
  inversion Hcs; subst. simpl. apply IH; [|done]. by apply clean_step_rooted_real.
Qed.

Lemma split_rooted_path cs :
  Forall real cs →
  split (rooted_path cs) = "" :: (if decide (cs = []) then [""] else cs).
Proof.
  intros Hall. unfold rooted_path. simpl.
  f_equal. case_decide as Hnil; [by subst|].
  apply split_join; [done|]. by apply Forall_real_sep_free.
Qed.

Lemma clean_fold_rooted_path r cs :
  Forall real cs → fold_left (clean_step r) (split (rooted_path cs)) [] = rev cs.
Proof.
  intros Hall. rewrite split_rooted_path by done. simpl.
  case_decide as Hnil; [by subst|].
  rewrite clean_fold_real by done. by rewrite app_nil_r.
Qed.

Lemma Clean_rooted_path cs : Forall real cs → Clean (rooted_path cs) = rooted_path cs.
Proof.
  intros Hall. unfold Clean. rewrite decide_False by done.
  change (is_rooted (rooted_path cs)) with true. cbv zeta.
  rewrite clean_fold_rooted_path by done. by rewrite rev_involutive.
Qed.

Lemma Clean_rooted path :
  is_rooted path = true →
  ∃ cs, Forall real cs ∧ Clean path = rooted_path cs
        ∧ cs = rev (fold_left (clean_step true) (split path) []).
Proof.
  intros Hr. eexists. split; [|split; [|reflexivity]].
  - apply Forall_rev. apply clean_fold_rooted_real; [done|apply split_sep_free].
  - unfold Clean. rewrite decide_False by (intros ->; done). by rewrite Hr.
Qed.

Lemma elements_rooted_path cs : Forall real cs → elements (rooted_path cs) = cs.
Proof.
  intros Hall. unfold elements. rewrite split_rooted_path by done.
  rewrite filter_cons_False by (intros H; by apply H).
  assert (filter (λ c : string, c ≠ "") cs = cs) as Hf.
  { clear -Hall. induction Hall as [|c cs (Hc & _) _ IH]; [done|].
    by rewrite filter_cons_True, IH by done. }
  case_decide; [by subst|done].
Qed.

Lemma Join_rooted rc cp :
  Forall real rc →
  ∃ jc, Forall real jc ∧ Join [rooted_path rc; cp] = rooted_path jc
        ∧ jc = rev (fold_left (clean_step true) (split cp) (rev rc)).
Proof.
  intros Hrc. eexists. split; [|split; [|reflexivity]].
  - apply Forall_rev. apply clean_fold_rooted_real; [by apply Forall_rev|apply split_sep_free].
  - unfold Join. rewrite decide_False by (by unfold rooted_path).
    change (join [rooted_path rc; cp]) with (rooted_path rc ++ String Separator cp).
    unfold Clean. rewrite decide_False by (by unfold rooted_path).
    change (is_rooted (rooted_path rc ++ String Separator cp)) with true. cbv zeta.
    rewrite split_app_sep, fold_left_app, clean_fold_rooted_path by done. done.
Qed.

Lemma sep_free_String x t : sep_free (String x t) → x ≠ Separator ∧ sep_free t.
Proof.
  unfold sep_free. simpl. case_decide as Hx; [done|].
  intros H. split; [done|].
  destruct (split t) as [|y ys] eqn:E; [by destruct (split_not_nil t)|]. by simplify_eq.
Qed.

(** *** The element loop of [Rel] on real elements *)

Lemma rel_loop_spec bs ts :
  Forall real bs → Forall real ts →
  ∃ cur bs' ts',
    rel_loop bs ts = (cur, join bs', join ts')
    ∧ Forall real bs' ∧ Forall real ts' ∧ cur ≠ ".."
    ∧ (bs' = [] ↔ bs `prefix_of` ts).
Proof.
  revert ts. induction bs as [|b rb IH]; intros ts Hbs Hts.
  - exists "", [], ts. simpl. split_and!; try done. split; [intros _; apply prefix_nil|done].
  - inversion Hbs as [|? ? Hb Hrb]; subst.
    destruct ts as [|t rt].
    + exists "", (b :: rb), []. simpl. split_and!; try done.
      split; [done|]. intros H. by apply prefix_nil_inv in H.
    + inversion Hts as [|? ? Ht Hrt]; subst.
      assert (join (b :: rb) ≠ "") as Hjb by (apply join_cons_ne; apply Hb).
      assert (join (t :: rt) ≠ "") as Hjt by (apply join_cons_ne; apply Ht).
      cbn [rel_loop].
      rewrite (bool_decide_eq_false_2 _ Hjb), (bool_decide_eq_false_2 _ Hjt). cbn [orb].
      destruct (decide (b = t)) as [->|Hne].
      * destruct (IH rt Hrb Hrt) as (cur & bs' & ts' & Hl & H1 & H2 & H3 & H4).
        exists cur, bs', ts'. split_and!; try done. rewrite H4.
        split; [apply prefix_cons|apply prefix_cons_inv_2].
      * exists b, (b :: rb), (t :: rt). split_and!; try done.
        { by destruct Hb as (_ & _ & ? & _). }
        split; [done|]. intros H. by apply prefix_cons_inv_1 in H.
Qed.

(** *** The escape test *)

Lemma escapes_up n tail :
  tail = "" ∨ (∃ x, tail = String Separator x) →
  escapes (".." ++ dotdots n ++ tail) = true.
Proof.
  intros Htail. destruct n as [|n].
  - cbn [dotdots]. rewrite app_empty_l.
    destruct Htail as [->|[x ->]]; [reflexivity|].
    unfold escapes. apply orb_true_intro. right. cbn. by destruct x.
  - unfold escapes. apply orb_true_intro. right.
    change (".." ++ dotdots (S n) ++ tail) with ("../" ++ (".." ++ dotdots n) ++ tail).
    apply prefix_app.
Qed.

Lemma prefix_String a s1 b s2 :
  String.prefix (String a s1) (String b s2)
  = if ascii_dec a b then String.prefix s1 s2 else false.
Proof. reflexivity. Qed.

Lemma prefix_String_empty a s1 : String.prefix (String a s1) "" = false.
Proof. reflexivity. Qed.

Ltac prefix_cases :=
  repeat first
    [ rewrite prefix_String
    | rewrite prefix_String_empty
    | match goal with |- context [ascii_dec ?a ?b] => destruct (ascii_dec a b) end;
      simplify_eq ];
  try done; try congruence.

Lemma escapes_head t s :
  real t → s = t ∨ (∃ r, s = t ++ String Separator r) → escapes s = false.
Proof.
  intros (Hne & _ & Hdd & Hsf) Hs.
  assert (s ≠ ".." ∧ String.prefix "../" s = false) as [H1 H2].
  { destruct t as [|a [|b [|c t3]]]; [done| | |].
    - destruct Hs as [->|[r ->]]; rewrite ?app_String, ?app_empty_l;
        (split; [intros [=]; congruence|]); prefix_cases.
    - destruct Hs as [->|[r ->]]; rewrite ?app_String, ?app_empty_l;
        (split; [intros [=]; congruence|]); prefix_cases.
    - apply sep_free_String in Hsf as (_ & Hsf).
      apply sep_free_String in Hsf as (_ & Hsf).
      apply sep_free_String in Hsf as (Hc & _).
      destruct Hs as [->|[r ->]]; rewrite ?app_String, ?app_empty_l;
        (split; [intros [=]; congruence|]); prefix_cases. }
  unfold escapes. rewrite H2. by rewrite bool_decide_eq_false_2.
Qed.

Lemma escapes_join_real ts : Forall real ts → escapes (join ts) = false.
Proof.
  destruct ts as [|t rest]; [done|]. intros Hall. inversion Hall; subst.
  apply (escapes_head t); [done|].
  destruct rest; [by left|right]. eexists. by rewrite join_cons.
Qed.

Lemma rooted_path_inj cs ds :
  Forall real cs → Forall real ds → rooted_path cs = rooted_path ds → cs = ds.
Proof.
  intros Hc Hd Heq. rewrite <- (elements_rooted_path cs), <- (elements_rooted_path ds) by done.
  by rewrite Heq.
Qed.

Lemma rel_loop_lead X Y :
  X ≠ [] → Y ≠ [] → rel_loop ("" :: X) ("" :: Y) = rel_loop X Y.
Proof.
  intros HX HY. cbn [rel_loop].
  rewrite !join_cons by done. rewrite !app_empty_l.
  rewrite !bool_decide_eq_false_2 by done. cbn [orb].
  by rewrite decide_True by done.
Qed.

Lemma rel_loop_end_l ts : ts ≠ [] → rel_loop [""] ts = ("", "", join ts).
Proof. by destruct ts. Qed.

Lemma rel_loop_end_r bs :
  Forall real bs → bs ≠ [] → rel_loop bs [""] = ("", join bs, "").
Proof.
  intros Hall Hne. destruct bs as [|b rb]; [done|].
  assert (join (b :: rb) ≠ "") as Hj.
  { inversion Hall as [|? ? Hb _]; subst. apply join_cons_ne, Hb. }
  cbn [rel_loop]. rewrite (bool_decide_eq_false_2 _ Hj).
  by rewrite bool_decide_eq_true_2 by done.
Qed.

Lemma Rel_rooted rc jc :
  Forall real rc → Forall real jc →
  ∃ rel, Rel (rooted_path rc) (rooted_path jc) = Ok rel
         ∧ (escapes rel = true ↔ ¬ rc `prefix_of` jc).
Proof.
  intros Hrc Hjc. unfold Rel. rewrite !Clean_rooted_path by done.
  destruct (decide (rooted_path jc = rooted_path rc)) as [Heq|Hne].
  { apply rooted_path_inj in Heq as ->; [|done..].
    exists ".". split; [done|]. split; [done|]. intros H. by destruct H. }
  rewrite (decide_False (P := rooted_path rc = ".")) by done.
  change (is_rooted (rooted_path rc)) with true.
  change (is_rooted (rooted_path jc)) with true. cbn [eqb negb].
  rewrite !split_rooted_path by done.
  destruct (decide (rc = [])) as [->|Hrn]; destruct (decide (jc = [])) as [->|Hjn].
  - done.
  - rewrite rel_loop_lead, rel_loop_end_l by done. cbv beta iota.
    rewrite decide_False, decide_True by done.
    eexists. split; [reflexivity|].
    rewrite escapes_join_real by done. split; [done|]. intros H. destruct H. apply prefix_nil.
  - rewrite rel_loop_lead, rel_loop_end_r by done. cbv beta iota.
    rewrite decide_False by done.
    rewrite decide_False by (intros H; by apply join_real_nil in H).
    eexists. split; [reflexivity|]. rewrite escapes_up by (left; by rewrite decide_True).
    split; [|done]. intros _ H. by apply prefix_nil_inv in H.
  - destruct (rel_loop_spec rc jc Hrc Hjc)
      as (cur & bs' & ts' & Hl & Hb & Ht & Hcur & Hpre).
    rewrite rel_loop_lead, Hl by done. cbv beta iota.
    rewrite decide_False by done.
    destruct (decide (join bs' = "")) as [Hnil|Hnn].
    + apply join_real_nil in Hnil; [|done]. subst bs'.
      eexists. split; [reflexivity|]. rewrite escapes_join_real by done.
      split; [done|]. intros H. destruct H. by apply Hpre.
    + eexists. split; [reflexivity|].
      rewrite escapes_up.
      2:{ case_decide; [by left|right; by eexists]. }
      split; [|done]. intros _ H. apply Hpre in H. by subst.
Qed.

(** *** Walking the elements of an input from a directory

    The reading of a path by a file system: the directory is a stack of
    names (innermost first); an empty element and [.] stay, [..] moves to
    the parent, the host root being its own parent, and any other element
    descends. *)

Lemma real_plain c : real c → plain c.
Proof. intros (? & ? & ? & _). done. Qed.

Lemma clean_step_plain_inv out c :
  Forall plain out → Forall plain (clean_step true out c).
Proof.
  intros Hout. unfold clean_step.
  destruct (decide (c = "")); [done|].
  destruct (decide (c = ".")); [done|].
  destruct (decide (c = "..")).
  - destruct out as [|top out']; [done|].
    destruct (decide (top = "..")); [done|]. by inversion Hout.
  - by constructor.
Qed.

Lemma walk_clean_fold segs dir :
  Forall plain dir → walk dir segs = fold_left (clean_step true) segs dir.
Proof.
  revert dir. induction segs as [|seg rest IH]; intros dir Hdir; [done|].
  cbn [walk fold_left].
  assert ((if decide (seg = "") then dir
           else if decide (seg = ".") then dir
           else if decide (seg = "..") then tail dir else seg :: dir)
          = clean_step true dir seg) as ->.
  { unfold clean_step. repeat case_decide; try done.
    destruct dir as [|top dir']; [done|]. inversion Hdir as [|? ? (_ & _ & Htop) _]; subst.
    by rewrite decide_False. }
  apply IH. by apply clean_step_plain_inv.
Qed.

Lemma clean_step_kept r out c : Forall kept out → Forall kept (clean_step r out c).
Proof.
  intros Hout. unfold clean_step.
  destruct (decide (c = "")); [done|].
  destruct (decide (c = ".")); [done|].
  destruct (decide (c = "..")) as [->|].
  - destruct out as [|top out'].
    + destruct r; [done|]. by constructor.
    + destruct (decide (top = "..")).
      * destruct r; [done|]. by constructor.
      * by inversion Hout.
  - by constructor.
Qed.

Lemma clean_step_after_kept top X :
  kept top → top ≠ ".." →
  clean_step true (clean_step true X top) ".." = X.
Proof.
  intros [H1 H2] H3.
  assert (clean_step true X top = top :: X) as ->.
  { unfold clean_step. by rewrite !decide_False by done. }
  unfold clean_step.
  destruct (decide (".." = "")) as [|_]; [done|].
  destruct (decide (".." = ".")) as [|_]; [done|].
  destruct (decide (".." = "..")) as [_|]; [|done].
  by rewrite decide_False.
Qed.

Lemma clean_fold_relative cs st S :
  Forall kept st →
  fold_left (clean_step true) (rev (fold_left (clean_step false) cs st)) S
  = fold_left (clean_step true) cs (fold_left (clean_step true) (rev st) S).
Proof.
  revert st. induction cs as [|c cs IH]; intros st Hst; [done|].
  cbn [fold_left]. rewrite IH by (by apply clean_step_kept). f_equal.
  unfold clean_step at 2.
  destruct (decide (c = "")) as [->|]; [done|].
  destruct (decide (c = ".")) as [->|]; [done|].
  destruct (decide (c = "..")) as [->|].
  - destruct st as [|top st'].
    + done.
    + destruct (decide (top = "..")) as [->|Hne].
      * cbn [rev]. by rewrite fold_left_app.
      * inversion Hst as [|? ? Htop _]; subst.
        cbn [rev]. rewrite fold_left_app. cbn [fold_left].
        by rewrite clean_step_after_kept.
  - cbn [rev]. rewrite fold_left_app. done.
Qed.

Lemma clean_fold_sep_free r cs st :
  Forall sep_free st → Forall sep_free cs →
  Forall sep_free (fold_left (clean_step r) cs st).
Proof.
  revert st. induction cs as [|c cs IH]; intros st Hst Hcs; [done|].
  inversion Hcs; subst. cbn [fold_left]. apply IH; [|done].
  unfold clean_step. repeat case_decide; try done.
  - destruct st as [|top st']; [destruct r; [done|by constructor]|].
    case_decide; [destruct r; [done|by constructor]|]. by inversion Hst.
  - by constructor.
Qed.

Lemma clean_fold_cleaned path S :
  is_rooted path = false →
  fold_left (clean_step true) (split (Clean path)) S
  = fold_left (clean_step true) (split path) S.
Proof.
  intros Hrel. unfold Clean.
  destruct (decide (path = "")) as [->|Hne]; [done|].
  rewrite Hrel. cbv zeta.
  pose proof (clean_fold_relative (split path) [] S) as Hfold.
  cbn [rev fold_left] in Hfold. rewrite <- Hfold by done.
  destruct (decide (join (rev (fold_left (clean_step false) (split path) [])) = ""))
    as [Hnil|Hnn].
  - assert (rev (fold_left (clean_step false) (split path) []) = [] ∨
            rev (fold_left (clean_step false) (split path) []) = [""]) as [->| ->].
    { destruct (rev _) as [|x [|y l]]; [by left|right; simpl in Hnil; by subst|].
      rewrite join_cons in Hnil by done. by destruct x. }
    + done.
    + done.
  - rewrite split_join; [done| |].
    + intros H. by rewrite H in Hnn.
    + apply Forall_rev. apply clean_fold_sep_free; [done|apply split_sep_free].
Qed.

Lemma clean_fold_lead cs S :
  Forall real cs →
  fold_left (clean_step true) (split (rooted_path cs)) S = (rev cs ++ S)%list.
Proof.
  intros Hall. rewrite split_rooted_path by done. cbn [fold_left].
  assert (clean_step true S "" = S) as -> by done.
  case_decide as Hnil; [by subst|]. by apply clean_fold_real.
Qed.

Lemma app_empty_r (a : string) : a ++ "" = a.
Proof. induction a as [|x a IH]; [done|]. by rewrite app_String, IH. Qed.

Lemma prefix_rooted_path rc rest :
  String.prefix (rooted_path rc) (rooted_path (rc ++ rest)) = true.
Proof.
  destruct (decide (rest = [])) as [->|Hrest].
  { rewrite app_nil_r. rewrite <- (app_empty_r (rooted_path rc)) at 2. apply prefix_app. }
  destruct (decide (rc = [])) as [->|Hrc].
  { apply (prefix_app "/"). }
  unfold rooted_path. rewrite join_app by done.
  rewrite <- app_String. apply prefix_app.
Qed.

(** *** Parent directories *)

Lemma upto_last_sep_free c : sep_free c → upto_last_sep c = "".
Proof.
  induction c as [|x c IH]; [done|]. intros [Hx Hc]%sep_free_String.
  cbn [upto_last_sep]. rewrite IH by done. by rewrite decide_False.
Qed.

Lemma upto_last_sep_app a c :
  sep_free c → upto_last_sep (a ++ String Separator c) = a ++ String Separator "".
Proof.
  intros Hc. induction a as [|x a IH].
  - rewrite !app_empty_l. cbn [upto_last_sep]. rewrite upto_last_sep_free by done.
    by rewrite decide_True.
  - rewrite !app_String. cbn [upto_last_sep]. rewrite IH.
    destruct a; by rewrite ?app_String, ?app_empty_l.
Qed.

Lemma rooted_path_snoc cs c :
  cs ≠ [] → rooted_path (cs ++ [c]) = rooted_path cs ++ String Separator c.
Proof. intros Hne. unfold rooted_path. by rewrite join_app, app_String. Qed.

Lemma Clean_trailing_sep cs :
  Forall real cs → Clean (rooted_path cs ++ String Separator "") = rooted_path cs.
Proof.
  intros Hall. unfold Clean. rewrite decide_False by (by unfold rooted_path).
  change (is_rooted (rooted_path cs ++ String Separator "")) with true. cbv zeta.
  rewrite split_app_sep, fold_left_app, clean_fold_rooted_path by done.
  cbn [split fold_left].
  assert (clean_step true (rev cs) "" = rev cs) as -> by done.
  by rewrite rev_involutive.
Qed.

Lemma Dir_rooted_path cs c :
  Forall real cs → real c → Dir (rooted_path (cs ++ [c])) = rooted_path cs.
Proof.
  intros Hcs Hc. unfold Dir. destruct (decide (cs = [])) as [->|Hne].
  - cbn [app]. unfold rooted_path at 1. cbn [join].
    rewrite <- (app_empty_l (String Separator c)).
    rewrite upto_last_sep_app by (by apply real_sep_free). done.
  - rewrite rooted_path_snoc by done.
    rewrite upto_last_sep_app by (by apply real_sep_free).
    by apply Clean_trailing_sep.
Qed.

Lemma Dir_root : Dir "/" = "/".
Proof. reflexivity. Qed.

End PathFacts.

Section Confinement.
Import filepath PathSpec PathFacts.

(** C1.  Path confinement.  For a root as [NewSimpleFS] sets it (absolute and
    cleaned) and any input: the path [fullPath] works on, the cleaned input
    joined with the root, is the absolute path whose elements are obtained by
    reading the input from the root ([resolved]); [filepath.Rel] from the root
    to it succeeds, and the relative path is [..] or begins with [../]
    exactly when these elements do not extend those of the root.  In that
    case [fullPath] and [IsValidPath] reject the input with the
    escapes-the-root error; otherwise [fullPath] returns the joined path,
    which has the root as a textual prefix, and [IsValidPath] accepts every
    non-empty input. *)
Theorem fullPath_confinement (root path : string) :
  IsAbs root = true → Clean root = root →
  let joined := Join [root; Clean path] in
  elements joined = resolved root path
  ∧ IsAbs joined = true
  ∧ (∃ rel, Rel root joined = Ok rel
            ∧ (escapes rel = true ↔ ¬ elements root `prefix_of` resolved root path))
  ∧ (elements root `prefix_of` resolved root path →
       fullPath root path = Ok joined
       ∧ String.prefix root joined = true
       ∧ (path ≠ "" → IsValidPath root path = Ok true))
  ∧ (¬ elements root `prefix_of` resolved root path →
       fullPath root path = Err ErrEscapesRoot
       ∧ IsValidPath root path = Err ErrEscapesRoot).
Proof.
  intros Habs Hclean joined.
  destruct (Clean_rooted root Habs) as (rc & Hrc & Hroot & _).
  rewrite Hclean in Hroot.
  destruct (Join_rooted rc (Clean path) Hrc) as (jc & Hjc & Hjoin & Hjc_eq).
  assert (joined = rooted_path jc) as Hjoined by (unfold joined; by rewrite Hroot).
  assert (elements root = rc) as Hel by (rewrite Hroot; by apply elements_rooted_path).
  assert (jc = resolved root path) as Hres.
  { unfold resolved. rewrite Hel, Hjc_eq.
    destruct (is_rooted path) eqn:Hr.
    - destruct (Clean_rooted path Hr) as (pc & Hpc & Hcp & Hpc_eq).
      rewrite Hcp, clean_fold_lead by done.
      rewrite rev_app_distr, !rev_involutive.
      rewrite walk_clean_fold by done. by rewrite Hpc_eq.
    - rewrite clean_fold_cleaned by done.
      rewrite walk_clean_fold; [done|].
      apply Forall_rev. eapply Forall_impl; [exact Hrc|]. apply real_plain. }
  destruct (Rel_rooted rc jc Hrc Hjc) as (rel & Hrel & Hesc).
  rewrite <- Hroot, <- Hjoined in Hrel. rewrite <- Hres, Hel.
  assert (fullPath root path
          = if escapes rel then Err ErrEscapesRoot else Ok joined) as Hfull.
  { unfold fullPath. fold joined. by rewrite Hrel. }
  split_and!.
  - rewrite Hjoined. by apply elements_rooted_path.
  - by rewrite Hjoined.
  - by exists rel.
  - intros Hin. assert (escapes rel = false) as Hno.
    { destruct (escapes rel); [|done]. by destruct (proj1 Hesc). }
    rewrite Hno in Hfull. split_and!; [done| |].
    + destruct Hin as [rest ->]. rewrite Hroot, Hjoined. apply prefix_rooted_path.
    + intros Hne. unfold IsValidPath. rewrite decide_False by done.
      by rewrite Hfull, Hrel, Hno.
  - intros Hout. apply Hesc in Hout. rewrite Hout in Hfull. split; [done|].
    unfold IsValidPath. destruct (decide (path = "")) as [->|Hne]; [|by rewrite Hfull].
    exfalso. apply Hesc in Hout. apply Hout. rewrite Hres. unfold resolved. cbn.
    rewrite decide_True by done. by rewrite Hel, rev_involutive.
Qed.

End Confinement.

(** * Reasoning about calls *)

Section PostRules.
Context {A C : Type}.
Implicit Types (Q : A → State → Prop) (E : error → State → Prop) (B : State → Prop).

Lemma post_mono (m : M A) Q Q' E E' B B' s :
  post m Q E B s →
  (∀ a s', Q a s' → Q' a s') → (∀ e s', E e s' → E' e s') → (∀ s', B s' → B' s') →
  post m Q' E' B' s.
Proof. unfold post. destruct (m s); eauto. Qed.

Lemma post_bind (m : M A) (k : A → M C) (R : C → State → Prop) E B s :
  post m (λ a s', post (k a) R E B s') E B s → post (bind m k) R E B s.
Proof. unfold post, bind. by destruct (m s). Qed.

Lemma post_ret (a : A) Q E B s : Q a s → post (ret a) Q E B s.
Proof. done. Qed.

Lemma post_fail e Q E B s : E e s → post (@fail A e) Q E B s.
Proof. done. Qed.

Lemma post_get (f : State → A) Q E B s : Q (f s) s → post (get f) Q E B s.
Proof. done. Qed.

Lemma post_wrap ctx (m : M A) Q E B s :
  post m Q (λ e, E (Wrapped ctx e)) B s → post (wrap ctx m) Q E B s.
Proof. unfold post, wrap. by destruct (m s). Qed.

Lemma post_defer cleanup (m : M A) Q E B s :
  post m (λ a s', Q a (cleanup s')) (λ e s', E e (cleanup s')) B s →
  post (defer cleanup m) Q E B s.
Proof. unfold post, defer. by destruct (m s). Qed.

Lemma post_ignore_error d (m : M A) Q E B s :
  post m Q (λ _, Q d) B s → post (ignore_error d m) Q E B s.
Proof. unfold post, ignore_error. by destruct (m s). Qed.

Lemma post_lift (r : result A) Q E B s :
  match r with Ok a => Q a s | Err e => E e s end → post (lift r) Q E B s.
Proof. by destruct r. Qed.

End PostRules.

Lemma post_modify f (Q : unit → State → Prop) E B s :
  Q tt (f s) → post (modify f) Q E B s.
Proof. done. Qed.

Lemma post_when (b : bool) (m : M unit) (Q : unit → State → Prop) E B s :
  (b = true → post m Q E B s) → (b = false → Q tt s) → post (when b m) Q E B s.
Proof. intros Ht Hf. destruct b; [by apply Ht|by apply post_ret, Hf]. Qed.

Lemma post_host_call call name f (Q : unit → State → Prop) E B s :
  match f (host s) with
  | Some h => Q tt (set_host h s)
  | None => E (ErrHost call name) s
  end →
  post (host_call call name f) Q E B s.
Proof. unfold post, host_call. by destruct (f (host s)). Qed.

Lemma post_resolve path (Q : string → State → Prop) E B s :
  match fullPath (rootPath s) path with
  | Ok full => Q full s
  | Err e => E e s
  end →
  post (resolve path) Q E B s.
Proof. unfold post, resolve, lift. by destruct (fullPath (rootPath s) path). Qed.

Lemma post_executeHooks typ ctx (Q : unit → State → Prop) E B s :
  match hooks s !! (HookContext.Operation ctx, typ) with
  | None => Q tt s
  | Some hs => match run_hooks hs ctx with Some err => E err s | None => Q tt s end
  end →
  post (executeHooks typ ctx) Q E B s.
Proof.
  unfold post, executeHooks.
  destruct (hooks s !! _) as [hs|]; [|done]. by destruct (run_hooks hs ctx).
Qed.

Lemma post_executeHooks_pass typ ctx (Q : unit → State → Prop) E B s :
  hooks_pass s typ ctx → Q tt s → post (executeHooks typ ctx) Q E B s.
Proof.
  intros Hp HQ. apply post_executeHooks.
  destruct (hooks s !! _) as [hs|] eqn:Hh; [|done]. by rewrite (Hp hs).
Qed.

(** *** Mutexes *)

Lemma set_locks_set_locks l l' s : set_locks l (set_locks l' s) = set_locks l s.
Proof. done. Qed.

Lemma mutex_registered key k s : mutex (registered key s) k = mutex s k.
Proof.
  unfold registered. destruct (locks s !! key) eqn:Hk; [done|]. unfold mutex. cbn.
  destruct (decide (key = k)) as [->|Hne].
  - by rewrite lookup_insert_eq, Hk.
  - by rewrite lookup_insert_ne.
Qed.

Lemma post_locked {A} key (body : M A) Q E B s :
  (¬ free (mutex s key) → B (registered key s)) →
  (free (mutex s key) →
   post body (λ a s', Q a (rw_Unlock key s')) (λ e s', E e (rw_Unlock key s')) B
        (acquire key s)) →
  post (locked key body) Q E B s.
Proof.
  intros Hheld Hfree. unfold locked. apply post_bind.
  unfold post at 1, getFileLock.
  set (s0 := registered key s).
  assert (mutex s0 key = mutex s key) as Hm by apply mutex_registered.
  assert (acquire key s0 = acquire key s) as Hacq.
  { unfold s0, registered, acquire. destruct (locks s !! key); [done|]. cbn.
    by rewrite insert_insert_eq. }
  assert (post (rw_Lock key >> defer (rw_Unlock key) body) Q E B s0) as Hp.
  { apply post_bind. unfold post at 1, rw_Lock. cbv zeta. rewrite Hm.
    destruct (writer (mutex s key)) eqn:Hw; cbn [orb].
    { apply Hheld. intros [? _]. congruence. }
    destruct (bool_decide (readers (mutex s key) = 0%nat)) eqn:Hr; cbn [negb].
    - apply bool_decide_eq_true in Hr. apply post_defer.
      fold (acquire key s0). rewrite Hacq. by apply Hfree.
    - apply bool_decide_eq_false in Hr. apply Hheld. by intros [_ ?]. }
  unfold s0, registered in *. by destruct (locks s !! key).
Qed.

Lemma post_rlocked {A} key (body : M A) Q E B s :
  (writer (mutex s key) = true → B (registered key s)) →
  (writer (mutex s key) = false →
   post body (λ a s', Q a (rw_RUnlock key s')) (λ e s', E e (rw_RUnlock key s')) B
        (racquire key s)) →
  post (rlocked key body) Q E B s.
Proof.
  intros Hheld Hfree. unfold rlocked. apply post_bind.
  unfold post at 1, getFileLock.
  set (s0 := registered key s).
  assert (mutex s0 key = mutex s key) as Hm by apply mutex_registered.
  assert (racquire key s0 = racquire key s) as Hacq.
  { unfold racquire. rewrite Hm. unfold s0, registered.
    destruct (locks s !! key); [done|]. cbn. by rewrite insert_insert_eq. }
  assert (post (rw_RLock key >> defer (rw_RUnlock key) body) Q E B s0) as Hp.
  { apply post_bind. unfold post at 1, rw_RLock. cbv zeta. rewrite Hm.
    destruct (writer (mutex s key)) eqn:Hw.
    { by apply Hheld. }
    apply post_defer. rewrite <- Hm. fold (racquire key s0). rewrite Hacq. by apply Hfree. }
  unfold s0, registered in *. by destruct (locks s !! key).
Qed.

Lemma mutex_acquire key s : mutex (acquire key s) key = mkRW true 0.
Proof. unfold mutex, acquire. cbn. by rewrite lookup_insert_eq. Qed.

Lemma mutex_acquire_ne key k s : key ≠ k → mutex (acquire key s) k = mutex s k.
Proof. intros. unfold mutex, acquire. cbn. by rewrite lookup_insert_ne. Qed.

Lemma set_host_id s : set_host (host s) s = s.
Proof. by destruct s. Qed.

Import PathSpec PathFacts.

Lemma post_blocked_in {A} (m : M A) (B : State → Prop) s :
  post m never never B s → ∃ s', m s = Blocked s' ∧ B s'.
Proof. unfold post. destruct (m s) as [| |s']; [done..|]. by exists s'. Qed.

Lemma MkdirAll_elems_exists h relems :
  os.Stat h (filepath.join (rev relems)) = Some Dir → os.MkdirAll_elems h relems = Some h.
Proof. intros Hst. destruct relems; simpl in *; by rewrite Hst. Qed.

Lemma MkdirAll_exists h dir :
  os.Stat h dir = Some Dir → os.MkdirAll h dir = Some h.
Proof.
  intros Hst. unfold os.MkdirAll. apply MkdirAll_elems_exists.
  by rewrite rev_involutive, join_split.
Qed.

(** *** What a call leaves alone

    [frame s s']: the configuration of the facade is the same, the journal
    handle is as open as before and every mutex held by a writer in [s] is
    still held by a writer in [s']. *)

Lemma frame_refl s : frame s s.
Proof. by repeat split. Qed.

Lemma frame_trans s1 s2 s3 : frame s1 s2 → frame s2 s3 → frame s1 s3.
Proof.
  intros (?&?&?&?&?&?&Ha) (?&?&?&?&?&?&Hb). repeat split; try congruence.
  intros k Hk. by apply Hb, Ha.
Qed.

Lemma frame_registered key s : frame s (registered key s).
Proof.
  repeat split; try (unfold registered; by destruct (locks s !! key)).
  intros k. by rewrite mutex_registered.
Qed.

Lemma frame_acquire key s : frame s (acquire key s).
Proof.
  repeat split. intros k Hk. destruct (decide (key = k)) as [->|Hne].
  - by rewrite mutex_acquire.
  - by rewrite mutex_acquire_ne.
Qed.

Lemma frame_set_host h s : frame s (set_host h s).
Proof. by repeat split. Qed.

Lemma mutex_racquire key s :
  mutex (racquire key s) key = mkRW false (S (readers (mutex s key))).
Proof. unfold mutex at 1, racquire. cbn. by rewrite lookup_insert_eq. Qed.

Lemma mutex_racquire_ne key k s : key ≠ k → mutex (racquire key s) k = mutex s k.
Proof. intros. unfold mutex at 1, racquire. cbn. by rewrite lookup_insert_ne. Qed.

Lemma mutex_rw_RUnlock_ne key k s : key ≠ k → mutex (rw_RUnlock key s) k = mutex s k.
Proof. intros. unfold mutex at 1, rw_RUnlock. cbn. by rewrite lookup_insert_ne. Qed.

Lemma mutex_rw_Unlock_ne key k s : key ≠ k → mutex (rw_Unlock key s) k = mutex s k.
Proof. intros. unfold mutex at 1, rw_Unlock. cbn. by rewrite lookup_insert_ne. Qed.

Lemma mutex_rw_Unlock key s :
  mutex (rw_Unlock key s) key = mkRW false (readers (mutex s key)).
Proof. unfold mutex at 1, rw_Unlock. cbn. by rewrite lookup_insert_eq. Qed.

(** A read section on a mutex that no writer holds. *)
Lemma frame_read_section key s s' :
  writer (mutex s key) = false → frame (racquire key s) s' → frame s (rw_RUnlock key s').
Proof.
  intros Hw (?&?&?&?&?&?&Hk). repeat split; try done.
  intros k Hheld. destruct (decide (key = k)) as [->|Hne]; [congruence|].
  rewrite mutex_rw_RUnlock_ne by done. apply Hk. by rewrite mutex_racquire_ne.
Qed.

Section Deadlock.
Variable HashString : string → string.

(** Reading a path whose mutex is held by a writer blocks. *)
Lemma ReadFile_blocks path full s :
  fullPath (rootPath s) path = Ok full →
  writer (mutex s full) = true →
  post (ReadFile path) never never (frame s) s.
Proof.
  intros Hres Hw. unfold ReadFile. apply post_bind, post_resolve. rewrite Hres.
  apply post_rlocked; [intros _; apply frame_registered|congruence].
Qed.

(** Taking a version of a regular file whose mutex is held by a writer
    blocks, unless a hook vetoes first. *)
Lemma createVersion_blocks env path full old s :
  versioning s = true →
  fullPath (rootPath s) path = Ok full →
  os.Stat (host s) full = Some (File old) →
  hooks_pass s HookTypePre (hook_ctx OpCreateVersion path) →
  writer (mutex s full) = true →
  post (createVersion HashString env path) never never (frame s) s.
Proof.
  intros Hv Hres Hst Hpre Hw. unfold createVersion.
  apply post_bind, post_get. rewrite Hv. cbn [negb].
  apply post_bind, post_executeHooks_pass; [done|].
  apply post_bind, post_resolve. rewrite Hres.
  apply post_bind, post_get. rewrite Hst.
  apply post_bind, post_wrap.
  eapply post_mono; [by apply (ReadFile_blocks path full)|done..].
Qed.

Lemma FileExists_true path full n s :
  fullPath (rootPath s) path = Ok full → os.Stat (host s) full = Some n →
  FileExists path s = true.
Proof. intros Hres Hst. unfold FileExists. by rewrite Hres, Hst. Qed.

(** A versioned write to a regular file blocks, holding the write lock of
    the file. *)
Lemma WriteFile_versioned_blocks env path data mode full old s :
  versioning s = true →
  fullPath (rootPath s) path = Ok full →
  os.Stat (host s) full = Some (File old) →
  os.Stat (host s) (filepath.Dir full) = Some Dir →
  free (mutex s full) →
  hooks_pass s HookTypePre (HookContext.mk OpWriteFile path "" data mode "" "") →
  hooks_pass s HookTypePre (hook_ctx OpCreateVersion path) →
  ∃ s', WriteFileWithMode HashString env path data mode s = Blocked s'
        ∧ writer (mutex s' full) = true.
Proof.
  intros Hv Hres Hst Hdir Hfree Hpre Hprev. apply post_blocked_in.
  unfold WriteFileWithMode. apply post_bind, post_resolve. rewrite Hres.
  apply post_bind, post_wrap, post_host_call.
  rewrite (MkdirAll_exists _ _ Hdir), set_host_id.
  apply post_locked; [by intros []|]. intros _. unfold write_locked.
  apply post_bind, post_executeHooks_pass; [done|].
  apply post_bind, post_get. apply post_bind, post_get.
  rewrite (FileExists_true path full (File old)) by done.
  cbn [versioning acquire set_locks]. rewrite Hv. cbn [andb].
  apply post_bind, post_when; [|done]. intros _. apply post_wrap.
  eapply post_mono; [eapply (createVersion_blocks env path full old)|done|done|];
    try done.
  - by rewrite mutex_acquire.
  - intros s' (_&_&_&_&_&_&Hheld). apply Hheld. by rewrite mutex_acquire.
Qed.

Lemma post_GetAllAttributes path (Q : gmap string string → State → Prop) E B s :
  (∀ a s', frame s s' → Q a s') → (∀ e s', frame s s' → E e s') →
  (∀ s', frame s s' → B s') →
  post (GetAllAttributes HashString path) Q E B s.
Proof.
  intros HQ HE HB. unfold GetAllAttributes.
  apply post_bind, post_get. apply post_bind, post_get.
  destruct (attributes s !! HashString path) as [attrs|];
    [|apply post_ret, HQ, frame_refl].
  apply post_rlocked; [intros _; apply HB, frame_registered|]. intros Hw.
  apply post_bind, post_executeHooks.
  assert (∀ s', frame (racquire (attrFile HashString (rootPath s) path) s) s' →
                frame s (rw_RUnlock (attrFile HashString (rootPath s) path) s')) as Hfr.
  { intros s'. by apply frame_read_section. }
  assert (post (executeHooks HookTypePost (hook_ctx OpGetAllAttributes path) >> ret attrs)
            (λ a s', Q a (rw_RUnlock (attrFile HashString (rootPath s) path) s'))
            (λ e s', E e (rw_RUnlock (attrFile HashString (rootPath s) path) s')) B
            (racquire (attrFile HashString (rootPath s) path) s)) as Hpost.
  { apply post_bind, post_executeHooks.
    destruct (hooks _ !! _) as [hs|].
    - destruct (run_hooks hs _); [apply HE|apply post_ret, HQ]; apply Hfr, frame_refl.
    - apply post_ret, HQ, Hfr, frame_refl. }
  destruct (hooks _ !! _) as [hs|]; [|done].
  destruct (run_hooks hs _); [|done]. apply HE, Hfr, frame_refl.
Qed.

Lemma post_Journal_Log entry (Q : unit → State → Prop) E B s :
  Journal.file (jrnl s) = true →
  (∀ s', frame s s' → Q tt s') → (∀ s', frame s s' → B s') →
  post (Journal_Log entry) Q E B s.
Proof.
  intros Hfile HQ HB. unfold post, Journal_Log, bind, j_Lock, defer.
  destruct (Journal.mu (jrnl s)) eqn:Hmu; [apply HB, frame_refl|].
  cbn. rewrite Hfile. apply HQ. by repeat split.
Qed.

(** A versioned deletion of a regular file blocks, holding the write lock
    of the file. *)
Lemma DeleteFile_versioned_blocks env path full old s :
  versioning s = true →
  fullPath (rootPath s) path = Ok full →
  os.Stat (host s) full = Some (File old) →
  free (mutex s full) →
  hooks_pass s HookTypePre (hook_ctx OpDeleteFile path) →
  hooks_pass s HookTypePre (hook_ctx OpCreateVersion path) →
  ∃ s', DeleteFile HashString env path s = Blocked s'
        ∧ writer (mutex s' full) = true.
Proof.
  intros Hv Hres Hst Hfree Hpre Hprev. apply post_blocked_in.
  unfold DeleteFile. apply post_bind, post_resolve. rewrite Hres.
  apply post_bind, post_get. rewrite Hst.
  apply post_locked; [by intros []|]. intros _.
  apply post_locked.
  { intros _. by rewrite mutex_registered, mutex_acquire. }
  intros Hfree'.
  assert (filepath.Dir full ≠ full) as Hne.
  { intros Heq. rewrite Heq, mutex_acquire in Hfree'. by destruct Hfree'. }
  apply post_bind, post_executeHooks_pass; [done|].
  apply post_bind, post_get. cbn [versioning acquire set_locks]. rewrite Hv.
  apply post_bind, post_when; [|done]. intros _. apply post_wrap.
  assert (writer (mutex (acquire (filepath.Dir full) (acquire full s)) full) = true)
    as Hw.
  { rewrite mutex_acquire_ne by done. by rewrite mutex_acquire. }
  eapply post_mono; [eapply (createVersion_blocks env path full old)|done|done|];
    try done.
  intros s' (_&_&_&_&_&_&Hheld). by apply Hheld.
Qed.

Lemma held_acquire key k s :
  writer (mutex s k) = true → writer (mutex (acquire key s) k) = true.
Proof.
  intros Hw. destruct (decide (key = k)) as [<-|Hne].
  - by rewrite mutex_acquire.
  - by rewrite mutex_acquire_ne.
Qed.

(** A move on a journaling facade blocks, holding the write lock of the
    source: at the latest when it reads the source, after the deletion of
    the source was recorded. *)
Lemma MoveFile_journaled_blocks env src dst srcPath dstPath h1 s :
  journal s = true →
  Journal.file (jrnl s) = true →
  fullPath (rootPath s) src = Ok srcPath →
  fullPath (rootPath s) dst = Ok dstPath →
  free (mutex s srcPath) →
  hooks_pass s HookTypePre (HookContext.mk OpMoveFile dst src "" 0 "" "") →
  versioning s && FileExists dst s = false →
  os.MkdirAll (host s) (filepath.Dir dstPath) = Some h1 →
  ∃ s', MoveFile HashString env src dst s = Blocked s'
        ∧ writer (mutex s' srcPath) = true.
Proof.
  intros Hj Hfile Hsrc Hdst Hfree Hpre Hver Hmk. apply post_blocked_in.
  unfold MoveFile. apply post_bind, post_resolve. rewrite Hsrc.
  apply post_bind, post_resolve. rewrite Hdst.
  assert (writer (mutex (acquire srcPath s) srcPath) = true) as Hw1
    by by rewrite mutex_acquire.
  apply post_locked; [by intros []|]. intros _.
  apply post_locked; [intros _; by rewrite mutex_registered|]. intros _.
  apply post_locked;
    [intros _; rewrite mutex_registered; by apply held_acquire|]. intros _.
  apply post_locked;
    [intros _; rewrite mutex_registered; by do 2 apply held_acquire|]. intros _.
  set (s4 := acquire _ (acquire _ (acquire _ (acquire srcPath s)))).
  assert (frame (acquire srcPath s) s4) as Hfr4.
  { unfold s4. eapply frame_trans; [|apply frame_acquire].
    eapply frame_trans; apply frame_acquire. }
  apply post_bind, post_executeHooks_pass; [done|].
  apply post_bind, post_get. apply post_bind, post_get.
  assert (versioning s4 && FileExists dst s4 = false) as -> by exact Hver.
  apply post_bind, post_when; [done|]. intros _.
  apply post_bind, post_host_call.
  assert (host s4 = host s) as -> by done. rewrite Hmk.
  apply post_bind, post_ignore_error.
  apply post_GetAllAttributes; [intros attrs s' Hfr|intros _ s' Hfr|intros s' Hfr].
  all: assert (frame (acquire srcPath s) s') as (Hroot&Hjr&_&_&_&Hf&Hheld)
    by (eapply frame_trans; [exact Hfr4|];
        eapply frame_trans; [apply frame_set_host|done]).
  3: by apply Hheld.
  all: apply post_bind, post_get; rewrite Hjr; cbn [journal acquire set_locks];
    rewrite Hj.
  all: apply post_bind; apply post_when; [|done]; intros _.
  all: apply post_bind, post_wrap, post_Journal_Log; [by rewrite Hf| |].
  all: try (intros s'' (_&_&_&_&_&_&Hheld'); by apply Hheld', Hheld).
  all: intros s'' (Hroot'&_&_&_&_&_&Hheld').
  all: apply post_bind, post_wrap.
  all: eapply post_mono; [apply (ReadFile_blocks src srcPath)|done|done|];
    [by rewrite Hroot', Hroot|by apply Hheld', Hheld|].
  all: intros s3 (_&_&_&_&_&_&Hheld3); by apply Hheld3, Hheld', Hheld.
Qed.

End Deadlock.

(** * The host tree *)

Lemma Stat_None h name : os.Stat h name = None → name ≠ "/" ∧ h !! name = None.
Proof. unfold os.Stat. case_decide; [done|]. done. Qed.

Lemma Stat_lookup h name n : h !! name = Some n → name ≠ "/" → os.Stat h name = Some n.
Proof. intros Hl Hne. unfold os.Stat. by rewrite decide_False. Qed.

Lemma Mkdir_Some h name h' :
  os.Mkdir h name = Some h' →
  h' = <[name := Dir]> h ∧ h !! name = None ∧ name ≠ "/"
  ∧ os.Stat h (filepath.Dir name) = Some Dir.
Proof.
  unfold os.Mkdir. destruct (os.Stat h name) eqn:Hst; [done|].
  apply Stat_None in Hst as [Hne Hl].
  destruct (os.Stat h (filepath.Dir name)) as [[|]|]; [|done..].
  intros [= <-]. done.
Qed.

Lemma WriteFile_Some h name data h' :
  os.WriteFile h name data = Some h' →
  h' = <[name := File data]> h ∧ name ≠ "/".
Proof.
  unfold os.WriteFile. destruct (os.Stat h name) as [[|old]|] eqn:Hst; [done| |].
  - intros [= <-]. split; [done|]. intros ->. done.
  - apply Stat_None in Hst as [Hne _].
    destruct (os.Stat h (filepath.Dir name)) as [[|]|]; [|done..]. by intros [= <-].
Qed.

(** What [MkdirAll] adds are directories that were missing. *)
Lemma MkdirAll_elems_grows h relems h1 :
  os.MkdirAll_elems h relems = Some h1 →
  h ⊆ h1 ∧ ∀ p nd, h1 !! p = Some nd → h !! p = Some nd ∨ (nd = Dir ∧ h !! p = None).
Proof.
  revert h1. induction relems as [|c parent IH]; intros h1; cbn [os.MkdirAll_elems].
  - destruct (os.Stat h _) as [[|]|]; [|done..]. intros [= <-]. split; [done|]. eauto.
  - destruct (os.Stat h _) as [[|]|]; [|done|].
    { intros [= <-]. split; [done|]. eauto. }
    destruct (decide _) as [Hroot|Hroot].
    + intros (-> & Hnone & _)%Mkdir_Some. split.
      * by apply insert_subseteq.
      * intros p nd. destruct (decide (filepath.join (rev (c :: parent)) = p)) as [<-|Hne].
        -- rewrite lookup_insert_eq. intros [= <-]. by right.
        -- rewrite lookup_insert_ne by done. eauto.
    + destruct (os.MkdirAll_elems h parent) as [h0|] eqn:Hrec; [|done].
      destruct (IH h0 eq_refl) as [Hsub Hnew].
      intros (-> & Hnone & _)%Mkdir_Some. split.
      * etrans; [exact Hsub|]. by apply insert_subseteq.
      * intros p nd. destruct (decide (filepath.join (rev (c :: parent)) = p)) as [<-|Hne].
        -- rewrite lookup_insert_eq. intros [= <-]. right. split; [done|].
           destruct (h !! _) eqn:Hh; [|done].
           eapply lookup_weaken in Hh; [|exact Hsub]. congruence.
        -- rewrite lookup_insert_ne by done. eauto.
Qed.

Lemma MkdirAll_grows h dir h1 :
  os.MkdirAll h dir = Some h1 →
  h ⊆ h1 ∧ ∀ p nd, h1 !! p = Some nd → h !! p = Some nd ∨ (nd = Dir ∧ h !! p = None).
Proof. apply MkdirAll_elems_grows. Qed.

Lemma MkdirAll_files h dir h1 p data :
  os.MkdirAll h dir = Some h1 → h1 !! p = Some (File data) ↔ h !! p = Some (File data).
Proof.
  intros [Hsub Hnew]%MkdirAll_grows. split.
  - intros Hp. by destruct (Hnew _ _ Hp) as [?|[? _]].
  - intros Hp. by eapply lookup_weaken.
Qed.

(** * Writing and reading *)

Lemma post_Journal_Log_jrnl entry (Q : unit → State → Prop) E B s :
  (∀ j, Q tt (set_jrnl j s)) → (∀ e j, E e (set_jrnl j s)) → B s →
  post (Journal_Log entry) Q E B s.
Proof.
  intros HQ HE HB. unfold post, Journal_Log, bind, j_Lock, defer.
  destruct (Journal.mu (jrnl s)); [done|]. cbn.
  destruct (Journal.file (jrnl s)); [apply HQ|apply HE].
Qed.

Section WriteRead.
Variable HashString : string → string.

(** Under the write lock of its path, [createVersion] never returns
    normally: it fails early or blocks in [ReadFile]. *)
Lemma createVersion_never_done env path full s :
  fullPath (rootPath s) path = Ok full →
  writer (mutex s full) = true →
  post (createVersion HashString env path) never (λ _ _, True) always s.
Proof.
  intros Hres Hw. unfold createVersion.
  apply post_bind, post_get. destruct (versioning s); [|done]. cbn [negb].
  apply post_bind, post_executeHooks.
  assert (post (do full <- resolve path;
                do h <- get host;
                match os.Stat h full with
                | Some Dir => fail (ErrMsg "cannot version a directory")
                | Some (File _) =>
                    do data <- wrap "failed to read file" (ReadFile path);
                    do attrs <- ignore_error ∅ (GetAllAttributes HashString path);
                    let versionID := uuid env in
                    let versionInfo :=
                      VersionInfo.mk versionID path (now env)
                        (Z.of_nat (String.length data)) attrs "" in
                    modify (λ s, set_versions
                       (<[HashString path :=
                            <[versionID := (versionInfo, data)]>
                              (default ∅ (version_dir HashString s path))]> (versions s)) s) >>
                    do maxv <- get maxVersions;
                    when (0 <? maxv)
                      (wrap "failed to prune old versions" (pruneVersions HashString path)) >>
                    executeHooks HookTypePost (hook_ctx OpCreateVersion path)
                | None => fail (Wrapped "failed to get file info" (ErrHost "stat" full))
                end) never (λ _ _, True) always s) as Hrest.
  { apply post_bind, post_resolve. rewrite Hres. apply post_bind, post_get.
    destruct (os.Stat (host s) full) as [[|old]|]; [done| |done].
    apply post_bind, post_wrap.
    eapply post_mono; [by apply (ReadFile_blocks path full)|done..]. }
  destruct (hooks s !! _) as [hs|]; [|exact Hrest].
  destruct (run_hooks hs _); [done|exact Hrest].
Qed.

(** What a call of [WriteFileWithMode] that returns normally leaves. *)
Lemma WriteFileWithMode_done env path data mode s :
  post (WriteFileWithMode HashString env path data mode)
       (λ _ s', ∃ full, fullPath (rootPath s) path = Ok full
                  ∧ rootPath s' = rootPath s ∧ hooks s' = hooks s
                  ∧ os.Stat (host s') full = Some (File data)
                  ∧ writer (mutex s' full) = false)
       (λ _ _, True) always s.
Proof.
  unfold WriteFileWithMode. apply post_bind, post_resolve.
  destruct (fullPath (rootPath s) path) as [full|] eqn:Hres; [|done].
  apply post_bind, post_wrap, post_host_call.
  destruct (os.MkdirAll _ _) as [h1|]; [|done].
  apply post_locked; [done|]. intros _. unfold write_locked.
  apply post_bind, post_executeHooks.
  set (s1 := acquire full (set_host h1 s)).
  assert (post
    (do v <- get versioning;
     do exists_ <- get (FileExists path);
     when (v && exists_) (wrap "failed to create version" (createVersion HashString env path)) >>
     do j <- get journal;
     when j (wrap "failed to log file write"
               (Journal_Log (JournalEntry.mk "write" path data (now env)
                               {["mode" := fmt_d mode]}))) >>
     host_call "open" full (λ h, os.WriteFile h full data) >>
     executeHooks HookTypePost (HookContext.mk OpWriteFile path "" data mode "" ""))
    (λ _ s', ∃ full0, fullPath (rootPath s) path = Ok full0
               ∧ rootPath (rw_Unlock full s') = rootPath s
               ∧ hooks (rw_Unlock full s') = hooks s
               ∧ os.Stat (host (rw_Unlock full s')) full0 = Some (File data)
               ∧ writer (mutex (rw_Unlock full s') full0) = false)
    (λ _ _, True) always s1) as Hrest.
  { apply post_bind, post_get. apply post_bind, post_get.
    apply post_bind, post_when.
    { intros _. apply post_wrap.
      eapply post_mono; [apply (createVersion_never_done env path full)|done..].
      - done.
      - unfold s1. by rewrite mutex_acquire. }
    intros _. apply post_bind, post_get.
    assert (∀ s2, rootPath s2 = rootPath s → hooks s2 = hooks s →
                  post (host_call "open" full (λ h, os.WriteFile h full data) >>
                        executeHooks HookTypePost
                          (HookContext.mk OpWriteFile path "" data mode "" ""))
                    (λ _ s', ∃ full0, fullPath (rootPath s) path = Ok full0
                       ∧ rootPath (rw_Unlock full s') = rootPath s
                       ∧ hooks (rw_Unlock full s') = hooks s
                       ∧ os.Stat (host (rw_Unlock full s')) full0 = Some (File data)
                       ∧ writer (mutex (rw_Unlock full s') full0) = false)
                    (λ _ _, True) always s2) as Hwrite.
    { intros s2 Hroot Hhooks. apply post_bind, post_host_call.
      destruct (os.WriteFile (host s2) full data) as [h2|] eqn:Hw; [|done].
      apply WriteFile_Some in Hw as [-> Hne].
      apply post_executeHooks.
      assert (∃ full0, fullPath (rootPath s) path = Ok full0
         ∧ rootPath (rw_Unlock full (set_host (<[full:=File data]> (host s2)) s2))
           = rootPath s
         ∧ hooks (rw_Unlock full (set_host (<[full:=File data]> (host s2)) s2)) = hooks s
         ∧ os.Stat (host (rw_Unlock full (set_host (<[full:=File data]> (host s2)) s2)))
             full0 = Some (File data)
         ∧ writer (mutex (rw_Unlock full (set_host (<[full:=File data]> (host s2)) s2))
                     full0) = false) as Hfinal.
      { exists full. split_and!; try done.
        - cbn. apply Stat_lookup; [|done]. by rewrite lookup_insert_eq.
        - by rewrite mutex_rw_Unlock. }
      destruct (hooks _ !! _) as [hs|]; [|exact Hfinal].
      by destruct (run_hooks hs _). }
    apply post_bind, post_when.
    - intros _. apply post_wrap, post_Journal_Log_jrnl; [|done..].
      intros j. by apply Hwrite.
    - intros _. by apply Hwrite. }
  rewrite Hres in Hrest.
  destruct (hooks _ !! _) as [hs|]; [|exact Hrest].
  destruct (run_hooks hs _); [done|exact Hrest].
Qed.

(** C8.  Write-read round trip: when [WriteFile path data] returns normally
    and the hooks registered for reading let the read pass, the next
    [ReadFile path] returns exactly [data]. *)
Theorem WriteFile_ReadFile_roundtrip env path data s s' :
  WriteFile HashString env path data s = Done tt s' →
  hooks_pass s HookTypePre (hook_ctx OpReadFile path) →
  hooks_pass s HookTypePost (hook_ctx OpReadFile path) →
  ∃ s'', ReadFile path s' = Done data s''.
Proof.
  intros Hwrite Hpre Hpost.
  pose proof (WriteFileWithMode_done env path data 420 s) as Hdone.
  unfold post in Hdone. unfold WriteFile in Hwrite. rewrite Hwrite in Hdone.
  destruct Hdone as (full & Hres & Hroot & Hhooks & Hst & Hw).
  assert (post (ReadFile path) (λ d _, d = data) never (λ _, False) s') as Hread.
  { unfold ReadFile. apply post_bind, post_resolve. rewrite Hroot, Hres.
    apply post_rlocked; [congruence|]. intros _.
    apply post_bind, post_executeHooks_pass.
    { unfold hooks_pass. cbn. by rewrite Hhooks. }
    apply post_bind. unfold post at 1, os.ReadFile. cbn. rewrite Hst.
    apply post_bind, post_executeHooks_pass.
    { unfold hooks_pass. cbn. by rewrite Hhooks. }
    by apply post_ret. }
  unfold post in Hread. destruct (ReadFile path s') as [d s''| |]; [|done..].
  subst d. by exists s''.
Qed.

End WriteRead.

(** * Parent directories *)

Lemma Stat_insert_other h name nd p :
  h !! name = None → os.Stat h p = Some Dir → os.Stat (<[name := nd]> h) p = Some Dir.
Proof.
  unfold os.Stat. case_decide; [done|]. intros Hnone Hp.
  rewrite lookup_insert_ne; [done|]. intros ->. congruence.
Qed.

Lemma wf_host_insert h name nd :
  wf_host h → h !! name = None → os.Stat h (filepath.Dir name) = Some Dir →
  wf_host (<[name := nd]> h).
Proof.
  intros Hwf Hnone Hdir p nd'. destruct (decide (name = p)) as [<-|Hne].
  - intros _. by apply Stat_insert_other.
  - rewrite lookup_insert_ne by done. intros Hp. apply Stat_insert_other; [done|].
    by eapply Hwf.
Qed.

Lemma MkdirAll_elems_wf h relems h1 :
  wf_host h → os.MkdirAll_elems h relems = Some h1 →
  wf_host h1 ∧ os.Stat h1 (filepath.join (rev relems)) = Some Dir.
Proof.
  intros Hwf. revert h1. induction relems as [|c parent IH]; intros h1;
    cbn [os.MkdirAll_elems].
  - destruct (os.Stat h _) as [[|]|] eqn:Hst; [|done..]. by intros [= <-].
  - destruct (os.Stat h _) as [[|]|] eqn:Hst; [|done|].
    { by intros [= <-]. }
    assert (∀ h0, wf_host h0 → os.Mkdir h0 (filepath.join (rev (c :: parent))) = Some h1 →
                  wf_host h1 ∧ os.Stat h1 (filepath.join (rev (c :: parent))) = Some Dir)
      as Hmk.
    { intros h0 Hwf0 (-> & Hnone & Hne & Hdir)%Mkdir_Some. split.
      - by apply wf_host_insert.
      - apply Stat_lookup; [|done]. by rewrite lookup_insert_eq. }
    destruct (decide _); [by apply Hmk|].
    destruct (os.MkdirAll_elems h parent) as [h0|] eqn:Hrec; [|done].
    destruct (IH h0 eq_refl) as [Hwf0 _]. by apply Hmk.
Qed.

Lemma wf_host_parents h full :
  wf_host h → os.Stat h (filepath.Dir full) = Some Dir →
  ∀ d, parent_of full d → os.Stat h d = Some Dir.
Proof.
  intros Hwf Hdir d [n ->]. induction n as [|n IH]; [done|].
  change (Nat.iter (S (S n)) filepath.Dir full)
    with (filepath.Dir (Nat.iter (S n) filepath.Dir full)).
  revert IH. generalize (Nat.iter (S n) filepath.Dir full). intros x Hx.
  unfold os.Stat in Hx. case_decide as Hroot; [by subst x|]. by eapply Hwf.
Qed.

Lemma iter_Dir_rooted_path cs c n :
  Forall real cs → real c →
  Nat.iter (S n) filepath.Dir (rooted_path (cs ++ [c]))
  = rooted_path (take (length cs - n) cs).
Proof.
  intros Hcs Hc. induction n as [|n IH].
  - cbn [Nat.iter]. rewrite Dir_rooted_path by done. by rewrite Nat.sub_0_r, firstn_all.
  - change (Nat.iter (S (S n)) filepath.Dir (rooted_path (cs ++ [c])))
      with (filepath.Dir (Nat.iter (S n) filepath.Dir (rooted_path (cs ++ [c])))).
    rewrite IH. destruct (decide (length cs - n = 0)%nat) as [Hz|Hz].
    + rewrite Hz. replace (length cs - S n)%nat with 0%nat by lia. done.
    + replace (length cs - n)%nat with (S (length cs - S n)) by lia.
      destruct (lookup_lt_is_Some_2 cs (length cs - S n)) as [x Hx]; [lia|].
      rewrite (take_S_r _ _ x) by done.
      apply Dir_rooted_path.
      * by apply Forall_take.
      * eapply Forall_lookup_1; [exact Hcs|exact Hx].
Qed.

Lemma join_lead cs : cs ≠ [] → filepath.join ("" :: cs) = rooted_path cs.
Proof. intros Hne. by rewrite join_cons. Qed.

Lemma MkdirAll_elems_only_parents h rcs h1 :
  rcs ≠ [] → os.MkdirAll_elems h (rcs ++ [""]) = Some h1 →
  ∀ p nd, h1 !! p = Some nd →
    h !! p = Some nd
    ∨ (nd = Dir ∧ ∃ k, (k < length rcs)%nat ∧ p = rooted_path (rev (drop k rcs))).
Proof.
  revert h1. induction rcs as [|c rest IH]; intros h1 Hne; [done|].
  assert (filepath.join (rev ((c :: rest) ++ [""])) = rooted_path (rev (c :: rest)))
    as Hpath.
  { rewrite rev_app_distr. cbn [rev app]. rewrite join_lead; [done|].
    intros H. by apply app_eq_nil in H as [_ ?]. }
  cbn [app os.MkdirAll_elems]. cbn [app] in Hpath. rewrite Hpath.
  destruct (os.Stat h _) as [[|]|]; [|done|].
  { intros [= <-]. eauto. }
  assert (∀ h0, (∀ p nd, h0 !! p = Some nd →
                   h !! p = Some nd
                   ∨ (nd = Dir ∧ ∃ k, (k < length rest)%nat
                                    ∧ p = rooted_path (rev (drop k rest)))) →
          os.Mkdir h0 (rooted_path (rev (c :: rest))) = Some h1 →
          ∀ p nd, h1 !! p = Some nd →
            h !! p = Some nd
            ∨ (nd = Dir ∧ ∃ k, (k < length (c :: rest))%nat
                             ∧ p = rooted_path (rev (drop k (c :: rest))))) as Hmk.
  { intros h0 H0 (-> & _)%Mkdir_Some p nd.
    destruct (decide (rooted_path (rev (c :: rest)) = p)) as [<-|Hnp].
    - rewrite lookup_insert_eq. intros [= <-]. right. split; [done|].
      exists 0%nat. split; [cbn; lia|done].
    - rewrite lookup_insert_ne by done. intros Hp.
      destruct (H0 _ _ Hp) as [?|(-> & k & Hk & ->)]; [by left|right].
      split; [done|]. exists (S k). split; [cbn; lia|done]. }
  destruct (decide _) as [Hroot|Hroot].
  - apply Hmk. intros p nd Hp. by left.
  - destruct (os.MkdirAll_elems h (rest ++ [""])) as [h0|] eqn:Hrec; [|done].
    apply Hmk. apply IH; [|done]. intros ->. by apply Hroot.
Qed.

Lemma MkdirAll_rooted_only_parents h cs c h1 :
  Forall real cs → real c →
  os.MkdirAll h (rooted_path cs) = Some h1 →
  ∀ p nd, h1 !! p = Some nd →
    h !! p = Some nd ∨ (nd = Dir ∧ parent_of (rooted_path (cs ++ [c])) p).
Proof.
  intros Hcs Hc Hmk p nd Hp. unfold os.MkdirAll in Hmk.
  rewrite split_rooted_path in Hmk by done.
  destruct (decide (cs = [])) as [->|Hne].
  { cbn in Hmk. injection Hmk as <-. by left. }
  cbn [rev] in Hmk.
  destruct (MkdirAll_elems_only_parents h (rev cs) h1) with (p := p) (nd := nd)
    as [?|(-> & k & Hk & ->)]; try done.
  { intros H. apply Hne. by rewrite <- (rev_involutive cs), H. }
  { by left. }
  right. split; [done|]. rewrite length_rev in Hk.
  exists k. rewrite iter_Dir_rooted_path by done. f_equal.
  by rewrite skipn_rev, rev_involutive.
Qed.

Lemma fullPath_Ok_Join root path full :
  fullPath root path = Ok full → full = filepath.Join [root; filepath.Clean path].
Proof.
  unfold fullPath. destruct (filepath.Rel _ _) as [rel|]; [|done].
  destruct (escapes rel); [done|]. by intros [= <-].
Qed.

Lemma fullPath_rooted_path root path full :
  filepath.IsAbs root = true → filepath.Clean root = root →
  fullPath root path = Ok full →
  ∃ jc, Forall real jc ∧ full = rooted_path jc.
Proof.
  intros Habs Hclean ->%fullPath_Ok_Join.
  destruct (Clean_rooted root Habs) as (rc & Hrc & Hroot & _).
  rewrite Hclean in Hroot. rewrite Hroot.
  destruct (Join_rooted rc (filepath.Clean path) Hrc) as (jc & Hjc & -> & _).
  by exists jc.
Qed.

(** The parent directories that [MkdirAll] makes for a resolved path. *)
Lemma MkdirAll_parents root path full h h1 :
  filepath.IsAbs root = true → filepath.Clean root = root →
  fullPath root path = Ok full →
  wf_host h →
  os.MkdirAll h (filepath.Dir full) = Some h1 →
  wf_host h1
  ∧ (∀ d, parent_of full d → os.Stat h1 d = Some Dir)
  ∧ h ⊆ h1
  ∧ (∀ p nd, h1 !! p = Some nd →
       h !! p = Some nd ∨ (nd = Dir ∧ h !! p = None ∧ parent_of full p)).
Proof.
  intros Habs Hclean Hres Hwf Hmk.
  destruct (MkdirAll_elems_wf h _ h1 Hwf Hmk) as [Hwf1 Hst].
  rewrite rev_involutive, join_split in Hst.
  destruct (MkdirAll_grows _ _ _ Hmk) as [Hsub Hnew].
  split_and!; [done|by apply wf_host_parents|done|].
  intros p nd Hp.
  destruct (Hnew _ _ Hp) as [?|[-> Hnone]]; [by left|].
  destruct (fullPath_rooted_path _ _ _ Habs Hclean Hres) as (jc & Hjc & ->).
  destruct jc as [|c cs _] using rev_ind.
  { change (filepath.Dir (rooted_path [])) with "/" in Hmk.
    cbn in Hmk. injection Hmk as <-. by left. }
  apply Forall_app in Hjc as [Hcs [Hc _]%Forall_cons].
  rewrite Dir_rooted_path in Hmk by done.
  destruct (MkdirAll_rooted_only_parents h cs c h1 Hcs Hc Hmk p Dir Hp) as [?|[_ ?]];
    [by left|by right].
Qed.

Section Veto.
Variable HashString : string → string.

Lemma mutex_released key s k : free (mutex s key) → mutex (released key s) k = mutex s k.
Proof.
  intros [Hw Hr]. unfold released. destruct (decide (key = k)) as [<-|Hne].
  - rewrite mutex_rw_Unlock, mutex_acquire. destruct (mutex s key). cbn in *. congruence.
  - by rewrite mutex_rw_Unlock_ne, mutex_acquire_ne.
Qed.

Lemma post_exact {A} (m : M A) (r : outcome A) s :
  post m (λ a s', r = Done a s') (λ e s', r = Fail e s') (λ s', r = Blocked s') s →
  m s = r.
Proof. unfold post. by destruct (m s). Qed.

Lemma run_hooks_app before hook after ctx :
  is_Some (hook ctx) → is_Some (run_hooks (before ++ hook :: after) ctx).
Proof.
  intros [e He]. induction before as [|g before IH]; cbn.
  - by rewrite He.
  - destruct (g ctx); [done|]. exact IH.
Qed.

Lemma run_hooks_first before hook after ctx e :
  Forall (λ g, g ctx = None) before → hook ctx = Some e →
  run_hooks (before ++ hook :: after) ctx = Some e.
Proof.
  intros Hall He. induction Hall as [|g before Hg _ IH]; cbn.
  - by rewrite He.
  - by rewrite Hg.
Qed.

(** A write that a pre-hook rejects. *)
Lemma WriteFileWithMode_vetoed env path data mode s full h1 hs e :
  fullPath (rootPath s) path = Ok full →
  os.MkdirAll (host s) (filepath.Dir full) = Some h1 →
  free (mutex s full) →
  hooks s !! (OpWriteFile, HookTypePre) = Some hs →
  run_hooks hs (HookContext.mk OpWriteFile path "" data mode "" "") = Some e →
  WriteFileWithMode HashString env path data mode s
  = Fail e (released full (set_host h1 s)).
Proof.
  intros Hres Hmk Hfree Hhs Hrun. apply post_exact.
  unfold WriteFileWithMode. apply post_bind, post_resolve. rewrite Hres.
  apply post_bind, post_wrap, post_host_call. rewrite Hmk.
  apply post_locked; [done|]. intros _. unfold write_locked.
  apply post_bind, post_executeHooks.
  change (hooks (acquire full (set_host h1 s))) with (hooks s).
  cbn [HookContext.Operation]. by rewrite Hhs, Hrun.
Qed.

(** A write that the journal refuses because its handle is closed. *)
Lemma WriteFileWithMode_journal_closed env path data mode s full h1 :
  fullPath (rootPath s) path = Ok full →
  os.MkdirAll (host s) (filepath.Dir full) = Some h1 →
  free (mutex s full) →
  hooks_pass s HookTypePre (HookContext.mk OpWriteFile path "" data mode "" "") →
  versioning s && FileExists path (set_host h1 s) = false →
  journal s = true → Journal.mu (jrnl s) = false → Journal.file (jrnl s) = false →
  WriteFileWithMode HashString env path data mode s
  = Fail (Wrapped "failed to log file write"
            (Wrapped "failed to write to journal" (ErrHost "write" (Journal.path (jrnl s)))))
         (released full (set_host h1 s)).
Proof.
  intros Hres Hmk Hfree Hpre Hver Hj Hmu Hfile. apply post_exact.
  unfold WriteFileWithMode. apply post_bind, post_resolve. rewrite Hres.
  apply post_bind, post_wrap, post_host_call. rewrite Hmk.
  apply post_locked; [done|]. intros _. unfold write_locked.
  apply post_bind, post_executeHooks_pass; [done|].
  apply post_bind, post_get. apply post_bind, post_get.
  assert (versioning (acquire full (set_host h1 s))
          && FileExists path (acquire full (set_host h1 s)) = false) as -> by exact Hver.
  apply post_bind, post_when; [done|]. intros _.
  apply post_bind, post_get. cbn [journal acquire set_locks set_host]. rewrite Hj.
  apply post_bind, post_when; [|done]. intros _. apply post_wrap.
  unfold post, Journal_Log, bind, j_Lock, defer. cbn. rewrite Hmu. cbn. rewrite Hfile.
  unfold released, rw_Unlock, acquire, j_Unlock, set_jrnl, set_locks, set_host. cbn.
  do 2 f_equal. destruct s as [? ? [? ? ? ?] ? ? ? ? ? ? ? ?]. cbn in *. by subst.
Qed.


(** C3, amended.  Hook veto, for hooks that decide on the context alone.
    Let a pre-hook registered for the write operation return the error [e]
    on the context of a write to [path], and let the mutex of the path be
    free.  Then [WriteFileWithMode] fails, the journal is as before (no
    entry is appended), every file holds what it held, no file appears or
    disappears, and the version store and the attributes are as before.
    For a path that resolves inside the root the error is the error of the
    directory creation when the parent directories cannot be made, and
    otherwise the error of the first pre-hook that returns one: it is [e]
    when no hook registered before this one returns an error. *)
Theorem WriteFile_hook_veto env path data mode s before hook after e :
  hooks s !! (OpWriteFile, HookTypePre) = Some (before ++ hook :: after)%list →
  hook (HookContext.mk OpWriteFile path "" data mode "" "") = Some e →
  (∀ full, fullPath (rootPath s) path = Ok full → free (mutex s full)) →
  ∃ err s',
    WriteFileWithMode HashString env path data mode s = Fail err s'
    ∧ jrnl s' = jrnl s
    ∧ (∀ p d, host s' !! p = Some (File d) ↔ host s !! p = Some (File d))
    ∧ versions s' = versions s ∧ attributes s' = attributes s
    ∧ (∀ full, fullPath (rootPath s) path = Ok full →
         os.MkdirAll (host s) (filepath.Dir full) = None →
         err = Wrapped "failed to create parent directories"
                 (ErrHost "mkdir" (filepath.Dir full)))
    ∧ (∀ full, fullPath (rootPath s) path = Ok full →
         is_Some (os.MkdirAll (host s) (filepath.Dir full)) →
         run_hooks (before ++ hook :: after)
           (HookContext.mk OpWriteFile path "" data mode "" "") = Some err
         ∧ (Forall (λ g, g (HookContext.mk OpWriteFile path "" data mode "" "") = None)
                   before →
            err = e)).
Proof.
  intros Hhs Hhook Hfree.
  destruct (fullPath (rootPath s) path) as [full|e0] eqn:Hres.
  2:{ exists e0, s. split_and!; try done.
      apply post_exact. unfold WriteFileWithMode.
      apply post_bind, post_resolve. by rewrite Hres. }
  destruct (os.MkdirAll (host s) (filepath.Dir full)) as [h1|] eqn:Hmk.
  2:{ exists (Wrapped "failed to create parent directories"
                (ErrHost "mkdir" (filepath.Dir full))), s.
      split_and!; try done.
      - apply post_exact. unfold WriteFileWithMode.
        apply post_bind, post_resolve. rewrite Hres.
        apply post_bind, post_wrap, post_host_call. by rewrite Hmk.
      - by intros ? [= <-] _.
      - intros ? [= <-] [? ?]. congruence. }
  destruct (run_hooks_app before hook after
              (HookContext.mk OpWriteFile path "" data mode "" ""))
    as [e1 Hrun]; [by eexists|].
  exists e1, (released full (set_host h1 s)). split_and!; try done.
  - eapply WriteFileWithMode_vetoed; eauto.
  - intros p d. cbn. by apply MkdirAll_files with (dir := filepath.Dir full).
  - intros ? [= <-] ?. congruence.
  - intros ? _ _. split; [done|]. intros Hbefore.
    rewrite (run_hooks_first _ _ _ _ e) in Hrun by done. congruence.
Qed.

End Veto.

(** * The explicit lock manager *)

(** C6.  Acquisition rules of the explicit lock manager.  With no entry for
    the path the lock is granted as requested.  Over a write lock every
    request fails with the write-locked error and the table is unchanged.
    Over a read lock a read request succeeds and the entry of the path is
    replaced by a record with the new owner, time and timeout, the rest of
    the manager being unchanged, so the earlier reader is no longer
    recorded; a write request fails with the read-locked error and the
    table is unchanged. *)
Theorem AcquireLock_rules (now : Z) (path owner : string) (lockType timeout : Z)
    (lm : ExplicitLockManager) :
  let granted ty :=
    (Ok (LockInfo.mk path ty owner now timeout),
     mkLM (<[path := LockInfo.mk path ty owner now timeout]> (lm_locks lm))
          (lockWaiters lm) (closed lm)) in
  (lm_locks lm !! path = None →
     AcquireLock now path owner lockType timeout lm = granted lockType)
  ∧ (∀ existing, lm_locks lm !! path = Some existing →
       LockInfo.Type_ existing = WriteLock →
       AcquireLock now path owner lockType timeout lm
       = (Err (ErrMsg ("path is write-locked by " ++ LockInfo.Owner existing)), lm))
  ∧ (∀ existing, lm_locks lm !! path = Some existing →
       LockInfo.Type_ existing = ReadLock → lockType = ReadLock →
       AcquireLock now path owner lockType timeout lm = granted ReadLock
       ∧ GetLockInfo path (granted ReadLock).2
         = Some (LockInfo.mk path ReadLock owner now timeout)
       ∧ (∀ other, other ≠ path →
            GetLockInfo other (granted ReadLock).2 = GetLockInfo other lm))
  ∧ (∀ existing, lm_locks lm !! path = Some existing →
       LockInfo.Type_ existing = ReadLock → lockType = WriteLock →
       AcquireLock now path owner lockType timeout lm
       = (Err (ErrMsg ("path is read-locked by " ++ LockInfo.Owner existing)), lm)).
Proof.
  intros granted. unfold AcquireLock. split_and!.
  - by intros ->.
  - intros existing -> Hty. by rewrite decide_True.
  - intros existing -> Hty ->. rewrite Hty.
    rewrite decide_False by done. rewrite decide_True by done.
    split_and!; [done|..].
    + unfold GetLockInfo, granted. cbn. by rewrite lookup_insert_eq.
    + intros other Hne. unfold GetLockInfo, granted. cbn. by rewrite lookup_insert_ne.
  - intros existing -> Hty ->. rewrite Hty.
    rewrite decide_False by done.
    rewrite decide_False by (intros [_ ?]; done).
    by rewrite decide_True.
Qed.

(** ** Release and expiry *)

Lemma CleanupExpiredLocks_sweep now lm :
  CleanupExpiredLocks now lm = sweep now (lm_locks lm) lm.
Proof. done. Qed.

Lemma sweep_spec now table lm :
  let lm' := sweep now table lm in
  (∀ p, swept now table p → lm_locks lm' !! p = None ∧ lockWaiters lm' !! p = None)
  ∧ (∀ p, ¬ swept now table p →
       lm_locks lm' !! p = lm_locks lm !! p ∧ lockWaiters lm' !! p = lockWaiters lm !! p)
  ∧ (∀ w, w ∈ closed lm' ↔
       w ∈ closed lm
       ∨ ∃ p ws, swept now table p ∧ lockWaiters lm !! p = Some ws ∧ w ∈ ws).
Proof.
  unfold sweep.
  apply (map_fold_weak_ind (λ lm' table,
    (∀ p, swept now table p → lm_locks lm' !! p = None ∧ lockWaiters lm' !! p = None)
    ∧ (∀ p, ¬ swept now table p →
         lm_locks lm' !! p = lm_locks lm !! p ∧ lockWaiters lm' !! p = lockWaiters lm !! p)
    ∧ (∀ w, w ∈ closed lm' ↔
         w ∈ closed lm
         ∨ ∃ p ws, swept now table p ∧ lockWaiters lm !! p = Some ws ∧ w ∈ ws))).
  - split_and!.
    + intros p (lock & Hl & _). by rewrite lookup_empty in Hl.
    + done.
    + intros w. split; [by left|]. intros [?|(p & ws & (lock & Hl & _) & _)]; [done|].
      by rewrite lookup_empty in Hl.
  - intros i x m r Hnone (Hin & Hout & Hcl).
    assert (¬ swept now m i) as Hi.
    { intros (lock & Hl & _). congruence. }
    assert (∀ p, p ≠ i → swept now (<[i:=x]> m) p ↔ swept now m p) as Hother.
    { intros p Hp. unfold swept. by rewrite lookup_insert_ne. }
    destruct (expired now x) eqn:Hex.
    + assert (swept now (<[i:=x]> m) i) as Hsi.
      { exists x. by rewrite lookup_insert_eq. }
      destruct (Hout i Hi) as [_ Hwi].
      unfold wake. cbn [lockWaiters lm_locks closed]. rewrite Hwi.
      destruct (lockWaiters lm !! i) as [ws|] eqn:Hws; cbn [lm_locks lockWaiters closed].
      * split_and!.
        -- intros p Hp. destruct (decide (p = i)) as [->|Hne].
           ++ by rewrite !lookup_delete_eq.
           ++ rewrite !lookup_delete_ne by done. apply Hin. by apply Hother.
        -- intros p Hp. assert (p ≠ i) as Hne by (intros ->; done).
           rewrite !lookup_delete_ne by done. apply Hout. by rewrite <- Hother.
        -- intros w. rewrite elem_of_union, elem_of_list_to_set, Hcl. split.
           ++ intros [Hw|[?|(p & ws' & Hp & Hl & Hw)]]; [|by left|].
              ** right. by exists i, ws.
              ** right. exists p, ws'. split_and!; try done.
                 apply Hother; [|done]. intros ->. done.
           ++ intros [?|(p & ws' & Hp & Hl & Hw)]; [by right; left|].
              destruct (decide (p = i)) as [->|Hne].
              ** left. congruence.
              ** right. right. exists p, ws'. split_and!; try done. by apply Hother.
      * split_and!.
        -- intros p Hp. destruct (decide (p = i)) as [->|Hne].
           ++ rewrite lookup_delete_eq. split; [done|]. by rewrite Hwi.
           ++ rewrite lookup_delete_ne by done. apply Hin. by apply Hother.
        -- intros p Hp. assert (p ≠ i) as Hne by (intros ->; done).
           rewrite lookup_delete_ne by done. apply Hout. by rewrite <- Hother.
        -- intros w. rewrite Hcl. split.
           ++ intros [?|(p & ws' & Hp & Hl & Hw)]; [by left|].
              right. exists p, ws'. split_and!; try done.
              apply Hother; [|done]. intros ->. done.
           ++ intros [?|(p & ws' & Hp & Hl & Hw)]; [by left|].
              destruct (decide (p = i)) as [->|Hne]; [congruence|].
              right. exists p, ws'. split_and!; try done. by apply Hother.
    + assert (¬ swept now (<[i:=x]> m) i) as Hsi.
      { intros (lock & Hl & Hex'). rewrite lookup_insert_eq in Hl. congruence. }
      assert (∀ p, swept now (<[i:=x]> m) p ↔ swept now m p) as Hall.
      { intros p. destruct (decide (p = i)) as [->|Hne]; [done|by apply Hother]. }
      split_and!.
      * intros p Hp. apply Hin. by apply Hall.
      * intros p Hp. apply Hout. by rewrite <- Hall.
      * intros w. rewrite Hcl. split.
        -- intros [?|(p & ws' & Hp & Hl & Hw)]; [by left|].
           right. exists p, ws'. split_and!; try done. by apply Hall.
        -- intros [?|(p & ws' & Hp & Hl & Hw)]; [by left|].
           right. exists p, ws'. split_and!; try done. by apply Hall.
Qed.

Lemma expired_iff now lock :
  expired now lock = true
  ↔ 0 < LockInfo.Timeout lock ∧ LockInfo.Timeout lock < now - LockInfo.CreatedAt lock.
Proof. unfold expired. rewrite andb_true_iff, !Z.ltb_lt. done. Qed.

(** C7, amended.  Release and expiry.  [ReleaseLock] fails with the
    not-found error when the path has no entry and with the not-owner error
    when the recorded owner is another one, leaving the manager as it is;
    otherwise it removes the entry, closes the channel of every waiter
    registered for the path and drops their registration, and closes no
    other channel.  [CleanupExpiredLocks] removes exactly the locks whose
    timeout is positive and smaller than their age (a timeout of zero or
    less never expires), closes the channels of the waiters of the removed
    locks and of no others, and leaves every other entry and registration
    as it is. *)
Theorem release_and_expiry_rules (now : Z) (path owner : string)
    (lm : ExplicitLockManager) :
  (lm_locks lm !! path = None →
     ReleaseLock path owner lm = (Some (ErrMsg ("no lock found for path " ++ path)), lm))
  ∧ (∀ lock, lm_locks lm !! path = Some lock → LockInfo.Owner lock ≠ owner →
       ReleaseLock path owner lm
       = (Some (ErrMsg ("lock is owned by " ++ LockInfo.Owner lock ++ ", not " ++ owner)),
          lm))
  ∧ (∀ lock, lm_locks lm !! path = Some lock → LockInfo.Owner lock = owner →
       ∃ lm', ReleaseLock path owner lm = (None, lm')
         ∧ lm_locks lm' = delete path (lm_locks lm)
         ∧ lockWaiters lm' = delete path (lockWaiters lm)
         ∧ (∀ w, w ∈ closed lm' ↔
              w ∈ closed lm ∨ ∃ ws, lockWaiters lm !! path = Some ws ∧ w ∈ ws))
  ∧ (let lm' := CleanupExpiredLocks now lm in
     (∀ p lock, lm_locks lm !! p = Some lock →
        0 < LockInfo.Timeout lock → LockInfo.Timeout lock < now - LockInfo.CreatedAt lock →
        lm_locks lm' !! p = None ∧ lockWaiters lm' !! p = None
        ∧ ∀ ws w, lockWaiters lm !! p = Some ws → w ∈ ws → w ∈ closed lm')
     ∧ (∀ p lock, lm_locks lm !! p = Some lock →
          ¬ (0 < LockInfo.Timeout lock
             ∧ LockInfo.Timeout lock < now - LockInfo.CreatedAt lock) →
          lm_locks lm' !! p = Some lock ∧ lockWaiters lm' !! p = lockWaiters lm !! p)
     ∧ (∀ p, lm_locks lm !! p = None →
          lm_locks lm' !! p = None ∧ lockWaiters lm' !! p = lockWaiters lm !! p)
     ∧ (∀ w, w ∈ closed lm' →
          w ∈ closed lm
          ∨ ∃ p lock ws, lm_locks lm !! p = Some lock
              ∧ 0 < LockInfo.Timeout lock
              ∧ LockInfo.Timeout lock < now - LockInfo.CreatedAt lock
              ∧ lockWaiters lm !! p = Some ws ∧ w ∈ ws)).
Proof.
  split_and!.
  - intros Hnone. unfold ReleaseLock. by rewrite Hnone.
  - intros lock Hl Hne. unfold ReleaseLock. rewrite Hl. by rewrite decide_True.
  - intros lock Hl Heq. unfold ReleaseLock. rewrite Hl.
    rewrite decide_False by (intros H; by apply H).
    eexists. split; [reflexivity|]. unfold wake. cbn [lockWaiters lm_locks closed].
    destruct (lockWaiters lm !! path) as [ws|] eqn:Hws; cbn [lm_locks lockWaiters closed].
    + split_and!; [done..|]. intros w. rewrite elem_of_union, elem_of_list_to_set.
      split; [intros [?|?]; [right; by exists ws|by left]|].
      intros [?|(ws' & [= <-] & ?)]; [by right|by left].
    + split_and!; [done| |].
      * by rewrite delete_id.
      * intros w. split; [by left|]. by intros [?|(ws' & ? & _)].
  - intros lm'. unfold lm'. rewrite CleanupExpiredLocks_sweep.
    destruct (sweep_spec now (lm_locks lm) lm) as (Hin & Hout & Hcl).
    split_and!.
    + intros p lock Hl H1 H2.
      assert (swept now (lm_locks lm) p) as Hs.
      { exists lock. split; [done|]. by apply expired_iff. }
      destruct (Hin p Hs) as [? ?]. split_and!; [done..|].
      intros ws w Hws Hw. apply Hcl. right. by exists p, ws.
    + intros p lock Hl Hno.
      assert (¬ swept now (lm_locks lm) p) as Hs.
      { intros (lock' & Hl' & Hex). apply Hno. apply expired_iff. congruence. }
      destruct (Hout p Hs) as [-> ->]. done.
    + intros p Hl.
      assert (¬ swept now (lm_locks lm) p) as Hs.
      { intros (lock' & Hl' & _). congruence. }
      destruct (Hout p Hs) as [-> ->]. done.
    + intros w [?|(p & ws & (lock & Hl & Hex) & Hws & Hw)]%Hcl; [by left|].
      right. apply expired_iff in Hex as [? ?]. by exists p, lock, ws.
Qed.

Lemma negative_timeout_never_expires :
  let lm := mkLM {["p" := negative_timeout_lock]} ∅ ∅ in
  LockInfo.Timeout negative_timeout_lock ≠ 0
  ∧ LockInfo.Timeout negative_timeout_lock < 10 - LockInfo.CreatedAt negative_timeout_lock
  ∧ lm_locks (CleanupExpiredLocks 10 lm) !! "p" = Some negative_timeout_lock.
Proof. split_and!; [done|done|]. vm_compute. reflexivity. Qed.

(** * The version store *)

Lemma same_but_registry_refl s : same_but_registry s s.
Proof. done. Qed.

Lemma same_but_registry_trans s1 s2 s3 :
  same_but_registry s1 s2 → same_but_registry s2 s3 → same_but_registry s1 s3.
Proof. intros [H1 M1] [H2 M2]. split; [congruence|]. intros k. by rewrite M2, M1. Qed.

Lemma same_but_registry_fields s s' :
  same_but_registry s s' →
  rootPath s' = rootPath s ∧ journal s' = journal s ∧ jrnl s' = jrnl s
  ∧ hooks s' = hooks s ∧ versioning s' = versioning s
  ∧ maxVersions s' = maxVersions s ∧ host s' = host s
  ∧ versions s' = versions s ∧ attributes s' = attributes s.
Proof.
  intros [Heq _]. split_and!.
  - by apply (f_equal rootPath) in Heq.
  - by apply (f_equal journal) in Heq.
  - by apply (f_equal jrnl) in Heq.
  - by apply (f_equal hooks) in Heq.
  - by apply (f_equal versioning) in Heq.
  - by apply (f_equal maxVersions) in Heq.
  - by apply (f_equal host) in Heq.
  - by apply (f_equal versions) in Heq.
  - by apply (f_equal attributes) in Heq.
Qed.

Lemma same_but_registry_read key s :
  writer (mutex s key) = false →
  same_but_registry s (rw_RUnlock key (racquire key s)).
Proof.
  intros Hw. split; [done|]. intros k. destruct (decide (key = k)) as [<-|Hne].
  - unfold mutex at 1, rw_RUnlock. cbn. rewrite lookup_insert_eq.
    rewrite mutex_racquire. cbn. destruct (mutex s key). cbn in *. by subst.
  - by rewrite mutex_rw_RUnlock_ne, mutex_racquire_ne.
Qed.

Lemma hooks_pass_empty s typ ctx : hooks s = ∅ → hooks_pass s typ ctx.
Proof. intros He hs. by rewrite He, lookup_empty. Qed.

Section Versions.
Variable HashString : string → string.

(** Reading a regular file whose mutex no writer holds, without hooks. *)
Lemma ReadFile_post path full data s (Q : string → State → Prop) E B :
  hooks s = ∅ →
  fullPath (rootPath s) path = Ok full →
  os.Stat (host s) full = Some (File data) →
  writer (mutex s full) = false →
  (∀ s', same_but_registry s s' → Q data s') →
  post (ReadFile path) Q E B s.
Proof.
  intros Hh Hres Hst Hw HQ. unfold ReadFile.
  apply post_bind, post_resolve. rewrite Hres.
  apply post_rlocked; [congruence|]. intros _.
  apply post_bind, post_executeHooks_pass; [by apply hooks_pass_empty|].
  apply post_bind. unfold post at 1, os.ReadFile. cbn. rewrite Hst.
  apply post_bind, post_executeHooks_pass; [by apply hooks_pass_empty|].
  apply post_ret, HQ. by apply same_but_registry_read.
Qed.

Lemma ListVersions_post path s (Q : list VersionInfo.t → State → Prop) E B :
  versioning s = true → hooks s = ∅ →
  Q (match version_dir HashString s path with
     | Some records => listing_of records
     | None => []
     end) s →
  post (ListVersions HashString path) Q E B s.
Proof.
  intros Hv Hh HQ. unfold ListVersions.
  apply post_bind, post_get. rewrite Hv. cbn [negb].
  apply post_bind, post_executeHooks_pass; [by apply hooks_pass_empty|].
  apply post_bind, post_get.
  destruct (version_dir HashString s path) as [records|]; [|by apply post_ret].
  apply post_bind, post_executeHooks_pass; [by apply hooks_pass_empty|].
  by apply post_ret.
Qed.

Lemma GetVersion_post path versionID s (Q : string * VersionInfo.t → State → Prop) E B :
  versioning s = true → hooks s = ∅ →
  match default ∅ (version_dir HashString s path) !! versionID with
  | Some (info, data) => Q (data, info) s
  | None => E (ErrMsg "version not found") s
  end →
  post (GetVersion HashString path versionID) Q E B s.
Proof.
  intros Hv Hh HQ. unfold GetVersion.
  apply post_bind, post_get. rewrite Hv. cbn [negb].
  apply post_bind, post_executeHooks_pass; [by apply hooks_pass_empty|].
  apply post_bind, post_get.
  destruct (default ∅ (version_dir HashString s path) !! versionID) as [[info data]|];
    [|done].
  apply post_bind, post_executeHooks_pass; [by apply hooks_pass_empty|].
  by apply post_ret.
Qed.

Lemma version_dir_with_records path records s :
  version_dir HashString (with_records HashString path records s) path = Some records.
Proof. unfold version_dir, with_records. cbn. by rewrite lookup_insert_eq. Qed.

Lemma with_records_twice path r1 r2 s :
  with_records HashString path r2 (with_records HashString path r1 s)
  = with_records HashString path r2 s.
Proof. unfold with_records. cbn. by rewrite insert_insert_eq. Qed.

Lemma DeleteVersions_post path ids records s (Q : unit → State → Prop) E B :
  versioning s = true →
  match delete_records ids records with
  | Some records' => Q tt (with_records HashString path records' s)
  | None => ∀ s', E (ErrMsg "version not found") s'
  end →
  post (DeleteVersions HashString path ids) Q E B (with_records HashString path records s).
Proof.
  intros Hv. revert records. induction ids as [|versionID rest IH]; intros records HQ.
  - by apply post_ret.
  - cbn [DeleteVersions delete_records] in *. apply post_bind.
    unfold DeleteVersion. apply post_bind, post_get.
    change (versioning (with_records HashString path records s)) with (versioning s).
    rewrite Hv. cbn [negb]. apply post_bind, post_get.
    rewrite version_dir_with_records. cbn [default from_option id].
    destruct (records !! versionID) as [x|]; [|by apply HQ].
    apply post_modify. fold (with_records HashString path (delete versionID records)
                                          (with_records HashString path records s)).
    rewrite with_records_twice. by apply IH.
Qed.

Lemma pruneVersions_post path records s (Q : unit → State → Prop) E B :
  versioning s = true → hooks s = ∅ →
  match prune_records (maxVersions s) records with
  | Some records' => Q tt (with_records HashString path records' s)
  | None => ∀ s', E (ErrMsg "version not found") s'
  end →
  post (pruneVersions HashString path) Q E B (with_records HashString path records s).
Proof.
  intros Hv Hh HQ. unfold pruneVersions.
  apply post_bind, ListVersions_post; [done..|].
  rewrite version_dir_with_records. apply post_bind, post_get.
  change (maxVersions (with_records HashString path records s)) with (maxVersions s).
  unfold prune_records in HQ. fold (listing_of records).
  destruct (Z.of_nat (length (listing_of records)) <=? maxVersions s).
  - by apply post_ret.
  - by apply DeleteVersions_post.
Qed.

(** A snapshot of a regular file without attributes, taken while no writer
    holds the mutex of the file and no hook is registered. *)
Lemma createVersion_post env path full data s (Q : unit → State → Prop) E B :
  versioning s = true → hooks s = ∅ →
  fullPath (rootPath s) path = Ok full →
  os.Stat (host s) full = Some (File data) →
  writer (mutex s full) = false →
  attributes s !! HashString path = None →
  match snapshot_records (maxVersions s) env path data
          (default ∅ (version_dir HashString s path)) with
  | Some records' =>
      ∀ s', same_but_registry s s' → Q tt (with_records HashString path records' s')
  | None => ∀ e s', E e s'
  end →
  post (createVersion HashString env path) Q E B s.
Proof.
  intros Hv Hh Hres Hst Hw Hattr HQ. unfold createVersion.
  apply post_bind, post_get. rewrite Hv. cbn [negb].
  apply post_bind, post_executeHooks_pass; [by apply hooks_pass_empty|].
  apply post_bind, post_resolve. rewrite Hres.
  apply post_bind, post_get. rewrite Hst.
  apply post_bind, post_wrap, (ReadFile_post path full data); try done.
  intros s' Hsame.
  destruct (same_but_registry_fields _ _ Hsame)
    as (Hroot & _ & _ & Hh' & Hv' & Hmax & _ & Hvers & Hattr').
  apply post_bind, post_ignore_error. unfold GetAllAttributes.
  apply post_bind, post_get. apply post_bind, post_get.
  rewrite Hattr', Hattr. apply post_ret.
  apply post_bind, post_modify.
  set (records1 := <[uuid env := _]> _).
  fold (with_records HashString path records1 s').
  apply post_bind, post_get.
  change (maxVersions (with_records HashString path records1 s')) with (maxVersions s').
  rewrite Hmax. unfold snapshot_records in HQ.
  assert (default ∅ (version_dir HashString s' path)
          = default ∅ (version_dir HashString s path)) as Hdir.
  { unfold version_dir. by rewrite Hvers. }
  unfold records1. rewrite Hdir. clear records1.
  set (records1 := <[uuid env := _]> _) in *.
  apply post_bind, post_when.
  - intros Hpos. rewrite Hpos in HQ. apply post_wrap.
    apply pruneVersions_post; [by rewrite Hv'|by rewrite Hh'|]. rewrite Hmax.
    destruct (prune_records (maxVersions s) records1) as [records'|].
    + apply post_executeHooks_pass; [apply hooks_pass_empty; cbn; congruence|].
      by apply HQ.
    + intros s''. apply HQ.
  - intros Hpos. rewrite Hpos in HQ.
    apply post_executeHooks_pass; [apply hooks_pass_empty; cbn; congruence|].
    by apply HQ.
Qed.

End Versions.

(** * The steps of a versioned write, outside the lock *)

Section VersionedWrites.
Variable HashString : string → string.

Lemma write_locked_step maxv env path full old data mode records records' s :
  versioned_file HashString maxv path full old records s →
  snapshot_records maxv env path old records = Some records' →
  post (write_locked HashString env path full data mode)
       (λ _ s', versioned_file HashString maxv path full data records' s')
       never (λ _, False) s.
Proof.
  intros (Hv & Hmax & Hh & Hres & Hst & Hw & Hattr & Hrec & Hj & Hfile & Hmu) Hsnap.
  unfold write_locked.
  apply post_bind, post_executeHooks_pass; [by apply hooks_pass_empty|].
  apply post_bind, post_get. apply post_bind, post_get.
  rewrite Hv, (FileExists_true path full (File old)) by done. cbn [andb].
  apply post_bind, post_when; [|done]. intros _. apply post_wrap.
  apply (createVersion_post HashString env path full old); try done.
  rewrite Hmax, Hrec, Hsnap. intros s' Hsame.
  destruct (same_but_registry_fields _ _ Hsame)
    as (Hroot & Hj' & Hjr & Hh' & Hv' & Hmax' & Hhost & Hvers & Hattr').
  destruct Hsame as [_ Hmutex].
  apply post_bind, post_get.
  change (journal (with_records HashString path records' s')) with (journal s').
  rewrite Hj', Hj. apply post_bind, post_when; [|done]. intros _.
  apply post_wrap. unfold post at 1, Journal_Log, bind, j_Lock, defer. cbn.
  rewrite Hjr, Hmu. cbn. rewrite Hfile.
  apply post_bind, post_host_call.
  cbn [host set_jrnl j_Unlock with_records set_versions].
  rewrite Hhost.
  assert (full ≠ "/") as Hne.
  { intros ->. unfold os.Stat in Hst. by rewrite decide_True in Hst. }
  assert (os.WriteFile (host s) full data = Some (<[full := File data]> (host s))) as ->.
  { unfold os.WriteFile. by rewrite Hst. }
  apply post_executeHooks_pass; [apply hooks_pass_empty; cbn; congruence|].
  repeat split; cbn; try congruence.
  - apply Stat_lookup; [|done]. by rewrite lookup_insert_eq.
  - rewrite <- Hw, <- (Hmutex full). done.
  - unfold version_dir. cbn. by rewrite lookup_insert_eq.
Qed.

End VersionedWrites.

(** * The concrete scenario *)

Lemma post_done {A} (m : M A) (Q : A → State → Prop) s :
  post m Q never (λ _, False) s → ∃ a s', m s = Done a s' ∧ Q a s'.
Proof. unfold post. destruct (m s) as [a s'| |]; [eauto|done..]. Qed.

Lemma v1_facade_versioned_file HashString :
  versioned_file HashString 2 "a.txt" "/data/a.txt" "v1" ∅ v1_facade.
Proof.
  repeat split; reflexivity.
Qed.

(** The steps that three versioned writes perform under the lock of the
    path, taken by themselves and run in sequence from root [/data] with
    [a.txt] holding "v1" and [MaxVersions = 2]: the snapshots of "v1", "v2"
    and "v3" are taken, pruning keeps the two newest, those of "v3" and of
    "v2", and the file ends up holding "v4".  The writes themselves do not
    get that far, see [WriteFile_versioned_blocks]. *)
Lemma write_locked_thrice (HashString : string → string) :
  ∃ s',
    (write_locked HashString (mkEnv 1 "id-1") "a.txt" "/data/a.txt" "v2" 420 >>
     write_locked HashString (mkEnv 2 "id-2") "a.txt" "/data/a.txt" "v3" 420 >>
     write_locked HashString (mkEnv 3 "id-3") "a.txt" "/data/a.txt" "v4" 420) v1_facade
    = Done tt s'
    ∧ ListVersions HashString "a.txt" s'
      = Done [VersionInfo.mk "id-3" "a.txt" 3 2 ∅ "";
              VersionInfo.mk "id-2" "a.txt" 2 2 ∅ ""] s'
    ∧ GetVersion HashString "a.txt" "id-3" s'
      = Done ("v3", VersionInfo.mk "id-3" "a.txt" 3 2 ∅ "") s'
    ∧ GetVersion HashString "a.txt" "id-2" s'
      = Done ("v2", VersionInfo.mk "id-2" "a.txt" 2 2 ∅ "") s'
    ∧ GetVersion HashString "a.txt" "id-1" s' = Fail (ErrMsg "version not found") s'
    ∧ ∃ s'', ReadFile "a.txt" s' = Done "v4" s''.
Proof.
  assert (post
    (write_locked HashString (mkEnv 1 "id-1") "a.txt" "/data/a.txt" "v2" 420 >>
     write_locked HashString (mkEnv 2 "id-2") "a.txt" "/data/a.txt" "v3" 420 >>
     write_locked HashString (mkEnv 3 "id-3") "a.txt" "/data/a.txt" "v4" 420)
    (λ _ s', versioned_file HashString 2 "a.txt" "/data/a.txt" "v4"
               {["id-3" := (VersionInfo.mk "id-3" "a.txt" 3 2 ∅ "", "v3");
                 "id-2" := (VersionInfo.mk "id-2" "a.txt" 2 2 ∅ "", "v2")]} s')
    never (λ _, False) v1_facade) as Hrun.
  { apply post_bind.
    eapply post_mono;
      [eapply write_locked_step;
         [apply v1_facade_versioned_file|vm_compute; reflexivity]| |done..].
    intros [] s1 H1. cbv beta. apply post_bind.
    eapply post_mono;
      [eapply write_locked_step; [exact H1|vm_compute; reflexivity]| |done..].
    intros [] s2 H2. cbv beta.
    eapply post_mono;
      [eapply write_locked_step; [exact H2|vm_compute; reflexivity]| |done..].
    intros [] s3 H3. cbv beta.
    assert (({["id-3" := (VersionInfo.mk "id-3" "a.txt" 3 2 ∅ "", "v3");
              "id-2" := (VersionInfo.mk "id-2" "a.txt" 2 2 ∅ "", "v2")]}
             : gmap string (VersionInfo.t * string))
            = _) as -> by (vm_compute; reflexivity).
    exact H3. }
  apply post_done in Hrun as ([] & s' & Hrun & Hfile). exists s'.
  destruct Hfile as (Hv & Hmax & Hh & Hres & Hst & Hw & Hattr & Hrec & Hj & Hfile & Hmu).
  split_and!; [done|..].
  - apply post_exact, ListVersions_post; [done..|].
    unfold version_dir in *. destruct (versions s' !! HashString "a.txt") as [records|].
    + cbn in Hrec. subst records. vm_compute. reflexivity.
    + cbn in Hrec. by apply (f_equal (λ m, m !! "id-3")) in Hrec.
  - apply post_exact, GetVersion_post; [done..|]. by rewrite Hrec.
  - apply post_exact, GetVersion_post; [done..|]. by rewrite Hrec.
  - apply post_exact, GetVersion_post; [done..|]. by rewrite Hrec.
  - assert (post (ReadFile "a.txt") (λ d _, d = "v4") never (λ _, False) s') as Hread.
    { by apply (ReadFile_post "a.txt" "/data/a.txt" "v4"). }
    apply post_done in Hread as (d & s'' & Hread & ->). by exists s''.
Qed.

(** * What a prune cycle retains *)

#[global] Instance not_older_total : Total not_older.
Proof. intros a b. unfold not_older. lia. Qed.

Lemma length_listing_of records : length (listing_of records) = size records.
Proof.
  unfold listing_of. rewrite (Permutation_length (merge_sort_Permutation _ _)).
  by rewrite length_fmap, length_map_to_list.
Qed.

Lemma delete_records_Some ids records records' :
  delete_records ids records = Some records' →
  size records = (length ids + size records')%nat
  ∧ records' ⊆ records
  ∧ ∀ versionID, versionID ∈ ids → records' !! versionID = None.
Proof.
  revert records. induction ids as [|versionID rest IH]; intros records; cbn.
  - intros [= <-]. split_and!; [done..|]. by intros ? ?%elem_of_nil.
  - destruct (records !! versionID) as [x|] eqn:Hx; [|done].
    intros (Hsize & Hsub & Hgone)%IH.
    rewrite map_size_delete_Some in Hsize by done.
    assert (size records ≠ 0%nat) as Hpos.
    { intros ->%map_size_empty_inv. by rewrite lookup_empty in Hx. }
    split_and!.
    + lia.
    + etrans; [exact Hsub|]. apply delete_subseteq.
    + intros k [->|Hk]%elem_of_cons; [|by apply Hgone].
      eapply lookup_weaken_None; [|exact Hsub]. apply lookup_delete_eq.
Qed.

(** The records that [pruneVersions] leaves: at most [maxv], none of them
    new, and none with the ID of a record listed after the first [maxv]. *)
Lemma prune_records_retention maxv records records' :
  0 < maxv →
  prune_records maxv records = Some records' →
  records' ⊆ records
  ∧ Z.of_nat (length (listing_of records')) ≤ maxv
  ∧ Sorted not_older (listing_of records')
  ∧ ∀ info, info ∈ drop (Z.to_nat maxv) (listing_of records) →
      records' !! VersionInfo.VersionID info = None.
Proof.
  intros Hpos. unfold prune_records.
  destruct (Z.of_nat (length (listing_of records)) <=? maxv) eqn:Hle.
  - intros [= <-]. apply Z.leb_le in Hle. split_and!; [done|done|..].
    + apply Sorted_merge_sort, _.
    + intros info Hin. rewrite drop_ge in Hin by lia. by apply elem_of_nil in Hin.
  - apply Z.leb_gt in Hle. intros (Hsize & Hsub & Hgone)%delete_records_Some.
    rewrite length_rev, length_fmap, length_drop, length_listing_of in Hsize.
    rewrite length_listing_of in Hle.
    split_and!; [done| |..].
    + rewrite length_listing_of. lia.
    + apply Sorted_merge_sort, _.
    + intros info Hin. apply Hgone. apply list_elem_of_In. rewrite <- in_rev.
      apply list_elem_of_In. by apply list_elem_of_fmap_2.
Qed.

Section Retention.
Variable HashString : string → string.

(** A prune cycle that completes, on a facade without hooks: [ListVersions]
    then returns at most [MaxVersions] records, newest first, and the
    records that were listed after the first [MaxVersions] can no longer be
    got. *)
Lemma pruneVersions_retention path records s :
  versioning s = true → hooks s = ∅ → 0 < maxVersions s →
  post (pruneVersions HashString path)
    (λ _ s',
       (∃ listing, ListVersions HashString path s' = Done listing s'
                   ∧ Z.of_nat (length listing) ≤ maxVersions s
                   ∧ Sorted not_older listing)
       ∧ ∀ info, info ∈ drop (Z.to_nat (maxVersions s)) (listing_of records) →
           GetVersion HashString path (VersionInfo.VersionID info) s'
           = Fail (ErrMsg "version not found") s')
    (λ _ _, True) (λ _, False) (with_records HashString path records s).
Proof.
  intros Hv Hh Hpos. apply pruneVersions_post; [done..|].
  destruct (prune_records (maxVersions s) records) as [records'|] eqn:Hprune; [|done].
  destruct (prune_records_retention _ _ _ Hpos Hprune) as (_ & Hlen & Hsorted & Hgone).
  split.
  - exists (listing_of records'). split_and!; [|done..].
    apply post_exact, ListVersions_post; [done..|].
    by rewrite version_dir_with_records.
  - intros info Hin. apply post_exact, GetVersion_post; [done..|].
    rewrite version_dir_with_records. cbn [default from_option id].
    by rewrite (Hgone info Hin).
Qed.

End Retention.

(** * Recovery *)

Lemma fileState_snoc entries entry :
  fileState (entries ++ [entry])
  = <[JournalEntry.Path entry := entry]> (fileState entries).
Proof. unfold fileState. by rewrite fold_left_app. Qed.

(** Last writer wins: the state map holds, for each path, the last entry of
    the journal that concerns it. *)
Lemma fileState_last entries path :
  fileState entries !! path = last (entries_of path entries).
Proof.
  induction entries as [|entry entries IH] using rev_ind; [done|].
  rewrite fileState_snoc. unfold entries_of in *. rewrite filter_app.
  destruct (decide (JournalEntry.Path entry = path)) as [Heq|Hne].
  - rewrite filter_cons_True, filter_nil by done. rewrite last_snoc.
    subst path. by rewrite lookup_insert_eq.
  - rewrite filter_cons_False, filter_nil, app_nil_r by done.
    by rewrite lookup_insert_ne.
Qed.

Lemma fileState_interleaving entries1 entries2 :
  (∀ path, last (entries_of path entries1) = last (entries_of path entries2)) →
  fileState entries1 = fileState entries2.
Proof. intros Hlast. apply map_eq. intros path. by rewrite !fileState_last. Qed.

Lemma post_top {A} (m : M A) s : post m (λ _ _, True) (λ _ _, True) always s.
Proof. unfold post. by destruct (m s). Qed.

Lemma post_skip_errors {A} (d : A) (m : M A) s :
  post (ignore_error d m) (λ _ _, True) never always s.
Proof. apply post_ignore_error, post_top. Qed.

Section Recovery.
Variable HashString : string → string.

Lemma SetAttributes_no_error env path kvs s :
  post (SetAttributes HashString env path kvs) (λ _ _, True) never always s.
Proof.
  revert s. induction kvs as [|[k v] kvs IH]; intros s; [done|].
  cbn [SetAttributes]. apply post_bind.
  eapply post_mono; [apply post_skip_errors| |done..].
  intros _ s' _. apply IH.
Qed.

(** A replayed entry never makes the recovery fail. *)
Lemma replay_no_error env path entry s :
  post (replay HashString env path entry) (λ _ _, True) never always s.
Proof.
  unfold replay. repeat case_decide; try apply post_skip_errors.
  - destruct (JournalEntry.IsDir entry); apply post_skip_errors.
  - apply SetAttributes_no_error.
  - done.
Qed.

Lemma replay_all_no_error renv state paths s :
  post (replay_all HashString renv state paths) (λ _ _, True) never always s.
Proof.
  revert s. induction paths as [|path rest IH]; intros s; [done|].
  cbn [replay_all]. apply post_bind.
  eapply post_mono; [|intros _ s' _; apply IH|done..].
  destruct (state !! path); [apply replay_no_error|done].
Qed.

(** An entry whose operation is none of the four replayed ones is kept in
    the state map and replayed as nothing. *)
Lemma replay_other env path entry s :
  JournalEntry.Operation entry ≠ "write" → JournalEntry.Operation entry ≠ "mkdir" →
  JournalEntry.Operation entry ≠ "delete" → JournalEntry.Operation entry ≠ "setattr" →
  replay HashString env path entry s = Done tt s.
Proof. intros. unfold replay. by rewrite !decide_False by done. Qed.

(** What [Recover] returns: fatal are the two openings of the journal and
    nothing else. *)
Lemma Journal_Recover_outcome renv s :
  Journal.mu (jrnl s) = false →
  match Journal.log (jrnl s) with
  | None =>
      ∃ s', Journal_Recover HashString renv s
            = Fail (Wrapped "failed to open journal for recovery"
                      (ErrHost "open" (Journal.path (jrnl s)))) s'
  | Some entries =>
      post (Journal_Recover HashString renv)
        (λ _ s', reopen_ok renv = true ∧ Journal.file (jrnl s') = true)
        (λ e _, reopen_ok renv = false
                ∧ e = Wrapped "failed to reopen journal after recovery"
                        (ErrHost "open" (Journal.path (jrnl s))))
        always s
  end.
Proof.
  intros Hmu. destruct (Journal.log (jrnl s)) as [entries|] eqn:Hlog.
  - unfold Journal_Recover. apply post_bind.
    unfold post at 1, j_Lock. rewrite Hmu. apply post_defer.
    apply post_bind, post_modify. apply post_bind, post_get.
    cbn [jrnl set_jrnl Journal.log Journal.path]. rewrite Hlog.
    apply post_bind.
    eapply post_mono; [apply replay_all_no_error| |done..].
    intros _ s' _. cbv beta. destruct (reopen_ok renv); [|done].
    by apply post_modify.
  - eexists. apply post_exact. unfold Journal_Recover. apply post_bind.
    unfold post at 1, j_Lock. rewrite Hmu. apply post_defer.
    apply post_bind, post_modify. apply post_bind, post_get.
    cbn [jrnl set_jrnl Journal.log Journal.path]. rewrite Hlog.
    reflexivity.
Qed.

End Recovery.

(** * Replaying the retained entries *)

(** ** What the replayed primitives do to the host tree *)

Lemma join_rev_lead rest :
  rest ≠ [] → filepath.join (rev (rest ++ [""])) = rooted_path (rev rest).
Proof.
  intros Hne. rewrite rev_app_distr. cbn [rev app]. apply join_lead.
  intros H. apply Hne. by rewrite <- (rev_involutive rest), H.
Qed.

Lemma MkdirAll_elems_succeeds h rcs :
  wf_host h → Forall real rcs → rcs ≠ [] →
  (∀ k c, (k < length rcs)%nat →
     os.Stat h (rooted_path (rev (drop k rcs))) ≠ Some (File c)) →
  is_Some (os.MkdirAll_elems h (rcs ++ [""])).
Proof.
  intros Hwf. induction rcs as [|c rest IH]; intros Hreal Hnil Hfiles; [done|].
  clear Hnil.
  apply Forall_cons in Hreal as [Hc Hrest].
  assert (Forall real (rev rest)) as Hrr by by apply Forall_rev.
  pose proof (join_rev_lead (c :: rest)) as Hpath.
  cbn [app os.MkdirAll_elems]. cbn [app] in Hpath. rewrite Hpath by done.
  destruct (os.Stat h _) as [[|old]|] eqn:Hst; [by eexists| |].
  { by destruct (Hfiles 0%nat old); [cbn; lia|]. }
  assert (filepath.Dir (rooted_path (rev (c :: rest))) = rooted_path (rev rest)) as Hdir.
  { cbn [rev]. by apply Dir_rooted_path. }
  apply Stat_None in Hst as [Hroot Hnone].
  destruct (decide (rest = [])) as [->|Hne].
  - rewrite decide_True by done.
    unfold os.Mkdir. rewrite Hdir. unfold os.Stat at 1. rewrite decide_False by done.
    rewrite Hnone. cbn. by eexists.
  - rewrite join_rev_lead by done. rewrite decide_False by (by unfold rooted_path).
    destruct IH as [h0 Hrec]; [done..| |].
    { intros k old Hk. apply (Hfiles (S k) old). cbn. lia. }
    rewrite Hrec.
    destruct (MkdirAll_elems_wf h _ h0 Hwf Hrec) as [_ Hparent].
    rewrite join_rev_lead in Hparent by done.
    unfold os.Mkdir. rewrite Hdir, Hparent.
    unfold os.Stat. rewrite decide_False by done.
    destruct (h0 !! _) as [nd|] eqn:Hh0; [|by eexists].
    destruct (MkdirAll_elems_only_parents h rest h0 Hne Hrec _ _ Hh0)
      as [?|(-> & k & Hk & Heq)]; [congruence|].
    apply rooted_path_inj in Heq.
    + apply (f_equal length) in Heq. rewrite !length_rev, length_drop in Heq.
      cbn in Heq. lia.
    + apply Forall_rev. by constructor.
    + by apply Forall_rev, Forall_drop.
Qed.

Lemma parent_of_rooted_path cs c d :
  Forall real cs → real c →
  parent_of (rooted_path (cs ++ [c])) d ↔ ∃ n, d = rooted_path (take (length cs - n) cs).
Proof.
  intros Hcs Hc. unfold parent_of.
  split; intros [n ->]; exists n; by rewrite iter_Dir_rooted_path.
Qed.

Lemma not_parent_of_self cs c :
  Forall real cs → real c →
  ¬ parent_of (rooted_path (cs ++ [c])) (rooted_path (cs ++ [c])).
Proof.
  intros Hcs Hc [n Heq]%parent_of_rooted_path; [|done..].
  apply rooted_path_inj in Heq.
  - apply (f_equal length) in Heq. rewrite length_app, length_take in Heq. cbn in Heq. lia.
  - apply Forall_app. split; [done|]. by constructor.
  - by apply Forall_take.
Qed.

(** The directories that [MkdirAll] makes for a rooted path are the path
    and parent directories of it. *)
Lemma MkdirAll_rooted h cs h1 :
  Forall real cs → wf_host h →
  os.MkdirAll h (rooted_path cs) = Some h1 →
  wf_host h1
  ∧ os.Stat h1 (rooted_path cs) = Some Dir
  ∧ h ⊆ h1
  ∧ ∀ p nd, h1 !! p = Some nd →
      h !! p = Some nd
      ∨ (nd = Dir ∧ h !! p = None
         ∧ (p = rooted_path cs ∨ parent_of (rooted_path cs) p)).
Proof.
  intros Hcs Hwf Hmk.
  destruct (MkdirAll_elems_wf h _ h1 Hwf Hmk) as [Hwf1 Hst].
  rewrite rev_involutive, join_split in Hst.
  destruct (MkdirAll_grows _ _ _ Hmk) as [Hsub Hnew].
  split_and!; [done..|]. intros p nd Hp.
  destruct (Hnew _ _ Hp) as [?|[-> Hnone]]; [by left|]. right. split_and!; [done..|].
  assert (real "x") as Hx by by repeat split.
  destruct (MkdirAll_rooted_only_parents h cs "x" h1 Hcs Hx Hmk p Dir Hp)
    as [?|[_ Hpar]]; [congruence|].
  apply parent_of_rooted_path in Hpar as [n ->]; [|done..].
  destruct (decide (length cs - n = length cs)%nat) as [->|Hlt].
  { left. by rewrite firstn_all. }
  right. destruct cs as [|c cs' _] using rev_ind; [cbn in Hlt; lia|].
  apply Forall_app in Hcs as [Hcs' [Hc _]%Forall_cons].
  apply parent_of_rooted_path; [done..|].
  rewrite length_app in *. cbn [length] in *.
  exists (n - 1)%nat. f_equal. rewrite take_app_le by lia. f_equal. lia.
Qed.

Lemma Stat_insert_keep h f nd x :
  os.Stat h x = Some Dir → os.Stat h f ≠ Some Dir →
  os.Stat (<[f := nd]> h) x = Some Dir.
Proof.
  intros Hx Hf. assert (f ≠ x) as Hne by (intros ->; congruence).
  unfold os.Stat in *. destruct (decide (x = "/")); [done|].
  by rewrite lookup_insert_ne.
Qed.

Lemma Stat_subseteq h h1 x nd :
  h ⊆ h1 → os.Stat h x = Some nd → os.Stat h1 x = Some nd.
Proof.
  intros Hsub. unfold os.Stat. case_decide; [done|]. intros Hl.
  by eapply lookup_weaken.
Qed.

(** A tree that has grown by missing directories on the way to [f]. *)
Lemma changes_at_grown f h h1 :
  h ⊆ h1 →
  (∀ p nd, h1 !! p = Some nd →
     h !! p = Some nd ∨ (nd = Dir ∧ h !! p = None ∧ (p = f ∨ parent_of f p))) →
  changes_at f h h1.
Proof.
  intros Hsub Hnew x Hx. unfold os.Stat. case_decide as Hroot; [by left|].
  destruct (h1 !! x) as [nd|] eqn:H1.
  - destruct (Hnew _ _ H1) as [->|(-> & -> & [?|?])]; [by left|done|by right].
  - left. destruct (h !! x) eqn:H0; [|done].
    eapply lookup_weaken in H0; [|exact Hsub]. congruence.
Qed.

Lemma changes_at_refl f h : changes_at f h h.
Proof. intros x _. by left. Qed.

Lemma changes_at_trans f h1 h2 h3 :
  changes_at f h1 h2 → changes_at f h2 h3 → changes_at f h1 h3.
Proof.
  intros H12 H23 x Hx.
  destruct (H12 x Hx) as [E12|(N1 & D2 & Hp)], (H23 x Hx) as [E23|(N2 & D3 & Hp')].
  - left. congruence.
  - right. split_and!; [congruence|done..].
  - right. split_and!; [done|congruence|done].
  - congruence.
Qed.

Lemma changes_at_insert f nd h : changes_at f h (<[f := nd]> h).
Proof.
  intros x Hx. left. unfold os.Stat. case_decide; [done|]. by rewrite lookup_insert_ne.
Qed.

Lemma changes_at_delete f h : changes_at f h (delete f h).
Proof.
  intros x Hx. left. unfold os.Stat. case_decide; [done|]. by rewrite lookup_delete_ne.
Qed.

Lemma wf_host_delete f c h :
  wf_host h → h !! f = Some (File c) → wf_host (delete f h).
Proof.
  intros Hwf Hf p nd [Hne Hp]%lookup_delete_Some.
  pose proof (Hwf p nd Hp) as Hdir. unfold os.Stat in *.
  case_decide; [done|]. rewrite lookup_delete_ne; [done|]. intros ->. congruence.
Qed.

Section Targets.
Variables (root : string).
Hypothesis Habs : filepath.IsAbs root = true.
Hypothesis Hclean : filepath.Clean root = root.

(** A resolved path that is not the root of the host tree. *)
Lemma fullPath_snoc path f h :
  fullPath root path = Ok f → os.Stat h f ≠ Some Dir →
  ∃ cs c, Forall real cs ∧ real c ∧ f = rooted_path (cs ++ [c]).
Proof.
  intros Hres Hnd.
  destruct (fullPath_rooted_path _ _ _ Habs Hclean Hres) as (jc & Hjc & ->).
  destruct jc as [|c cs _] using rev_ind; [done|].
  apply Forall_app in Hjc as [Hcs [Hc _]%Forall_cons]. by exists cs, c.
Qed.

Lemma MkdirAll_succeeds path f h :
  fullPath root path = Ok f → wf_host h → target_clear h f →
  is_Some (os.MkdirAll h (filepath.Dir f)).
Proof.
  intros Hres Hwf [Hnd Hfiles].
  destruct (fullPath_snoc _ _ _ Hres Hnd) as (cs & c & Hcs & Hc & ->).
  rewrite Dir_rooted_path by done. unfold os.MkdirAll.
  rewrite split_rooted_path by done.
  destruct (decide (cs = [])) as [->|Hne]; [by eexists|].
  cbn [rev]. apply MkdirAll_elems_succeeds; [done|by apply Forall_rev| |].
  { intros H. apply Hne. by rewrite <- (rev_involutive cs), H. }
  intros k old Hk. apply Hfiles. apply parent_of_rooted_path; [done..|].
  exists k. by rewrite skipn_rev, rev_involutive.
Qed.

Lemma MkdirAll_target_succeeds path f h :
  fullPath root path = Ok f → wf_host h → dir_clear h f →
  is_Some (os.MkdirAll h f).
Proof.
  intros Hres Hwf [Hnf Hfiles].
  destruct (fullPath_rooted_path _ _ _ Habs Hclean Hres) as (cs & Hcs & ->).
  unfold os.MkdirAll. rewrite split_rooted_path by done.
  destruct (decide (cs = [])) as [->|Hne]; [by eexists|].
  cbn [rev]. apply MkdirAll_elems_succeeds; [done|by apply Forall_rev| |].
  { intros H. apply Hne. by rewrite <- (rev_involutive cs), H. }
  intros k old Hk. rewrite skipn_rev, rev_involutive.
  destruct k as [|k].
  { rewrite Nat.sub_0_r, firstn_all. apply Hnf. }
  destruct cs as [|c cs' _] using rev_ind; [done|].
  apply Forall_app in Hcs as [Hcs' [Hc _]%Forall_cons].
  apply Hfiles. apply parent_of_rooted_path; [done..|].
  rewrite length_app. cbn [length]. exists k.
  rewrite take_app_le by lia. f_equal. f_equal. lia.
Qed.

(** What writing the file [f] makes of the host tree. *)
Lemma write_step path f h h1 data :
  fullPath root path = Ok f → wf_host h → target_clear h f →
  os.MkdirAll h (filepath.Dir f) = Some h1 →
  let h2 := <[f := File data]> h1 in
  os.WriteFile h1 f data = Some h2
  ∧ wf_host h2
  ∧ os.Stat h2 f = Some (File data)
  ∧ target_clear h2 f
  ∧ changes_at f h h2.
Proof.
  intros Hres Hwf [Hnd Hfiles] Hmk h2.
  destruct (MkdirAll_parents _ _ _ _ _ Habs Hclean Hres Hwf Hmk)
    as (Hwf1 & Hparents & Hsub & Hnew).
  destruct (fullPath_snoc _ _ _ Hres Hnd) as (cs & c & Hcs & Hc & Hf).
  assert (f ≠ "/") as Hroot.
  { intros ->. by apply Hnd. }
  assert (¬ parent_of f f) as Hself.
  { rewrite Hf. by apply not_parent_of_self. }
  assert (os.Stat h1 f ≠ Some Dir) as Hnd1.
  { unfold os.Stat. rewrite decide_False by done. intros Hl.
    destruct (Hnew _ _ Hl) as [Hh|(_ & _ & ?)]; [|done].
    apply Hnd. by apply Stat_lookup. }
  assert (os.Stat h1 (filepath.Dir f) = Some Dir) as Hdir.
  { apply Hparents. by exists 0%nat. }
  assert (os.Stat h2 f = Some (File data)) as Hst2.
  { apply Stat_lookup; [|done]. apply lookup_insert_eq. }
  split_and!.
  - unfold os.WriteFile. destruct (os.Stat h1 f) as [[|old]|]; [done..|]. by rewrite Hdir.
  - intros p nd Hp. apply Stat_insert_keep; [|done].
    destruct (decide (f = p)) as [<-|Hne]; [done|].
    unfold h2 in Hp. rewrite lookup_insert_ne in Hp by done. by eapply Hwf1.
  - done.
  - split; [by rewrite Hst2|]. intros d old Hd.
    unfold h2. rewrite Stat_insert_keep; [done| |done]. by apply Hparents.
  - eapply changes_at_trans; [|apply changes_at_insert].
    apply changes_at_grown; [done|]. intros p nd Hp.
    destruct (Hnew _ _ Hp) as [?|(?&?&?)]; [by left|right; eauto].
Qed.

(** What making the directory [f] makes of the host tree. *)
Lemma mkdir_step path f h h1 :
  fullPath root path = Ok f → wf_host h → dir_clear h f →
  os.MkdirAll h f = Some h1 →
  wf_host h1
  ∧ os.Stat h1 f = Some Dir
  ∧ dir_clear h1 f
  ∧ changes_at f h h1.
Proof.
  intros Hres Hwf [Hnf Hfiles] Hmk.
  destruct (fullPath_rooted_path _ _ _ Habs Hclean Hres) as (cs & Hcs & ->).
  destruct (MkdirAll_rooted h cs h1 Hcs Hwf Hmk) as (Hwf1 & Hst & Hsub & Hnew).
  split_and!; [done..| |by apply changes_at_grown].
  split; [intros c; by rewrite Hst|]. intros d c Hd Hfile.
  apply (Hfiles d c Hd). unfold os.Stat in *. case_decide; [done|].
  destruct (Hnew _ _ Hfile) as [?|(?&_)]; done.
Qed.

(** A parent directory of a resolved path is a textual prefix of it. *)
Lemma parent_of_prefix path f d :
  fullPath root path = Ok f → parent_of f d → String.prefix d f = true.
Proof.
  intros Hres Hpar.
  destruct (fullPath_rooted_path _ _ _ Habs Hclean Hres) as (jc & Hjc & ->).
  destruct jc as [|c cs _] using rev_ind.
  - destruct Hpar as [n ->]. assert (∀ k, Nat.iter k filepath.Dir "/" = "/") as Hfix.
    { induction k as [|k IH]; [done|].
      change (Nat.iter (S k) filepath.Dir "/")
        with (filepath.Dir (Nat.iter k filepath.Dir "/")). by rewrite IH. }
    change (rooted_path []) with "/". by rewrite (Hfix (S n)).
  - apply Forall_app in Hjc as [Hcs [Hc _]%Forall_cons].
    apply parent_of_rooted_path in Hpar as [n ->]; [|done..].
    replace (cs ++ [c])%list
      with (take (length cs - n) cs ++ (drop (length cs - n) cs ++ [c]))%list
      by (by rewrite app_assoc, take_drop).
    apply prefix_rooted_path.
Qed.

(** A regular file at a resolved path lies in another directory. *)
Lemma file_not_its_parent path f h c :
  fullPath root path = Ok f → os.Stat h f = Some (File c) → filepath.Dir f ≠ f.
Proof.
  intros Hres Hst.
  destruct (fullPath_snoc path f h Hres) as (cs & c' & Hcs & Hc & ->); [congruence|].
  rewrite Dir_rooted_path by done. intros Heq.
  apply (not_parent_of_self cs c' Hcs Hc). exists 0%nat. cbn [Nat.iter].
  by rewrite Dir_rooted_path.
Qed.

End Targets.

(** ** The replayed primitives on a quiet facade *)

Lemma free_unlocked m : free m → m = mkRW false 0.
Proof. destruct m as [w r]. unfold free. cbn. by intros [-> ->]. Qed.

(** Giving back the one lock that is held leaves a quiet facade. *)
Lemma quiet_unlocked key s0 s :
  journal s0 = journal s → versioning s0 = versioning s → hooks s0 = hooks s →
  (∀ k, mutex s0 k = mutex (acquire key s) k) →
  quiet s → quiet (rw_Unlock key s0).
Proof.
  intros Hj Hv Hh Hm (Hqj & Hqv & Hqh & Hfree).
  split_and!; [by rewrite <- Hqj, <- Hj|by rewrite <- Hqv, <- Hv|by rewrite <- Hqh, <- Hh|].
  intros k. destruct (decide (key = k)) as [<-|Hne].
  - rewrite mutex_rw_Unlock, Hm, mutex_acquire. by split.
  - rewrite mutex_rw_Unlock_ne, Hm, mutex_acquire_ne by done. apply Hfree.
Qed.

Lemma mutex_unlock_inner dir f s2 s k :
  dir ≠ f → free (mutex s dir) →
  (∀ k, mutex s2 k = mutex (acquire dir (acquire f s)) k) →
  mutex (rw_Unlock dir s2) k = mutex (acquire f s) k.
Proof.
  intros Hne Hfree Hm. destruct (decide (dir = k)) as [<-|Hk].
  - rewrite mutex_rw_Unlock, Hm, mutex_acquire, mutex_acquire_ne by done.
    by rewrite (free_unlocked _ Hfree).
  - rewrite mutex_rw_Unlock_ne, Hm, mutex_acquire_ne by done. done.
Qed.

Section Replay.
Variable HashString : string → string.

(** A write through a quiet facade. *)
Lemma WriteFileWithMode_plain env path data mode s full h1 h2 :
  fullPath (rootPath s) path = Ok full →
  os.MkdirAll (host s) (filepath.Dir full) = Some h1 →
  os.WriteFile h1 full data = Some h2 →
  quiet s →
  WriteFileWithMode HashString env path data mode s
  = Done tt (rw_Unlock full (set_host h2 (acquire full (set_host h1 s)))).
Proof.
  intros Hres Hmk Hwr (Hj & Hv & Hh & Hfree). apply post_exact.
  unfold WriteFileWithMode. apply post_bind, post_resolve. rewrite Hres.
  apply post_bind, post_wrap, post_host_call. rewrite Hmk.
  apply post_locked; [intros Hheld; destruct Hheld; apply Hfree|].
  intros _. unfold write_locked.
  apply post_bind, post_executeHooks_pass; [by apply hooks_pass_empty|].
  apply post_bind, post_get. apply post_bind, post_get.
  cbn [versioning acquire set_locks set_host]. rewrite Hv. cbn [andb].
  apply post_bind, post_when; [done|]. intros _.
  apply post_bind, post_get. cbn [journal acquire set_locks set_host]. rewrite Hj.
  apply post_bind, post_when; [done|]. intros _.
  apply post_bind, post_host_call. cbn [host acquire set_locks set_host]. rewrite Hwr.
  apply post_executeHooks_pass; [by apply hooks_pass_empty|]. done.
Qed.

(** Making a directory through a quiet facade. *)
Lemma CreateDir_plain env path s full h1 :
  fullPath (rootPath s) path = Ok full →
  os.MkdirAll (host s) full = Some h1 →
  quiet s →
  CreateDir env path s
  = Done tt (rw_Unlock (filepath.Dir full)
               (set_host h1 (acquire (filepath.Dir full) s))).
Proof.
  intros Hres Hmk (Hj & Hv & Hh & Hfree). apply post_exact.
  unfold CreateDir. apply post_bind, post_resolve. rewrite Hres.
  apply post_locked; [intros Hheld; destruct Hheld; apply Hfree|]. intros _.
  apply post_bind, post_executeHooks_pass; [by apply hooks_pass_empty|].
  apply post_bind, post_get. cbn [journal acquire set_locks]. rewrite Hj.
  apply post_bind, post_when; [done|]. intros _.
  apply post_bind, post_host_call. cbn [host acquire set_locks]. rewrite Hmk.
  apply post_executeHooks_pass; [by apply hooks_pass_empty|]. done.
Qed.

(** Deleting a regular file through a quiet facade. *)
Lemma DeleteFile_plain env path s full old :
  fullPath (rootPath s) path = Ok full →
  os.Stat (host s) full = Some (File old) →
  filepath.Dir full ≠ full →
  quiet s →
  DeleteFile HashString env path s
  = Done tt (rw_Unlock full
               (rw_Unlock (filepath.Dir full)
                  (set_host (delete full (host s))
                     (acquire (filepath.Dir full) (acquire full s))))).
Proof.
  intros Hres Hst Hne (Hj & Hv & Hh & Hfree). apply post_exact.
  unfold DeleteFile. apply post_bind, post_resolve. rewrite Hres.
  apply post_bind, post_get. rewrite Hst.
  apply post_locked; [intros Hheld; destruct Hheld; apply Hfree|]. intros _.
  apply post_locked.
  { intros Hheld. destruct Hheld. rewrite mutex_acquire_ne by done. apply Hfree. }
  intros _.
  apply post_bind, post_executeHooks_pass; [by apply hooks_pass_empty|].
  apply post_bind, post_get. cbn [versioning acquire set_locks]. rewrite Hv.
  apply post_bind, post_when; [done|]. intros _.
  apply post_bind, post_get. cbn [journal acquire set_locks]. rewrite Hj.
  apply post_bind, post_when; [done|]. intros _.
  apply post_bind, post_host_call. cbn [host acquire set_locks].
  assert (os.Remove (host s) full = Some (delete full (host s))) as ->.
  { unfold os.Remove. unfold os.Stat in Hst. case_decide; [done|]. by rewrite Hst. }
  apply post_executeHooks_pass; [by apply hooks_pass_empty|]. done.
Qed.

(** Setting an attribute of what exists through a quiet facade. *)
Lemma SetAttribute_plain env path key value s full :
  fullPath (rootPath s) path = Ok full →
  is_Some (os.Stat (host s) full) →
  quiet s →
  SetAttribute HashString env path key value s
  = Done tt (rw_Unlock (attrFile HashString (rootPath s) path)
               (set_attributes
                  (<[HashString path :=
                       <[key := value]> (default ∅ (attributes s !! HashString path))]>
                     (attributes s))
                  (acquire (attrFile HashString (rootPath s) path) s))).
Proof.
  intros Hres [nd Hst] (Hj & Hv & Hh & Hfree). apply post_exact.
  unfold SetAttribute. apply post_bind, post_resolve. rewrite Hres.
  apply post_bind, post_get. rewrite Hst. apply post_bind, post_get.
  apply post_locked; [intros Hheld; destruct Hheld; apply Hfree|]. intros _.
  apply post_bind, post_executeHooks_pass; [by apply hooks_pass_empty|].
  apply post_bind, post_get. apply post_bind, post_get.
  cbn [journal acquire set_locks]. rewrite Hj.
  apply post_bind, post_when; [done|]. intros _.
  apply post_bind, post_modify.
  apply post_executeHooks_pass; [by apply hooks_pass_empty|]. done.
Qed.

End Replay.

(** ** One step of the replay loop *)

Lemma parents_stay_clear f g h h' :
  changes_at f h h' →
  (parent_of g f → ∀ c, os.Stat h' f = Some (File c) → os.Stat h f = Some (File c)) →
  (∀ d c, parent_of g d → os.Stat h d ≠ Some (File c)) →
  ∀ d c, parent_of g d → os.Stat h' d ≠ Some (File c).
Proof.
  intros Hch Hf Hclear d c Hd Hfile. destruct (decide (d = f)) as [->|Hne].
  - by apply (Hclear f c Hd), Hf.
  - destruct (Hch d Hne) as [Heq|(_ & Hdir & _)]; [|congruence].
    rewrite Heq in Hfile. by apply (Hclear d c Hd).
Qed.

Ltac one_operation f :=
  let full := fresh "full" in
  let Hfull := fresh "Hfull" in
  let Hop := fresh "Hop" in
  intros full Hfull; assert (full = f) as -> by congruence;
  split_and!; intros Hop; try congruence.

Section Steps.
Variable HashString : string → string.
Variables (root : string) (retained : gmap string JournalEntry.t).
Hypothesis Hapart : entries_apart HashString root retained.

(** The entries of the other paths are not disturbed. *)
Lemma replay_inv_step replayed path full entry s s' :
  replay_inv HashString root retained replayed s →
  retained !! path = Some entry →
  fullPath root path = Ok full →
  replays HashString root path full entry s s' →
  replay_inv HashString root retained (path :: replayed) s'.
Proof.
  intros (Hroot & Hq & Hwf & Hrep & Hdone) Hentry Hres
         (Hroot' & Hquiet' & Hwf' & Hch & Hnf & Hrep' & Hdict' & Hattr).
  assert (∀ q eq g, q ≠ path → retained !! q = Some eq → fullPath root q = Ok g →
            g ≠ full
            ∧ (parent_of full g → JournalEntry.Operation eq ≠ "write"
                                  ∧ JournalEntry.Operation eq ≠ "delete")
            ∧ (parent_of g full →
                 ∀ c, os.Stat (host s') full = Some (File c) →
                      os.Stat (host s) full = Some (File c))
            ∧ (JournalEntry.Operation eq = "setattr" →
                 attributes s' !! HashString q = attributes s !! HashString q))
    as Hother.
  { intros q eq g Hne Hlook Hg.
    destruct (Hapart q path eq entry g full Hne Hlook Hentry Hg Hres) as (Hne1 & Hp1 & Hh1).
    destruct (Hapart path q entry eq full g (not_eq_sym Hne) Hentry Hlook Hres Hg)
      as (_ & Hp2 & _).
    split_and!; [done|done| |].
    - intros Hpar. apply Hnf. by apply Hp2.
    - intros Hop. apply Hattr. intros Hop'. by apply Hh1. }
  split_and!; [congruence|done|done| |].
  - intros q eq Hlook. destruct (decide (q = path)) as [->|Hne].
    { by simplify_eq. }
    intros g Hg. destruct (Hother q eq g Hne Hlook Hg) as (Hgf & Hpar & Hfile & _).
    destruct (Hrep q eq Hlook g Hg) as (Rw & Rm & Rd & Rs).
    destruct (Hch g Hgf) as [Heq|(Hnone & Hdir & Hp)].
    + split_and!; intros Hop.
      * destruct (Rw Hop) as [? Hclear]. split; [by rewrite Heq|].
        by eapply parents_stay_clear.
      * destruct (Rm Hop) as [? Hclear]. split; [intros c; by rewrite Heq|].
        by eapply parents_stay_clear.
      * rewrite Heq. by apply Rd.
      * rewrite Heq. by apply Rs.
    + destruct (Hpar Hp) as [Hnw Hnd]. split_and!; intros Hop; try done.
      all: try (rewrite Hdir; by eexists).
      destruct (Rm Hop) as [_ Hclear]. split; [intros c; by rewrite Hdir|].
      by eapply parents_stay_clear.
  - intros q eq [->|Hin]%elem_of_cons Hlook.
    { by simplify_eq. }
    destruct (decide (q = path)) as [->|Hne].
    { by simplify_eq. }
    intros g Hg. destruct (Hother q eq g Hne Hlook Hg) as (Hgf & Hpar & _ & Hattrs).
    destruct (Hdone q eq Hin Hlook g Hg) as (Dw & Dm & Dd & Ds).
    destruct (Hch g Hgf) as [Heq|(Hnone & Hdir & Hp)].
    + split_and!; intros Hop.
      * rewrite Heq. by apply Dw.
      * rewrite Heq. by apply Dm.
      * rewrite Heq. by apply Dd.
      * intros key value Hkv. rewrite Hattrs by done. by apply Ds.
    + destruct (Hpar Hp) as [Hnw Hnd]. split_and!; intros Hop; try done.
      all: try (rewrite (Dm Hop) in Hnone; done).
      intros key value Hkv. rewrite Hattrs by done. by apply Ds.
Qed.

End Steps.

Section Primitives.
Variable HashString : string → string.
Variables (root : string).
Hypothesis Habs : filepath.IsAbs root = true.
Hypothesis Hclean : filepath.Clean root = root.

(** A replay that changes nothing. *)
Lemma replays_nothing path full entry s :
  quiet s → wf_host (host s) →
  replayable root (host s) path entry → dictated HashString root s path entry →
  replays HashString root path full entry s s.
Proof. intros. split_and!; try done. apply changes_at_refl. Qed.

Lemma replay_step_write env path full entry s :
  JournalEntry.Operation entry = "write" →
  rootPath s = root → quiet s → wf_host (host s) →
  replayable root (host s) path entry →
  fullPath root path = Ok full →
  ∃ s', replay HashString env path entry s = Done tt s'
        ∧ replays HashString root path full entry s s'.
Proof.
  intros Hop Hroot Hq Hwf Hrep Hres.
  destruct (Hrep full Hres) as (Hclear & _). specialize (Hclear Hop).
  destruct (MkdirAll_succeeds root Habs Hclean _ _ _ Hres Hwf Hclear) as [h1 Hmk].
  destruct (write_step root Habs Hclean _ _ _ _ (JournalEntry.Data entry)
              Hres Hwf Hclear Hmk) as (Hwr & Hwf2 & Hst2 & Hclear2 & Hch).
  eexists. split.
  - unfold replay. rewrite decide_True by done. unfold ignore_error.
    erewrite WriteFileWithMode_plain; [done| |exact Hmk|exact Hwr|done].
    by rewrite Hroot.
  - split_and!; [done|by apply (quiet_unlocked _ _ s)|done|done|done|..].
    + one_operation full. done.
    + one_operation full. done.
    + done.
Qed.

Lemma replay_step_mkdir env path full entry s :
  JournalEntry.Operation entry = "mkdir" →
  rootPath s = root → quiet s → wf_host (host s) →
  replayable root (host s) path entry →
  fullPath root path = Ok full →
  ∃ s', replay HashString env path entry s = Done tt s'
        ∧ replays HashString root path full entry s s'.
Proof.
  intros Hop Hroot Hq Hwf Hrep Hres.
  destruct (Hrep full Hres) as (_ & Hclear & _). specialize (Hclear Hop).
  destruct (MkdirAll_target_succeeds root Habs Hclean _ _ _ Hres Hwf Hclear) as [h1 Hmk].
  destruct (mkdir_step root Habs Hclean _ _ _ _ Hres Hwf Hclear Hmk)
    as (Hwf1 & Hst1 & Hclear1 & Hch).
  eexists. split.
  - unfold replay. rewrite decide_False by congruence. rewrite decide_True by done.
    unfold ignore_error.
    erewrite CreateDir_plain; [done| |exact Hmk|done]. by rewrite Hroot.
  - split_and!; [done|by apply (quiet_unlocked _ _ s)|done|done|..].
    + intros _ c Hfile. cbn in Hfile. congruence.
    + one_operation full. done.
    + one_operation full. done.
    + done.
Qed.

Lemma replay_step_delete env path full entry s :
  JournalEntry.Operation entry = "delete" →
  rootPath s = root → quiet s → wf_host (host s) →
  replayable root (host s) path entry →
  fullPath root path = Ok full →
  ∃ s', replay HashString env path entry s = Done tt s'
        ∧ replays HashString root path full entry s s'.
Proof.
  intros Hop Hroot Hq Hwf Hrep Hres.
  destruct (Hrep full Hres) as (_ & _ & Hnd & _). specialize (Hnd Hop).
  assert (JournalEntry.IsDir entry = false) as Hfile.
  { unfold JournalEntry.IsDir. rewrite Hop. by rewrite andb_false_r. }
  unfold replay. rewrite !decide_False by congruence. rewrite decide_True by done.
  rewrite Hfile.
  destruct (os.Stat (host s) full) as [[|old]|] eqn:Hst; [done| |].
  - assert (filepath.Dir full ≠ full) as Hne
      by by eapply (file_not_its_parent root Habs Hclean).
    assert (host s !! full = Some (File old)) as Hl.
    { unfold os.Stat in Hst. by case_decide. }
    assert (os.Stat (delete full (host s)) full = None) as Hgone.
    { unfold os.Stat in *. case_decide; [done|]. apply lookup_delete_eq. }
    eexists. split.
    + unfold ignore_error.
      erewrite DeleteFile_plain; [done| |exact Hst|done|done]. by rewrite Hroot.
    + split_and!; [done| |by eapply wf_host_delete|apply changes_at_delete|..].
      * apply (quiet_unlocked _ _ s); [done..| |done]. intros k.
        apply mutex_unlock_inner; [done|apply Hq|done].
      * intros _ c Hc. cbn in Hc. congruence.
      * one_operation full. cbn. congruence.
      * one_operation full. done.
      * done.
  - exists s. split.
    + unfold ignore_error, DeleteFile, bind, resolve, get, lift, fail.
      by rewrite Hroot, Hres, Hst.
    + apply replays_nothing; [done..|]. one_operation full.
Qed.

(** Setting the attributes of an entry, one call for each. *)
Lemma SetAttributes_plain env path full kvs s :
  fullPath (rootPath s) path = Ok full →
  is_Some (os.Stat (host s) full) →
  quiet s → NoDup kvs.*1 →
  ∃ s', SetAttributes HashString env path kvs s = Done tt s'
        ∧ rootPath s' = rootPath s ∧ host s' = host s ∧ quiet s'
        ∧ (∀ x, x ≠ HashString path → attributes s' !! x = attributes s !! x)
        ∧ (∀ key value, (key, value) ∈ kvs →
             ∃ attrs, attributes s' !! HashString path = Some attrs
                      ∧ attrs !! key = Some value)
        ∧ (∀ key value attrs, key ∉ kvs.*1 →
             attributes s !! HashString path = Some attrs → attrs !! key = Some value →
             ∃ attrs', attributes s' !! HashString path = Some attrs'
                       ∧ attrs' !! key = Some value).
Proof.
  revert s. induction kvs as [|[k0 v0] rest IH]; intros s Hres Hst Hq Hnodup.
  { exists s. split_and!; try done.
    - by intros ? ? ?%elem_of_nil.
    - intros key value attrs _ ? ?. by exists attrs. }
  apply NoDup_cons in Hnodup as [Hk0 Hnodup].
  cbn [SetAttributes]. unfold bind at 1, ignore_error.
  rewrite (SetAttribute_plain HashString env path k0 v0 s full) by done.
  set (s1 := rw_Unlock _ _).
  destruct (IH s1) as (s' & Hrun & Hroot' & Hhost' & Hq' & Hother & Hset & Hkeep);
    [done|done|by apply (quiet_unlocked _ _ s)|done|].
  assert (attributes s1 !! HashString path
          = Some (<[k0 := v0]> (default ∅ (attributes s !! HashString path)))) as Hs1.
  { unfold s1. cbn. apply lookup_insert_eq. }
  exists s'. split_and!; [done|done|done|done|..].
  - intros x Hx. rewrite Hother by done. unfold s1. cbn. by rewrite lookup_insert_ne.
  - intros key value [[= -> ->]|Hin]%elem_of_cons; [|by apply Hset].
    apply (Hkeep k0 v0 _ Hk0 Hs1). apply lookup_insert_eq.
  - intros key value attrs [Hne Hnot]%not_elem_of_cons Hattrs Hkv.
    apply (Hkeep key value _ Hnot Hs1). rewrite Hattrs. cbn.
    by rewrite lookup_insert_ne.
Qed.

Lemma replay_step_setattr env path full entry s :
  JournalEntry.Operation entry = "setattr" →
  rootPath s = root → quiet s → wf_host (host s) →
  replayable root (host s) path entry →
  fullPath root path = Ok full →
  ∃ s', replay HashString env path entry s = Done tt s'
        ∧ replays HashString root path full entry s s'.
Proof.
  intros Hop Hroot Hq Hwf Hrep Hres.
  destruct (Hrep full Hres) as (_ & _ & _ & Hexists). specialize (Hexists Hop).
  destruct (SetAttributes_plain env path full
              (map_to_list (JournalEntry.Attributes entry)) s)
    as (s' & Hrun & Hroot' & Hhost' & Hq' & Hother & Hset & _); [by rewrite Hroot|done..| |].
  { apply NoDup_fst_map_to_list. }
  exists s'. split.
  - unfold replay. rewrite !decide_False by congruence. by rewrite decide_True.
  - split_and!; [done|done|by rewrite Hhost'|..].
    + rewrite Hhost'. apply changes_at_refl.
    + intros _ c. by rewrite Hhost'.
    + by rewrite Hhost'.
    + one_operation full. intros key value Hkv. apply Hset. by apply elem_of_map_to_list.
    + intros x Hx. apply Hother. by apply Hx.
Qed.

(** The replay of an entry whose path resolves. *)
Lemma replay_step env path full entry s :
  rootPath s = root → quiet s → wf_host (host s) →
  replayable root (host s) path entry →
  fullPath root path = Ok full →
  ∃ s', replay HashString env path entry s = Done tt s'
        ∧ replays HashString root path full entry s s'.
Proof.
  intros Hroot Hq Hwf Hrep Hres.
  destruct (decide (JournalEntry.Operation entry = "write")) as [?|Hw];
    [by apply replay_step_write|].
  destruct (decide (JournalEntry.Operation entry = "mkdir")) as [?|Hm];
    [by apply replay_step_mkdir|].
  destruct (decide (JournalEntry.Operation entry = "delete")) as [?|Hd];
    [by apply replay_step_delete|].
  destruct (decide (JournalEntry.Operation entry = "setattr")) as [?|Ha];
    [by apply replay_step_setattr|].
  exists s. split; [by apply replay_other|].
  apply replays_nothing; [done..|]. one_operation full.
Qed.

(** The replay of an entry whose path does not resolve fails at once and is
    skipped. *)
Lemma replay_unresolved env path entry err s :
  fullPath (rootPath s) path = Err err →
  replay HashString env path entry s = Done tt s.
Proof.
  intros Hres.
  assert (∀ kvs, SetAttributes HashString env path kvs s = Done tt s) as Hattrs.
  { induction kvs as [|[k v] rest IH]; [done|]. cbn [SetAttributes].
    unfold bind at 1, ignore_error, SetAttribute, bind, resolve, lift.
    by rewrite Hres. }
  unfold replay. repeat case_decide; try done.
  - unfold ignore_error, WriteFileWithMode, bind, resolve, lift. by rewrite Hres.
  - unfold ignore_error, CreateDir, bind, resolve, lift. by rewrite Hres.
  - destruct (JournalEntry.IsDir entry).
    + unfold ignore_error, DeleteDir, bind, resolve, lift. by rewrite Hres.
    + unfold ignore_error, DeleteFile, bind, resolve, lift. by rewrite Hres.
Qed.

End Primitives.

(** ** The replay loop *)

Section Convergence.
Variable HashString : string → string.
Variables (root : string) (retained : gmap string JournalEntry.t).
Hypothesis Habs : filepath.IsAbs root = true.
Hypothesis Hclean : filepath.Clean root = root.
Hypothesis Hapart : entries_apart HashString root retained.

Lemma replay_all_converges renv paths replayed s :
  replay_inv HashString root retained replayed s →
  ∃ s', replay_all HashString renv retained paths s = Done tt s'
        ∧ replay_inv HashString root retained (rev paths ++ replayed) s'.
Proof.
  revert replayed s. induction paths as [|path rest IH]; intros replayed s Hinv.
  { by exists s. }
  cbn [replay_all rev]. unfold bind.
  assert (∃ s1, match retained !! path with
                | Some entry => replay HashString (call_env renv path) path entry
                | None => ret tt
                end s = Done tt s1
                ∧ replay_inv HashString root retained (path :: replayed) s1)
    as (s1 & -> & Hinv1).
  { destruct Hinv as (Hroot & Hq & Hwf & Hrep & Hdone).
    destruct (retained !! path) as [entry|] eqn:Hentry.
    - destruct (fullPath root path) as [full|err] eqn:Hres.
      + destruct (replay_step HashString root Habs Hclean (call_env renv path)
                    path full entry s) as (s1 & Hrun & Hstep); [done|done|done|eauto|done|].
        exists s1. split; [done|].
        by eapply (replay_inv_step HashString root retained Hapart replayed path full).
      + exists s. split; [apply (replay_unresolved _ _ _ _ err); by rewrite Hroot|].
        split_and!; [done..|].
        intros q eq [->|Hin]%elem_of_cons Hq'; [|by apply Hdone].
        intros g Hg. congruence.
    - exists s. split; [done|]. split_and!; [done..|].
      intros q eq [->|Hin]%elem_of_cons Hq'; [congruence|by apply Hdone]. }
  destruct (IH _ _ Hinv1) as (s' & -> & Hinv'). exists s'. split; [done|].
  by rewrite <- app_assoc.
Qed.

(** Recovery from a journal whose retained entries lie apart and can be
    replayed: whatever the order of the replay, every retained path ends
    up in the state that its last entry dictates. *)
Lemma Journal_Recover_converges renv entries s :
  retained = fileState entries →
  rootPath s = root → quiet s → wf_host (host s) →
  (∀ path entry, retained !! path = Some entry → replayable root (host s) path entry) →
  Journal.mu (jrnl s) = false → Journal.log (jrnl s) = Some entries →
  (∀ path, is_Some (retained !! path) → path ∈ order renv) →
  reopen_ok renv = true →
  ∃ s', Journal_Recover HashString renv s = Done tt s'
        ∧ ∀ path entry, retained !! path = Some entry →
            dictated HashString root s' path entry.
Proof.
  intros Hret Hroot Hq Hwf Hrep Hmu Hlog Horder Hreopen.
  unfold Journal_Recover, bind, j_Lock, defer, modify, get. rewrite Hmu.
  cbn [jrnl set_jrnl Journal.log Journal.path Journal.mu]. rewrite Hlog, <- Hret.
  match goal with |- context [replay_all _ _ _ _ ?s0] =>
    destruct (replay_all_converges renv (order renv) [] s0) as (s1 & -> & Hinv)
  end.
  { split_and!; try done. intros p e Hin. by apply elem_of_nil in Hin. }
  rewrite Hreopen. eexists. split; [done|].
  destruct Hinv as (_ & _ & _ & _ & Hdone).
  intros path entry Hentry. apply (Hdone path entry); [|done].
  rewrite app_nil_r. apply list_elem_of_In. rewrite <- in_rev.
  apply list_elem_of_In, Horder. by eexists.
Qed.

End Convergence.

Section RecoveryClaim.
Variable HashString : string → string.


End RecoveryClaim.

(** * Recovery through a journaling facade *)

Lemma Journal_Log_held entry s :
  Journal.mu (jrnl s) = true → Journal_Log entry s = Blocked s.
Proof. intros Hmu. unfold Journal_Log, bind, j_Lock. by rewrite Hmu. Qed.

Section JournalMutex.
Variable HashString : string → string.

(** The replayed primitives while the mutex of the journal is held: each of
    them stops where it asks for that mutex to record itself. *)
Lemma WriteFileWithMode_journal_held env path data mode s full h1 :
  journal s = true → Journal.mu (jrnl s) = true → hooks s = ∅ →
  fullPath (rootPath s) path = Ok full →
  os.MkdirAll (host s) (filepath.Dir full) = Some h1 →
  free (mutex s full) →
  versioning s && FileExists path (set_host h1 s) = false →
  WriteFileWithMode HashString env path data mode s
  = Blocked (acquire full (set_host h1 s)).
Proof.
  intros Hj Hmu Hh Hres Hmk Hfree Hver. apply post_exact.
  unfold WriteFileWithMode. apply post_bind, post_resolve. rewrite Hres.
  apply post_bind, post_wrap, post_host_call. rewrite Hmk.
  apply post_locked; [done|]. intros _. unfold write_locked.
  apply post_bind, post_executeHooks_pass; [by apply hooks_pass_empty|].
  apply post_bind, post_get. apply post_bind, post_get.
  assert (versioning (acquire full (set_host h1 s))
          && FileExists path (acquire full (set_host h1 s)) = false) as -> by exact Hver.
  apply post_bind, post_when; [done|]. intros _.
  apply post_bind, post_get. cbn [journal acquire set_locks set_host]. rewrite Hj.
  apply post_bind, post_when; [|done]. intros _. apply post_wrap.
  unfold post. by rewrite Journal_Log_held.
Qed.

Lemma CreateDir_journal_held env path s full :
  journal s = true → Journal.mu (jrnl s) = true → hooks s = ∅ →
  fullPath (rootPath s) path = Ok full →
  free (mutex s (filepath.Dir full)) →
  CreateDir env path s = Blocked (acquire (filepath.Dir full) s).
Proof.
  intros Hj Hmu Hh Hres Hfree. apply post_exact.
  unfold CreateDir. apply post_bind, post_resolve. rewrite Hres.
  apply post_locked; [done|]. intros _.
  apply post_bind, post_executeHooks_pass; [by apply hooks_pass_empty|].
  apply post_bind, post_get. cbn [journal acquire set_locks]. rewrite Hj.
  apply post_bind, post_when; [|done]. intros _. apply post_wrap.
  unfold post. by rewrite Journal_Log_held.
Qed.

Lemma DeleteFile_journal_held env path s full old :
  journal s = true → Journal.mu (jrnl s) = true → hooks s = ∅ →
  versioning s = false →
  fullPath (rootPath s) path = Ok full →
  os.Stat (host s) full = Some (File old) →
  filepath.Dir full ≠ full →
  free (mutex s full) → free (mutex s (filepath.Dir full)) →
  DeleteFile HashString env path s
  = Blocked (acquire (filepath.Dir full) (acquire full s)).
Proof.
  intros Hj Hmu Hh Hv Hres Hst Hne Hfree Hdir. apply post_exact.
  unfold DeleteFile. apply post_bind, post_resolve. rewrite Hres.
  apply post_bind, post_get. rewrite Hst.
  apply post_locked; [done|]. intros _.
  apply post_locked; [by rewrite mutex_acquire_ne by done|]. intros _.
  apply post_bind, post_executeHooks_pass; [by apply hooks_pass_empty|].
  apply post_bind, post_get. cbn [versioning acquire set_locks]. rewrite Hv.
  apply post_bind, post_when; [done|]. intros _.
  apply post_bind, post_get. cbn [journal acquire set_locks]. rewrite Hj.
  apply post_bind, post_when; [|done]. intros _. apply post_wrap.
  unfold post. by rewrite Journal_Log_held.
Qed.

Lemma SetAttribute_journal_held env path key value s full :
  journal s = true → Journal.mu (jrnl s) = true → hooks s = ∅ →
  fullPath (rootPath s) path = Ok full →
  is_Some (os.Stat (host s) full) →
  free (mutex s (attrFile HashString (rootPath s) path)) →
  SetAttribute HashString env path key value s
  = Blocked (acquire (attrFile HashString (rootPath s) path) s).
Proof.
  intros Hj Hmu Hh Hres [nd Hst] Hfree. apply post_exact.
  unfold SetAttribute. apply post_bind, post_resolve. rewrite Hres.
  apply post_bind, post_get. rewrite Hst. unfold setAttribute_stored.
  apply post_bind, post_get.
  apply post_locked; [done|]. intros _.
  apply post_bind, post_executeHooks_pass; [by apply hooks_pass_empty|].
  apply post_bind, post_get. apply post_bind, post_get.
  cbn [journal acquire set_locks]. rewrite Hj.
  apply post_bind, post_when; [|done]. intros _. apply post_wrap.
  unfold post. by rewrite Journal_Log_held.
Qed.

End JournalMutex.

Section RecoverBlocks.
Variable HashString : string → string.

(** C2.  Recovery through the facade never gets to replay.  [Recover] runs
    on a facade that journals; [Journal.Recover] takes the mutex of the
    journal and keeps it while it replays, and every replayed primitive
    asks for the same mutex to record itself.  On a facade without hooks
    whose mutexes are free, let [path] be the first path that the replay
    ranges over and let it resolve to [full].  If its last entry is a write
    whose parent directories can be made, a [mkdir], the deletion of a
    regular file, or the setting of an attribute of something that exists,
    then [Recover] blocks on the mutex of the journal: it never returns,
    no file has been written or deleted, no directory other than missing
    parent directories of a written file has been made, no attribute has
    been set, and the journal holds the entries it held. *)
Theorem Recover_blocks_on_journal_mutex (renv : RecoverEnv) (s : State)
    (entries : list JournalEntry.t) (path : string) (rest : list string)
    (entry : JournalEntry.t) (full : string) :
  journal s = true →
  Journal.mu (jrnl s) = false →
  Journal.log (jrnl s) = Some entries →
  order renv = path :: rest →
  fileState entries !! path = Some entry →
  fullPath (rootPath s) path = Ok full →
  hooks s = ∅ →
  (∀ k, free (mutex s k)) →
  (JournalEntry.Operation entry = "write" →
   ∀ h1, os.MkdirAll (host s) (filepath.Dir full) = Some h1 →
         versioning s && FileExists path (set_host h1 s) = false →
         ∃ s', Recover HashString renv s = Blocked s'
               ∧ Journal.mu (jrnl s') = true
               ∧ Journal.log (jrnl s') = Some entries
               ∧ host s' = h1
               ∧ (∀ p d, host s' !! p = Some (File d) ↔ host s !! p = Some (File d))
               ∧ attributes s' = attributes s)
  ∧ (JournalEntry.Operation entry = "mkdir" →
     ∃ s', Recover HashString renv s = Blocked s'
           ∧ Journal.mu (jrnl s') = true
           ∧ Journal.log (jrnl s') = Some entries
           ∧ host s' = host s ∧ attributes s' = attributes s)
  ∧ (JournalEntry.Operation entry = "delete" →
     ∀ old, os.Stat (host s) full = Some (File old) →
            filepath.Dir full ≠ full → versioning s = false →
            ∃ s', Recover HashString renv s = Blocked s'
                  ∧ Journal.mu (jrnl s') = true
                  ∧ Journal.log (jrnl s') = Some entries
                  ∧ host s' = host s ∧ attributes s' = attributes s)
  ∧ (JournalEntry.Operation entry = "setattr" →
     JournalEntry.Attributes entry ≠ ∅ →
     is_Some (os.Stat (host s) full) →
     ∃ s', Recover HashString renv s = Blocked s'
           ∧ Journal.mu (jrnl s') = true
           ∧ Journal.log (jrnl s') = Some entries
           ∧ host s' = host s ∧ attributes s' = attributes s).
Proof.
  intros Hj Hmu Hlog Horder Hentry Hres Hh Hfree.
  set (s0 := set_jrnl (Journal.mk (Journal.path (jrnl s)) true false (Some entries)) s).
  assert (∀ s', replay HashString (call_env renv path) path entry s0 = Blocked s' →
                Recover HashString renv s = Blocked s') as Hstop.
  { intros s' Hrun. unfold Recover, bind, get. rewrite Hj. cbn [negb].
    unfold Journal_Recover, bind, j_Lock, defer, modify, get. rewrite Hmu.
    cbn [jrnl set_jrnl Journal.log Journal.path Journal.mu Journal.file].
    rewrite Hlog, Horder. cbn [replay_all]. unfold bind. rewrite Hentry.
    change (set_jrnl _ (set_jrnl _ s)) with s0. by rewrite Hrun. }
  assert (fullPath (rootPath s0) path = Ok full) as Hres0 by exact Hres.
  split_and!.
  - intros Hop h1 Hmk Hver. eexists. split.
    + apply Hstop. unfold replay. rewrite Hop. rewrite decide_True by done.
      unfold ignore_error.
      rewrite (WriteFileWithMode_journal_held HashString _ path _ _ s0 full h1);
        [reflexivity|exact Hj|reflexivity|exact Hh|exact Hres|exact Hmk
        |apply (Hfree full)|exact Hver].
    + split_and!; [done..| |done].
      intros p d. cbn. by apply MkdirAll_files with (dir := filepath.Dir full).
  - intros Hop. eexists. split.
    + apply Hstop. unfold replay. rewrite Hop.
      rewrite decide_False by done. rewrite decide_True by done.
      unfold ignore_error.
      rewrite (CreateDir_journal_held _ path s0 full);
        [reflexivity|exact Hj|reflexivity|exact Hh|exact Hres
        |apply (Hfree (filepath.Dir full))].
    + done.
  - intros Hop old Hst Hne Hv. eexists. split.
    + apply Hstop. unfold replay. rewrite Hop.
      rewrite !decide_False by done. rewrite decide_True by done.
      assert (JournalEntry.IsDir entry = false) as ->.
      { unfold JournalEntry.IsDir. rewrite Hop. by rewrite andb_false_r. }
      unfold ignore_error.
      rewrite (DeleteFile_journal_held HashString _ path s0 full old);
        [reflexivity|exact Hj|reflexivity|exact Hh|exact Hv|exact Hres|exact Hst|exact Hne
        |apply (Hfree full)|apply (Hfree (filepath.Dir full))].
    + done.
  - intros Hop Hattrs Hst.
    destruct (map_to_list (JournalEntry.Attributes entry)) as [|[k v] kvs] eqn:Hkvs.
    { by apply map_to_list_empty_iff in Hkvs. }
    eexists. split.
    + apply Hstop. unfold replay. rewrite Hop.
      rewrite !decide_False by done. rewrite decide_True by done.
      rewrite Hkvs. cbn [SetAttributes]. unfold bind, ignore_error.
      rewrite (SetAttribute_journal_held HashString _ path k v s0 full);
        [reflexivity|exact Hj|reflexivity|exact Hh|exact Hres|exact Hst
        |apply (Hfree (attrFile HashString (rootPath s) path))].
    + done.
Qed.

End RecoverBlocks.

Lemma Recover_blocks_on_journal_mutex_witness :
  ∃ s', Recover path_key (replay_in ["docs/a"; "docs/b"; "tmp"; "notes"; "docs"])
          journaling_crashed
        = Blocked s'
        ∧ os.Stat (host s') "/data/docs/a" = None
        ∧ os.Stat (host s') "/data/tmp" = Some (File "x")
        ∧ attributes s' = ∅
        ∧ Journal.log (jrnl s') = Some interleaved.
Proof.
  destruct (Recover_blocks_on_journal_mutex path_key
              (replay_in ["docs/a"; "docs/b"; "tmp"; "notes"; "docs"])
              journaling_crashed interleaved "docs/a" ["docs/b"; "tmp"; "notes"; "docs"]
              (write_entry "docs/a" "3" 4) "/data/docs/a")
    as [Hwrite _].
  - reflexivity.
  - reflexivity.
  - reflexivity.
  - reflexivity.
  - reflexivity.
  - reflexivity.
  - reflexivity.
  - intros k. unfold mutex. cbn. by rewrite lookup_empty.
  - destruct (Hwrite eq_refl (<["/data/docs" := Dir]> crashed_tree))
      as (s' & Hrun & _ & Hlog & Hhost & _ & Hattrs).
    + vm_compute. reflexivity.
    + reflexivity.
    + exists s'. split_and!; [exact Hrun| | |exact Hattrs|exact Hlog].
      * rewrite Hhost. vm_compute. reflexivity.
      * rewrite Hhost. vm_compute. reflexivity.
Defined.

(** * The concrete scenario of versioned writes *)

Section Scenario.
Variable HashString : string → string.

(** A versioned write to a regular file, on a facade without hooks: the
    call stops in [ReadFile], holding the write lock of the file, before
    any snapshot is taken. *)
Lemma WriteFile_versioned_blocks_at env path data mode full old s :
  versioning s = true → hooks s = ∅ →
  fullPath (rootPath s) path = Ok full →
  os.Stat (host s) full = Some (File old) →
  os.Stat (host s) (filepath.Dir full) = Some Dir →
  free (mutex s full) →
  WriteFileWithMode HashString env path data mode s = Blocked (acquire full s).
Proof.
  intros Hv Hh Hres Hst Hdir Hfree. apply post_exact.
  unfold WriteFileWithMode. apply post_bind, post_resolve. rewrite Hres.
  apply post_bind, post_wrap, post_host_call.
  rewrite MkdirAll_exists by done. rewrite set_host_id.
  apply post_locked; [done|]. intros _. unfold write_locked.
  apply post_bind, post_executeHooks_pass; [by apply hooks_pass_empty|].
  apply post_bind, post_get. apply post_bind, post_get.
  cbn [versioning acquire set_locks]. rewrite Hv.
  assert (FileExists path (acquire full s) = true) as ->
    by by apply (FileExists_true path full (File old)).
  apply post_bind, post_when; [|done]. intros _. apply post_wrap.
  unfold createVersion. apply post_bind, post_get.
  cbn [versioning acquire set_locks]. rewrite Hv. cbn [negb].
  apply post_bind, post_executeHooks_pass; [by apply hooks_pass_empty|].
  apply post_bind, post_resolve. cbn [rootPath acquire set_locks]. rewrite Hres.
  apply post_bind, post_get. cbn [host acquire set_locks]. rewrite Hst.
  apply post_bind, post_wrap. unfold ReadFile.
  apply post_bind, post_resolve. cbn [rootPath acquire set_locks]. rewrite Hres.
  apply post_rlocked.
  - intros _. unfold registered, acquire. cbn [locks set_locks].
    by rewrite lookup_insert_eq.
  - rewrite mutex_acquire. done.
Qed.

(** C5.  The concrete scenario stops at its first step.  From root [/data]
    with [a.txt] holding "v1", versioning enabled with [MaxVersions = 2]
    and no hooks, the write of "v2" to [a.txt] never returns: it blocks in
    [ReadFile], called by [createVersion] under the write lock that the
    write itself holds on the file.  No snapshot has been taken, so the
    version store is empty and [ListVersions] has nothing to list, the
    journal holds no entry for the write, and [a.txt] still holds "v1";
    the writes of "v3" and "v4" are never reached. *)
Theorem versioning_scenario_blocks :
  ∃ s', WriteFile HashString (mkEnv 1 "id-1") "a.txt" "v2" v1_facade = Blocked s'
        ∧ writer (mutex s' "/data/a.txt") = true
        ∧ versions s' = ∅
        ∧ ListVersions HashString "a.txt" s' = Done [] s'
        ∧ jrnl s' = jrnl v1_facade
        ∧ os.Stat (host s') "/data/a.txt" = Some (File "v1").
Proof.
  exists (acquire "/data/a.txt" v1_facade). split.
  - unfold WriteFile.
    apply (WriteFile_versioned_blocks_at _ "a.txt" "v2" 420 "/data/a.txt" "v1");
      reflexivity || by split.
  - split_and!; reflexivity.
Qed.

End Scenario.

(** * Mutations that never return *)

Section NeverDone.
Variable HashString : string → string.

Lemma FileExists_MkdirAll path full h1 s :
  fullPath (rootPath s) path = Ok full →
  os.MkdirAll (host s) (filepath.Dir full) = Some h1 →
  FileExists path s = true → FileExists path (set_host h1 s) = true.
Proof.
  intros Hres [Hsub _]%MkdirAll_grows. unfold FileExists. cbn [rootPath host set_host].
  rewrite Hres. unfold os.Stat. case_decide; [done|].
  destruct (host s !! full) as [nd|] eqn:Hl; [|done]. intros _.
  by rewrite (lookup_weaken _ _ _ _ Hl Hsub).
Qed.

Lemma WriteFileWithMode_versioned_post env path data mode s :
  versioning s = true → FileExists path s = true →
  post (WriteFileWithMode HashString env path data mode) never (λ _ _, True) always s.
Proof.
  intros Hv Hex. unfold WriteFileWithMode. apply post_bind, post_resolve.
  destruct (fullPath (rootPath s) path) as [full|] eqn:Hres; [|done].
  apply post_bind, post_wrap, post_host_call.
  destruct (os.MkdirAll _ _) as [h1|] eqn:Hmk; [|done].
  apply post_locked; [done|]. intros _. unfold write_locked.
  apply post_bind, post_executeHooks.
  assert (post
    (do v <- get versioning;
     do exists_ <- get (FileExists path);
     when (v && exists_) (wrap "failed to create version" (createVersion HashString env path)) >>
     do j <- get journal;
     when j (wrap "failed to log file write"
               (Journal_Log (JournalEntry.mk "write" path data (now env)
                               {["mode" := fmt_d mode]}))) >>
     host_call "open" full (λ h, os.WriteFile h full data) >>
     executeHooks HookTypePost (HookContext.mk OpWriteFile path "" data mode "" ""))
    never (λ _ _, True) always (acquire full (set_host h1 s))) as Hrest.
  { apply post_bind, post_get. apply post_bind, post_get.
    assert (FileExists path (acquire full (set_host h1 s)) = true) as ->.
    { by apply (FileExists_MkdirAll path full h1 s). }
    cbn [versioning acquire set_locks set_host]. rewrite Hv. cbn [andb].
    apply post_bind, post_when; [|done]. intros _. apply post_wrap.
    eapply post_mono; [apply (createVersion_never_done HashString env path full)|done..].
    - done.
    - by rewrite mutex_acquire. }
  destruct (hooks _ !! _) as [hs|]; [|exact Hrest].
  destruct (run_hooks hs _); [done|exact Hrest].
Qed.

(** C4.  With versioning enabled, a write to a path that already exists
    never returns normally: if no earlier step fails, it stops while taking
    the version of the old content, with an error or blocked on the mutex
    of the path that the write itself holds.  So no sequence of successful
    writes to an existing path exists whose versions could be counted. *)
Theorem versioned_write_never_succeeds env path data mode s :
  versioning s = true → FileExists path s = true →
  ∀ s', WriteFileWithMode HashString env path data mode s ≠ Done tt s'.
Proof.
  intros Hv Hex s' Hdone.
  pose proof (WriteFileWithMode_versioned_post env path data mode s Hv Hex) as Hpost.
  unfold post in Hpost. by rewrite Hdone in Hpost.
Qed.

(** C10.  Self-deadlock.  With versioning enabled and the target a regular
    file whose mutex is free, [WriteFile] and [DeleteFile] block while they
    hold the write lock of the path: under that lock they take a version of
    the file, which reads the path through [ReadFile], whose read lock on
    the same mutex is never granted.  (A pre-hook may reject the operation
    before it comes to that.)  [MoveFile] on a journaling facade blocks as
    well, holding the write lock of the source: having recorded the
    deletion of the source it reads the source through [ReadFile], unless
    one of its other locks has stopped it before. *)
Theorem self_deadlock :
  (∀ env path data mode full old s,
     versioning s = true →
     fullPath (rootPath s) path = Ok full →
     os.Stat (host s) full = Some (File old) →
     os.Stat (host s) (filepath.Dir full) = Some Dir →
     free (mutex s full) →
     hooks_pass s HookTypePre (HookContext.mk OpWriteFile path "" data mode "" "") →
     hooks_pass s HookTypePre (hook_ctx OpCreateVersion path) →
     ∃ s', WriteFileWithMode HashString env path data mode s = Blocked s'
           ∧ writer (mutex s' full) = true)
  ∧ (∀ env path full old s,
       versioning s = true →
       fullPath (rootPath s) path = Ok full →
       os.Stat (host s) full = Some (File old) →
       free (mutex s full) →
       hooks_pass s HookTypePre (hook_ctx OpDeleteFile path) →
       hooks_pass s HookTypePre (hook_ctx OpCreateVersion path) →
       ∃ s', DeleteFile HashString env path s = Blocked s'
             ∧ writer (mutex s' full) = true)
  ∧ (∀ env src dst srcPath dstPath h1 s,
       journal s = true →
       Journal.file (jrnl s) = true →
       fullPath (rootPath s) src = Ok srcPath →
       fullPath (rootPath s) dst = Ok dstPath →
       free (mutex s srcPath) →
       hooks_pass s HookTypePre (HookContext.mk OpMoveFile dst src "" 0 "" "") →
       versioning s && FileExists dst s = false →
       os.MkdirAll (host s) (filepath.Dir dstPath) = Some h1 →
       ∃ s', MoveFile HashString env src dst s = Blocked s'
             ∧ writer (mutex s' srcPath) = true).
Proof.
  split_and!.
  - intros. by eapply WriteFile_versioned_blocks.
  - intros. by eapply DeleteFile_versioned_blocks.
  - intros. by eapply MoveFile_journaled_blocks.
Qed.

End NeverDone.

(** * Closed examples *)

(** ** Path confinement *)

Lemma fullPath_confinement_witness :
  fullPath "/data" "docs/../a.txt" = Ok "/data/a.txt"
  ∧ String.prefix "/data" "/data/a.txt" = true
  ∧ fullPath "/data" "docs/../../etc" = Err ErrEscapesRoot.
Proof.
  destruct (fullPath_confinement "/data" "docs/../a.txt" eq_refl eq_refl)
    as (_ & _ & _ & Hin & _).
  destruct (fullPath_confinement "/data" "docs/../../etc" eq_refl eq_refl)
    as (_ & _ & _ & _ & Hout).
  destruct Hin as (Hfull & Hprefix & _).
  { by exists ["a.txt"]. }
  destruct Hout as (Hesc & _).
  { intros [rest Hrest]. vm_compute in Hrest. discriminate. }
  split_and!; [exact Hfull|exact Hprefix|exact Hesc].
Defined.

(** ** Writes *)

Lemma plain_facade_free k : free (mutex plain_facade k).
Proof. unfold mutex. cbn. by rewrite lookup_empty. Qed.

Lemma read_only_facade_free k : free (mutex read_only_facade k).
Proof. unfold mutex. cbn. by rewrite lookup_empty. Qed.

Lemma plain_facade_wf : wf_host (host plain_facade).
Proof.
  intros p nd Hp. change (host plain_facade) with ({["/data" := Dir]} : gmap string node) in Hp.
  apply lookup_singleton_Some in Hp as [<- _]. reflexivity.
Qed.

Lemma WriteFile_ReadFile_roundtrip_witness :
  ∃ s', WriteFile path_key (mkEnv 1 "id") "docs/a.txt" "hello" plain_facade = Done tt s'
        ∧ ∃ s'', ReadFile "docs/a.txt" s' = Done "hello" s''.
Proof.
  eexists. split; [vm_compute; reflexivity|].
  apply (WriteFile_ReadFile_roundtrip path_key (mkEnv 1 "id") "docs/a.txt" "hello"
           plain_facade).
  - vm_compute. reflexivity.
  - by apply hooks_pass_empty.
  - by apply hooks_pass_empty.
Defined.

Lemma guarded_v1_facade_free k : free (mutex guarded_v1_facade k).
Proof. unfold mutex. cbn. by rewrite lookup_empty. Qed.

(** On a journaling facade whose file [a.txt] holds "v1", a write that
    [ReadOnlyHook] rejects leaves the journal and the file as they were. *)
Lemma WriteFile_hook_veto_witness :
  ∃ s', WriteFileWithMode path_key (mkEnv 1 "id") "a.txt" "v2" 420 guarded_v1_facade
        = Fail (ErrMsg "filesystem is read-only") s'
        ∧ jrnl s' = jrnl guarded_v1_facade
        ∧ host s' !! "/data/a.txt" = Some (File "v1").
Proof.
  destruct (WriteFile_hook_veto path_key (mkEnv 1 "id") "a.txt" "v2" 420
              guarded_v1_facade [] ReadOnlyHook []
              (ErrMsg "filesystem is read-only") eq_refl eq_refl)
    as (err & s' & Hfail & Hjrnl & Hfiles & _ & _ & _ & Herr).
  { intros full _. apply guarded_v1_facade_free. }
  exists s'. destruct (Herr "/data/a.txt") as [_ Hfirst].
  - reflexivity.
  - vm_compute. by eexists.
  - rewrite Hfirst in Hfail by constructor.
    split_and!; [exact Hfail|exact Hjrnl|]. by apply Hfiles.
Defined.

(** The veto is not always what the write fails with.  [ReadOnlyHook]
    rejects every write; but a write below a regular file fails with the
    error of the directory creation, which comes before the hooks, and a
    write through a facade on which [QuotaHook] was registered first fails
    with the error of [QuotaHook]. *)
Lemma hook_veto_not_its_error :
  (ReadOnlyHook (HookContext.mk OpWriteFile "f/a.txt" "" "hello" 420 "" "")
   = Some (ErrMsg "filesystem is read-only")
   ∧ fullPath "/data" "f/a.txt" = Ok "/data/f/a.txt"
   ∧ WriteFile path_key (mkEnv 1 "id") "f/a.txt" "hello" read_only_over_file
     = Fail (Wrapped "failed to create parent directories" (ErrHost "mkdir" "/data/f"))
            read_only_over_file)
  ∧ (hooks twice_guarded_facade !! (OpWriteFile, HookTypePre)
     = Some [QuotaHook; ReadOnlyHook]
     ∧ ReadOnlyHook (HookContext.mk OpWriteFile "a.txt" "" "hello" 420 "" "")
       = Some (ErrMsg "filesystem is read-only")
     ∧ ∃ s', WriteFile path_key (mkEnv 1 "id") "a.txt" "hello" twice_guarded_facade
             = Fail (ErrMsg "quota exceeded") s').
Proof.
  split_and!; try (vm_compute; reflexivity).
  eexists. vm_compute. reflexivity.
Qed.



(** ** Versions *)

Lemma versioned_write_never_succeeds_witness :
  versioning v1_facade = true ∧ FileExists "a.txt" v1_facade = true
  ∧ ∀ s', WriteFileWithMode path_key (mkEnv 1 "id-1") "a.txt" "v2" 420 v1_facade
          ≠ Done tt s'.
Proof.
  split_and!; [reflexivity|reflexivity|].
  apply (versioned_write_never_succeeds path_key (mkEnv 1 "id-1") "a.txt" "v2" 420
           v1_facade); reflexivity.
Defined.

Lemma v1_facade_hooks_pass typ ctx : hooks_pass v1_facade typ ctx.
Proof. by apply hooks_pass_empty. Qed.

Lemma v1_facade_free k : free (mutex v1_facade k).
Proof. unfold mutex. cbn. by rewrite lookup_empty. Qed.

(** The move blocks where it reads the source: the deletion of the source
    is in the journal, the write of the destination is not. *)
Lemma self_deadlock_witness :
  (∃ s', WriteFileWithMode path_key (mkEnv 1 "id-1") "a.txt" "v2" 420 v1_facade
         = Blocked s'
         ∧ writer (mutex s' "/data/a.txt") = true)
  ∧ (∃ s', DeleteFile path_key (mkEnv 1 "id-1") "a.txt" v1_facade = Blocked s'
           ∧ writer (mutex s' "/data/a.txt") = true)
  ∧ (∃ s', MoveFile path_key (mkEnv 1 "id-1") "a.txt" "docs/b.txt" v1_facade = Blocked s'
           ∧ writer (mutex s' "/data/a.txt") = true
           ∧ Journal.log (jrnl s')
             = Some [JournalEntry.mk "write" "a.txt" "v1" 0 {["mode" := "420"]};
                     JournalEntry.mk "delete" "a.txt" "" 1 ∅]).
Proof.
  destruct (self_deadlock path_key) as (Hwrite & Hdelete & Hmove).
  split_and!.
  - apply (Hwrite _ "a.txt" "v2" 420 "/data/a.txt" "v1");
      try reflexivity; try apply v1_facade_hooks_pass. apply v1_facade_free.
  - apply (Hdelete _ "a.txt" "/data/a.txt" "v1");
      try reflexivity; try apply v1_facade_hooks_pass. apply v1_facade_free.
  - destruct (Hmove (mkEnv 1 "id-1") "a.txt" "docs/b.txt" "/data/a.txt"
                "/data/docs/b.txt"
                {["/data" := Dir; "/data/a.txt" := File "v1"; "/data/docs" := Dir]}
                v1_facade) as (s' & Hblocked & Hheld);
      try reflexivity; try apply v1_facade_hooks_pass; try apply v1_facade_free.
    exists s'. split_and!; [exact Hblocked|exact Hheld|].
    vm_compute in Hblocked. injection Hblocked as <-. reflexivity.
Defined.

(** ** Recovery *)

Lemma interleaved_lookup path entry :
  fileState interleaved !! path = Some entry →
  (path = "docs" ∧ entry = JournalEntry.mk "mkdir" "docs" "" 1 ∅)
  ∨ (path = "docs/a" ∧ entry = write_entry "docs/a" "3" 4)
  ∨ (path = "docs/b" ∧ entry = write_entry "docs/b" "2" 3)
  ∨ (path = "tmp" ∧ entry = JournalEntry.mk "delete" "tmp" "" 5 ∅)
  ∨ (path = "notes"
     ∧ entry = JournalEntry.mk "setattr" "notes" "" 6 {["owner" := "alice"]}).
Proof.
  assert (fileState interleaved
          = <["docs" := JournalEntry.mk "mkdir" "docs" "" 1 ∅]>
              (<["docs/a" := write_entry "docs/a" "3" 4]>
                 (<["docs/b" := write_entry "docs/b" "2" 3]>
                    (<["tmp" := JournalEntry.mk "delete" "tmp" "" 5 ∅]>
                       {["notes" := JournalEntry.mk "setattr" "notes" "" 6
                                      {["owner" := "alice"]}]})))) as ->
    by (vm_compute; reflexivity).
  intros [[<- <-]|[_ [[<- <-]|[_ [[<- <-]|[_ [[<- <-]|[_ [<- <-]%lookup_singleton_Some]]
    %lookup_insert_Some]]%lookup_insert_Some]]%lookup_insert_Some]]%lookup_insert_Some;
    eauto 10.
Qed.

Lemma crashed_tree_lookup name nd :
  crashed_tree !! name = Some nd →
  (name = "/data" ∧ nd = Dir)
  ∨ (name = "/data/tmp" ∧ nd = File "x")
  ∨ (name = "/data/notes" ∧ nd = File "n").
Proof.
  unfold crashed_tree.
  intros [[<- <-]|[_ [[<- <-]|[_ [<- <-]%lookup_singleton_Some]]
    %lookup_insert_Some]]%lookup_insert_Some; eauto.
Qed.

Lemma crashed_tree_wf : wf_host crashed_tree.
Proof. intros p nd [[-> _]|[[-> _]|[-> _]]]%crashed_tree_lookup; reflexivity. Qed.

(** No regular file of the tree lies above [full]. *)
Ltac clear_above path :=
  let d := fresh "d" in
  let c := fresh "c" in
  let Hpar := fresh "Hpar" in
  intros d c Hpar;
  apply (parent_of_prefix "/data" eq_refl eq_refl path) in Hpar; [|reflexivity];
  unfold os.Stat; case_decide; [done|];
  intros [[-> ?]|[[-> ?]|[-> ?]]]%crashed_tree_lookup;
  first [done | vm_compute in Hpar; discriminate].

Lemma interleaved_replayable path entry :
  fileState interleaved !! path = Some entry →
  replayable "/data" crashed_tree path entry.
Proof.
  intros [[-> ->]|[[-> ->]|[[-> ->]|[[-> ->]|[-> ->]]]]]%interleaved_lookup
    full [= <-]; split_and!; intros Hop; try discriminate Hop.
  - split; [done|]. clear_above "docs".
  - split; [done|]. clear_above "docs/a".
  - split; [done|]. clear_above "docs/b".
  - done.
  - by eexists.
Qed.

(** The places of two entries do not meet. *)
Ltac places_apart q :=
  let Hpar := fresh "Hpar" in
  split_and!;
  [done
  |intros Hpar; first
     [by split
     |apply (parent_of_prefix "/data" eq_refl eq_refl q) in Hpar; [|reflexivity];
      vm_compute in Hpar; discriminate]
  |intros; done].

Lemma interleaved_apart : entries_apart path_key "/data" (fileState interleaved).
Proof.
  intros p q ep eq fp fq Hne
    [[-> ->]|[[-> ->]|[[-> ->]|[[-> ->]|[-> ->]]]]]%interleaved_lookup
    [[-> ->]|[[-> ->]|[[-> ->]|[[-> ->]|[-> ->]]]]]%interleaved_lookup;
    try done; intros [= <-] [= <-].
  - places_apart "docs/a".
  - places_apart "docs/b".
  - places_apart "tmp".
  - places_apart "notes".
  - places_apart "docs".
  - places_apart "docs/b".
  - places_apart "tmp".
  - places_apart "notes".
  - places_apart "docs".
  - places_apart "docs/a".
  - places_apart "tmp".
  - places_apart "notes".
  - places_apart "docs".
  - places_apart "docs/a".
  - places_apart "docs/b".
  - places_apart "notes".
  - places_apart "docs".
  - places_apart "docs/a".
  - places_apart "docs/b".
  - places_apart "tmp".
Qed.

Lemma recovering_quiet h log : quiet (recovering h log).
Proof. split_and!; try reflexivity. intros k. unfold mutex. cbn. by rewrite lookup_empty. Qed.


(** Where the journal or the order of the replay decides.  A journal that
    cannot be opened for reading makes [Journal.Recover] fail.  Two path
    strings of one file are kept as two entries, replayed in the order of
    the map: with [./a] replayed before [a], the file ends up holding the
    data of the earlier entry.  And of a file and a file below it only the
    one replayed first is written: the other replay fails and is skipped. *)
Lemma Recover_not_last_entry :
  (∃ s', Journal_Recover path_key (replay_in []) (recovering root_only None)
         = Fail (Wrapped "failed to open journal for recovery"
                   (ErrHost "open" "/data/.journal/fs.log")) s')
  ∧ (fullPath "/data" "a" = Ok "/data/a"
     ∧ fullPath "/data" "./a" = Ok "/data/a"
     ∧ last aliased = Some (write_entry "./a" "2" 2)
     ∧ ∃ s', Journal_Recover path_key (replay_in ["./a"; "a"])
               (recovering root_only (Some aliased))
             = Done tt s'
             ∧ os.Stat (host s') "/data/a" = Some (File "1"))
  ∧ (fileState nested !! "d" = Some (write_entry "d" "2" 2)
     ∧ fullPath "/data" "d" = Ok "/data/d"
     ∧ ∃ s', Journal_Recover path_key (replay_in ["d/x"; "d"])
               (recovering root_only (Some nested))
             = Done tt s'
             ∧ os.Stat (host s') "/data/d" = Some Dir).
Proof.
  split_and!; try (vm_compute; reflexivity).
  - eexists. vm_compute. reflexivity.
  - eexists. split; vm_compute; reflexivity.
  - eexists. split; vm_compute; reflexivity.
Qed.

(** ** The lock table *)

Lemma AcquireLock_rules_witness :
  AcquireLock 5 "p" "bob" ReadLock 0
    (mkLM {["p" := LockInfo.mk "p" ReadLock "alice" 1 0]} ∅ ∅)
  = (Ok (LockInfo.mk "p" ReadLock "bob" 5 0),
     mkLM (<["p" := LockInfo.mk "p" ReadLock "bob" 5 0]>
             {["p" := LockInfo.mk "p" ReadLock "alice" 1 0]}) ∅ ∅)
  ∧ AcquireLock 5 "p" "bob" WriteLock 0
      (mkLM {["p" := LockInfo.mk "p" ReadLock "alice" 1 0]} ∅ ∅)
    = (Err (ErrMsg "path is read-locked by alice"),
       mkLM {["p" := LockInfo.mk "p" ReadLock "alice" 1 0]} ∅ ∅).
Proof.
  destruct (AcquireLock_rules 5 "p" "bob" ReadLock 0
              (mkLM {["p" := LockInfo.mk "p" ReadLock "alice" 1 0]} ∅ ∅))
    as (_ & _ & Hread & _).
  destruct (AcquireLock_rules 5 "p" "bob" WriteLock 0
              (mkLM {["p" := LockInfo.mk "p" ReadLock "alice" 1 0]} ∅ ∅))
    as (_ & _ & _ & Hwrite).
  split.
  - by destruct (Hread (LockInfo.mk "p" ReadLock "alice" 1 0)) as [-> _].
  - by apply (Hwrite (LockInfo.mk "p" ReadLock "alice" 1 0)).
Defined.

Lemma release_and_expiry_rules_witness :
  ReleaseLock "p" "bob" (mkLM {["p" := LockInfo.mk "p" ReadLock "alice" 1 0]} ∅ ∅)
  = (Some (ErrMsg "lock is owned by alice, not bob"),
     mkLM {["p" := LockInfo.mk "p" ReadLock "alice" 1 0]} ∅ ∅)
  ∧ lm_locks (CleanupExpiredLocks 10
                (mkLM {["p" := LockInfo.mk "p" ReadLock "alice" 1 3]} ∅ ∅)) !! "p" = None.
Proof.
  destruct (release_and_expiry_rules 10 "p" "bob"
              (mkLM {["p" := LockInfo.mk "p" ReadLock "alice" 1 0]} ∅ ∅))
    as (_ & Howner & _).
  destruct (release_and_expiry_rules 10 "p" "bob"
              (mkLM {["p" := LockInfo.mk "p" ReadLock "alice" 1 3]} ∅ ∅))
    as (_ & _ & _ & Hexpired & _).
  split.
  - by apply (Howner (LockInfo.mk "p" ReadLock "alice" 1 0)).
  - by apply (Hexpired "p" (LockInfo.mk "p" ReadLock "alice" 1 3)).
Defined.

(** * More on the explicit lock manager *)

Lemma AcquireLock_free now path owner lockType timeout lm :
  lm_locks lm !! path = None →
  AcquireLock now path owner lockType timeout lm
  = (Ok (LockInfo.mk path lockType owner now timeout),
     mkLM (<[path := LockInfo.mk path lockType owner now timeout]> (lm_locks lm))
          (lockWaiters lm) (closed lm)).
Proof. intros Hnone. unfold AcquireLock. by rewrite Hnone. Qed.

(** X2.  Read locks are not counted.  When a second reader takes a read lock the
    record of the first is replaced: the first reader can no longer
    release, the release of the second frees the path, and a writer is
    then granted the lock although the first reader never released. *)
Theorem second_reader_replaces_first (now1 now2 : Z) (path a b : string)
    (t1 t2 : Z) (lm : ExplicitLockManager) :
  lm_locks lm !! path = None → a ≠ b →
  ∃ lm1 lm2 lm3,
    AcquireLock now1 path a ReadLock t1 lm
    = (Ok (LockInfo.mk path ReadLock a now1 t1), lm1)
    ∧ AcquireLock now2 path b ReadLock t2 lm1
      = (Ok (LockInfo.mk path ReadLock b now2 t2), lm2)
    ∧ ReleaseLock path a lm2
      = (Some (ErrMsg ("lock is owned by " ++ b ++ ", not " ++ a)), lm2)
    ∧ ReleaseLock path b lm2 = (None, lm3)
    ∧ GetLockInfo path lm3 = None
    ∧ ∀ now3 c t3,
        (AcquireLock now3 path c WriteLock t3 lm3).1
        = Ok (LockInfo.mk path WriteLock c now3 t3).
Proof.
  intros Hnone Hab. eexists _, _, _. split_and!.
  - by apply AcquireLock_free.
  - unfold AcquireLock. cbn [lm_locks]. rewrite lookup_insert_eq.
    cbn [LockInfo.Type_]. rewrite decide_False by done. by rewrite decide_True.
  - unfold ReleaseLock. cbn [lm_locks]. rewrite lookup_insert_eq.
    cbn [LockInfo.Owner]. by rewrite decide_True by done.
  - unfold ReleaseLock. cbn [lm_locks]. rewrite lookup_insert_eq.
    cbn [LockInfo.Owner]. rewrite decide_False by (intros H; by apply H). done.
  - unfold GetLockInfo, wake. cbn [lockWaiters lm_locks].
    destruct (lockWaiters lm !! path); cbn [lm_locks]; apply lookup_delete_eq.
  - intros now3 c t3. rewrite AcquireLock_free; [done|].
    unfold wake. cbn [lockWaiters lm_locks].
    destruct (lockWaiters lm !! path); cbn [lm_locks]; apply lookup_delete_eq.
Qed.

Lemma second_reader_replaces_first_witness :
  ∃ lm3,
    ReleaseLock "p" "bob"
      (AcquireLock 2 "p" "bob" ReadLock 0
         (AcquireLock 1 "p" "alice" ReadLock 0 NewExplicitLockManager).2).2
    = (None, lm3)
    ∧ (AcquireLock 3 "p" "carol" WriteLock 0 lm3).1
      = Ok (LockInfo.mk "p" WriteLock "carol" 3 0).
Proof.
  destruct (second_reader_replaces_first 1 2 "p" "alice" "bob" 0 0
              NewExplicitLockManager) as (lm1 & lm2 & lm3 & H1 & H2 & _ & H3 & _ & H4);
    [reflexivity|discriminate|].
  exists lm3. rewrite H1. cbn [snd]. rewrite H2. cbn [snd]. split; [exact H3|apply H4].
Defined.

(** X3.  Expiry is enforced by the sweep alone.  A write lock whose timeout has
    run out still refuses every request; once [CleanupExpiredLocks] has
    run, the same request is granted. *)
Theorem expired_lock_held_until_swept (now : Z) (path owner : string)
    (lockType timeout : Z) (lm : ExplicitLockManager) (lock : LockInfo.t) :
  lm_locks lm !! path = Some lock →
  LockInfo.Type_ lock = WriteLock →
  0 < LockInfo.Timeout lock →
  LockInfo.Timeout lock < now - LockInfo.CreatedAt lock →
  AcquireLock now path owner lockType timeout lm
  = (Err (ErrMsg ("path is write-locked by " ++ LockInfo.Owner lock)), lm)
  ∧ (AcquireLock now path owner lockType timeout (CleanupExpiredLocks now lm)).1
    = Ok (LockInfo.mk path lockType owner now timeout).
Proof.
  intros Hl Hty Hpos Hold. split.
  - unfold AcquireLock. rewrite Hl. by rewrite decide_True.
  - rewrite AcquireLock_free; [done|].
    rewrite CleanupExpiredLocks_sweep.
    destruct (sweep_spec now (lm_locks lm) lm) as (Hin & _ & _).
    apply Hin. exists lock. split; [done|]. by apply expired_iff.
Qed.

Lemma expired_lock_held_until_swept_witness :
  let lm := mkLM {["p" := LockInfo.mk "p" WriteLock "alice" 0 5]} ∅ ∅ in
  (AcquireLock 10 "p" "bob" WriteLock 5 lm).1
  = Err (ErrMsg "path is write-locked by alice")
  ∧ (AcquireLock 10 "p" "bob" WriteLock 5 (CleanupExpiredLocks 10 lm)).1
    = Ok (LockInfo.mk "p" WriteLock "bob" 10 5).
Proof.
  intros lm.
  destruct (expired_lock_held_until_swept 10 "p" "bob" WriteLock 5 lm
              (LockInfo.mk "p" WriteLock "alice" 0 5)) as [H1 H2];
    [reflexivity|reflexivity|reflexivity|reflexivity|].
  rewrite H1. split; [reflexivity|exact H2].
Defined.

(** X4.  Taking a lock on a free path and releasing it as the same owner gives
    the manager back as it was, except that the waiters of the path have
    been woken. *)
Theorem AcquireLock_ReleaseLock (now : Z) (path owner : string) (lockType timeout : Z)
    (lm : ExplicitLockManager) :
  lm_locks lm !! path = None →
  ReleaseLock path owner (AcquireLock now path owner lockType timeout lm).2
  = (None, wake path lm).
Proof.
  intros Hnone. rewrite AcquireLock_free by done. cbn [snd].
  unfold ReleaseLock. cbn [lm_locks]. rewrite lookup_insert_eq.
  cbn [LockInfo.Owner]. rewrite decide_False by (intros H; by apply H).
  rewrite delete_insert_id by done. by destruct lm.
Qed.

Lemma AcquireLock_ReleaseLock_witness :
  ReleaseLock "p" "alice"
    (AcquireLock 1 "p" "alice" WriteLock 0 (mkLM ∅ {["p" := [7%nat]]} ∅)).2
  = (None, mkLM ∅ ∅ {[7%nat]}).
Proof.
  rewrite (AcquireLock_ReleaseLock 1 "p" "alice" WriteLock 0) by reflexivity.
  vm_compute. reflexivity.
Defined.

(** * Calls that meet their own locks *)

Lemma held_after_acquire key s : writer (mutex (acquire key s) key) = true.
Proof. by rewrite mutex_acquire. Qed.

Ltac still_held :=
  repeat first [ apply held_after_acquire | apply held_acquire ].

Ltac own_lock H :=
  exfalso; destruct H as [H _]; revert H;
  match goal with
  | |- writer ?m = false → False =>
      assert (writer m = true) as -> by still_held; discriminate
  end.

Section Blocking.
Variable HashString : string → string.

(** X5.  [MoveFile] takes four write locks in a row, on the source, on the
    destination and on the directory of each, and the mutexes are not
    re-entrant: whenever two of the four resolved paths coincide, as for a
    file renamed inside its directory, the call blocks on a mutex it holds
    itself (or on one that was held before), whatever the state of the
    facade. *)
Theorem MoveFile_same_place_blocks (env : Env) (src dst srcPath dstPath : string)
    (s : State) :
  fullPath (rootPath s) src = Ok srcPath →
  fullPath (rootPath s) dst = Ok dstPath →
  ¬ NoDup [srcPath; dstPath; filepath.Dir srcPath; filepath.Dir dstPath] →
  ∃ s', MoveFile HashString env src dst s = Blocked s'.
Proof.
  intros Hsrc Hdst Hdup.
  cut (post (MoveFile HashString env src dst) never never always s).
  { intros Hp. destruct (post_blocked_in _ _ _ Hp) as (s' & Hs' & _). by exists s'. }
  unfold MoveFile. apply post_bind, post_resolve. rewrite Hsrc.
  apply post_bind, post_resolve. rewrite Hdst.
  apply post_locked; [done|]. intros _.
  apply post_locked; [done|]. intros H2.
  destruct (decide (dstPath = srcPath)) as [->|Hds]; [own_lock H2|].
  apply post_locked; [done|]. intros H3.
  destruct (decide (filepath.Dir srcPath = dstPath)) as [E3|Hd1]; [rewrite E3 in H3; own_lock H3|].
  destruct (decide (filepath.Dir srcPath = srcPath)) as [E3|Hd2]; [rewrite E3 in H3; own_lock H3|].
  apply post_locked; [done|]. intros H4.
  destruct (decide (filepath.Dir dstPath = filepath.Dir srcPath)) as [E4|Hd3];
    [rewrite E4 in H4; own_lock H4|].
  destruct (decide (filepath.Dir dstPath = dstPath)) as [E4|Hd4]; [rewrite E4 in H4; own_lock H4|].
  destruct (decide (filepath.Dir dstPath = srcPath)) as [E4|Hd5]; [rewrite E4 in H4; own_lock H4|].
  exfalso. apply Hdup.
  repeat (apply NoDup_cons; split;
          [rewrite ?elem_of_cons, elem_of_nil; intuition congruence|]).
  apply NoDup_nil_2.
Qed.

(** X6.  [CopyFile] takes the read lock of the source and then the write
    lock of the destination: a copy of a file onto itself, under whatever
    two names, blocks on the mutex it holds itself. *)
Theorem CopyFile_onto_itself_blocks (env : Env) (src dst full : string) (s : State) :
  fullPath (rootPath s) src = Ok full →
  fullPath (rootPath s) dst = Ok full →
  ∃ s', CopyFile HashString env src dst s = Blocked s'.
Proof.
  intros Hsrc Hdst.
  cut (post (CopyFile HashString env src dst) never never always s).
  { intros Hp. destruct (post_blocked_in _ _ _ Hp) as (s' & Hs' & _). by exists s'. }
  unfold CopyFile. apply post_bind, post_resolve. rewrite Hsrc.
  apply post_bind, post_resolve. rewrite Hdst.
  apply post_rlocked; [done|]. intros _.
  apply post_locked; [done|]. intros [_ Hr].
  rewrite mutex_racquire in Hr. done.
Qed.

End Blocking.

Lemma MoveFile_same_place_blocks_witness :
  ∃ s', MoveFile path_key (mkEnv 1 "id") "a.txt" "b.txt"
          (set_host {["/data" := Dir; "/data/a.txt" := File "x"]} plain_facade)
        = Blocked s'.
Proof.
  apply (MoveFile_same_place_blocks path_key _ "a.txt" "b.txt" "/data/a.txt" "/data/b.txt");
    [reflexivity|reflexivity|].
  assert (filepath.Dir "/data/a.txt" = "/data") as -> by (vm_compute; reflexivity).
  assert (filepath.Dir "/data/b.txt" = "/data") as -> by (vm_compute; reflexivity).
  intros Hnd. do 2 apply NoDup_cons in Hnd as [_ Hnd].
  apply NoDup_cons in Hnd as [Hin _]. apply Hin. by left.
Defined.

Lemma CopyFile_onto_itself_blocks_witness :
  ∃ s', CopyFile path_key (mkEnv 1 "id") "a.txt" "docs/../a.txt"
          (set_host {["/data" := Dir; "/data/a.txt" := File "x"]} plain_facade)
        = Blocked s'.
Proof.
  apply (CopyFile_onto_itself_blocks path_key _ "a.txt" "docs/../a.txt" "/data/a.txt");
    reflexivity.
Defined.

(** * Deletions, vetoes and hooks *)

Lemma RemoveAll_lookup h name x :
  os.RemoveAll h name !! x
  = if bool_decide (x = name) || os.below name x then None else h !! x.
Proof.
  unfold os.RemoveAll. apply option_eq. intros nd.
  rewrite map_lookup_filter_Some. cbn [fst].
  destruct (bool_decide (x = name)) eqn:Hx; cbn [orb].
  - apply bool_decide_eq_true in Hx. split; [by intros (_ & ? & _)|done].
  - apply bool_decide_eq_false in Hx. destruct (os.below name x) eqn:Hb.
    + split; [by intros (_ & _ & ?)|done].
    + split; [by intros [? _]|done].
Qed.

Lemma same_but_registry_released key s :
  free (mutex s key) → same_but_registry s (released key s).
Proof.
  intros Hfree. split; [done|]. intros k. by apply mutex_released.
Qed.

Lemma same_but_registry_released2 f d s :
  d ≠ f → free (mutex s f) → free (mutex s d) →
  same_but_registry s (rw_Unlock f (rw_Unlock d (acquire d (acquire f s)))).
Proof.
  intros Hne Hf Hd. split; [done|]. intros k.
  destruct (decide (f = k)) as [<-|Hk].
  - rewrite mutex_rw_Unlock, mutex_rw_Unlock_ne, mutex_acquire_ne, mutex_acquire by done.
    by rewrite (free_unlocked _ Hf).
  - rewrite mutex_rw_Unlock_ne by done.
    rewrite (mutex_unlock_inner d f _ s k Hne Hd) by done.
    by rewrite mutex_acquire_ne.
Qed.

(** [DeleteDir] on a quiet facade. *)
Lemma DeleteDir_plain env path s full :
  fullPath (rootPath s) path = Ok full →
  filepath.Dir full ≠ full →
  quiet s →
  DeleteDir env path s
  = Done tt (rw_Unlock full
               (rw_Unlock (filepath.Dir full)
                  (set_host (os.RemoveAll (host s) full)
                     (acquire (filepath.Dir full) (acquire full s))))).
Proof.
  intros Hres Hne (Hj & Hv & Hh & Hfree). apply post_exact.
  unfold DeleteDir. apply post_bind, post_resolve. rewrite Hres.
  apply post_locked; [intros Hheld; destruct Hheld; apply Hfree|]. intros _.
  apply post_locked.
  { intros Hheld. destruct Hheld. rewrite mutex_acquire_ne by done. apply Hfree. }
  intros _.
  apply post_bind, post_executeHooks_pass; [by apply hooks_pass_empty|].
  apply post_bind, post_get. cbn [journal acquire set_locks]. rewrite Hj.
  apply post_bind, post_when; [done|]. intros _.
  apply post_bind, post_modify.
  apply post_executeHooks_pass; [by apply hooks_pass_empty|]. done.
Qed.

(** X7.  [DeleteDir] never looks at what the path holds.  On a quiet
    facade, for a path that resolves below the host root, it returns
    normally whether the place holds a directory, a regular file or
    nothing; afterwards the place and everything below it are gone, the
    rest of the host tree is as before, and the facade is quiet again. *)
Theorem DeleteDir_removes_subtree (env : Env) (path full : string) (s : State) :
  quiet s →
  fullPath (rootPath s) path = Ok full →
  filepath.Dir full ≠ full →
  ∃ s', DeleteDir env path s = Done tt s'
        ∧ quiet s'
        ∧ host s' !! full = None
        ∧ (∀ x, os.below full x = true → host s' !! x = None)
        ∧ (∀ x, x ≠ full → os.below full x = false → host s' !! x = host s !! x).
Proof.
  intros Hq Hres Hne. eexists. split; [by apply DeleteDir_plain|].
  split_and!.
  - apply (quiet_unlocked _ _ s); [done..| |done]. intros k.
    apply mutex_unlock_inner; [done|apply Hq|done].
  - cbn. rewrite RemoveAll_lookup. by rewrite bool_decide_eq_true_2.
  - intros x Hx. cbn. rewrite RemoveAll_lookup, Hx. by rewrite orb_true_r.
  - intros x Hx Hb. cbn. rewrite RemoveAll_lookup, Hb.
    by rewrite bool_decide_eq_false_2.
Qed.

Lemma DeleteDir_removes_subtree_witness :
  ∃ s', DeleteDir (mkEnv 1 "id") "tmp"
          (set_host {["/data" := Dir; "/data/tmp" := File "x"; "/data/tmp2" := File "y"]}
                    plain_facade)
        = Done tt s'
        ∧ host s' !! "/data/tmp" = None
        ∧ host s' !! "/data/tmp2" = Some (File "y").
Proof.
  destruct (DeleteDir_removes_subtree (mkEnv 1 "id") "tmp" "/data/tmp"
              (set_host {["/data" := Dir; "/data/tmp" := File "x"; "/data/tmp2" := File "y"]}
                        plain_facade))
    as (s' & Hrun & _ & Hgone & _ & Hkept).
  - unfold quiet. split_and!; [done..|]. intros k. apply (plain_facade_free k).
  - reflexivity.
  - vm_compute. discriminate.
  - exists s'. split_and!; [exact Hrun|exact Hgone|].
    rewrite (Hkept "/data/tmp2"); [reflexivity|discriminate|reflexivity].
Defined.

Section Vetoes.
Variable HashString : string → string.

(** X16.  For hooks that decide on the context alone: a veto of a pre-hook
    of [CreateDir], [DeleteDir] or [DeleteFile] comes before the journal
    and the host are touched.  The call returns the error of the hook and
    the facade is as before, the registry of mutexes apart, in which the
    mutexes that the call has asked for are registered, unlocked. *)
Theorem vetoed_calls_change_nothing (env : Env) (path full : string)
    (hs : list HookFunc) (e : error) (s : State) :
  fullPath (rootPath s) path = Ok full →
  filepath.Dir full ≠ full →
  free (mutex s full) → free (mutex s (filepath.Dir full)) →
  (hooks s !! (OpCreateDir, HookTypePre) = Some hs →
   run_hooks hs (hook_ctx OpCreateDir path) = Some e →
   ∃ s', CreateDir env path s = Fail e s' ∧ same_but_registry s s')
  ∧ (hooks s !! (OpDeleteDir, HookTypePre) = Some hs →
     run_hooks hs (hook_ctx OpDeleteDir path) = Some e →
     ∃ s', DeleteDir env path s = Fail e s' ∧ same_but_registry s s')
  ∧ (hooks s !! (OpDeleteFile, HookTypePre) = Some hs →
     run_hooks hs (hook_ctx OpDeleteFile path) = Some e →
     ∀ old, os.Stat (host s) full = Some (File old) →
     ∃ s', DeleteFile HashString env path s = Fail e s' ∧ same_but_registry s s').
Proof.
  intros Hres Hne Hf Hd. split_and!.
  - intros Hhs Hrun. exists (released (filepath.Dir full) s).
    split; [|by apply same_but_registry_released].
    apply post_exact. unfold CreateDir. apply post_bind, post_resolve. rewrite Hres.
    apply post_locked; [done|]. intros _.
    apply post_bind, post_executeHooks.
    change (hooks (acquire (filepath.Dir full) s)) with (hooks s).
    cbn [HookContext.Operation hook_ctx]. by rewrite Hhs, Hrun.
  - intros Hhs Hrun. eexists. split; [|by apply (same_but_registry_released2 full)].
    apply post_exact. unfold DeleteDir. apply post_bind, post_resolve. rewrite Hres.
    apply post_locked; [done|]. intros _.
    apply post_locked; [by rewrite mutex_acquire_ne by done|]. intros _.
    apply post_bind, post_executeHooks.
    change (hooks (acquire (filepath.Dir full) (acquire full s))) with (hooks s).
    cbn [HookContext.Operation hook_ctx]. by rewrite Hhs, Hrun.
  - intros Hhs Hrun old Hst. eexists.
    split; [|by apply (same_but_registry_released2 full)].
    apply post_exact. unfold DeleteFile. apply post_bind, post_resolve. rewrite Hres.
    apply post_bind, post_get. rewrite Hst.
    apply post_locked; [done|]. intros _.
    apply post_locked; [by rewrite mutex_acquire_ne by done|]. intros _.
    apply post_bind, post_executeHooks.
    change (hooks (acquire (filepath.Dir full) (acquire full s))) with (hooks s).
    cbn [HookContext.Operation hook_ctx]. by rewrite Hhs, Hrun.
Qed.

End Vetoes.

Lemma vetoed_calls_change_nothing_witness :
  let s := set_hooks {[ (OpCreateDir, HookTypePre) := [ReadOnlyHook] ]} plain_facade in
  ∃ s', CreateDir (mkEnv 1 "id") "docs/new" s = Fail (ErrMsg "filesystem is read-only") s'
        ∧ host s' = host s ∧ jrnl s' = jrnl s.
Proof.
  intros s.
  destruct (vetoed_calls_change_nothing path_key (mkEnv 1 "id") "docs/new" "/data/docs/new"
              [ReadOnlyHook] (ErrMsg "filesystem is read-only") s)
    as [Hmk _].
  - reflexivity.
  - vm_compute. discriminate.
  - apply (read_only_facade_free "/data/docs/new").
  - apply (read_only_facade_free (filepath.Dir "/data/docs/new")).
  - destruct Hmk as (s' & Hrun & Hsame); [reflexivity|reflexivity|].
    exists s'. split; [exact Hrun|].
    apply same_but_registry_fields in Hsame. by destruct Hsame as (_ & _ & ? & _ & _ & _ & ? & _).
Defined.

(** * Hooks *)

Lemma run_hooks_snoc hs hook ctx :
  run_hooks (hs ++ [hook]) ctx
  = match run_hooks hs ctx with
    | Some e => Some e
    | None => hook ctx
    end.
Proof.
  induction hs as [|g hs IH]; cbn [app run_hooks].
  - by destruct (hook ctx).
  - destruct (g ctx); [done|apply IH].
Qed.

(** X14.  Hooks of one operation and phase run in the order of their
    registration: a newly registered hook is asked only when all the hooks
    registered before it let the call pass.  [UnregisterHook] drops every
    hook of the operation and phase, not only the last one registered, and
    leaves the hooks of the other operations and phases alone. *)
Theorem hook_registry_order (op typ : string) (hook : HookFunc) (ctx : HookContext.t)
    (s : State) :
  HookContext.Operation ctx = op →
  executeHooks typ ctx (RegisterHook op typ hook s)
  = match executeHooks typ ctx s with
    | Fail e _ => Fail e (RegisterHook op typ hook s)
    | _ => match hook ctx with
           | Some e => Fail e (RegisterHook op typ hook s)
           | None => Done tt (RegisterHook op typ hook s)
           end
    end
  ∧ executeHooks typ ctx (UnregisterHook op typ (RegisterHook op typ hook s))
    = Done tt (UnregisterHook op typ s)
  ∧ ∀ op' typ', (op', typ') ≠ (op, typ) →
      hooks (UnregisterHook op typ (RegisterHook op typ hook s)) !! (op', typ')
      = hooks s !! (op', typ').
Proof.
  intros Hop. split_and!.
  - unfold executeHooks, RegisterHook. cbn [hooks set_hooks]. rewrite Hop.
    rewrite lookup_insert_eq. rewrite run_hooks_snoc.
    destruct (hooks s !! (op, typ)) as [hs|]; cbn [default run_hooks].
    + unfold id. by destruct (run_hooks hs ctx), (hook ctx).
    + by destruct (hook ctx).
  - unfold executeHooks, UnregisterHook, RegisterHook. cbn [hooks set_hooks].
    rewrite Hop, lookup_delete_eq. unfold set_hooks. cbn. by rewrite delete_insert_eq.
  - intros op' typ' Hne. unfold UnregisterHook, RegisterHook. cbn [hooks set_hooks].
    by rewrite lookup_delete_ne, lookup_insert_ne.
Qed.

Lemma hook_registry_order_witness :
  let allow : HookFunc := λ _, None in
  let s := RegisterHook OpWriteFile HookTypePre allow plain_facade in
  let ctx := hook_ctx OpWriteFile "a.txt" in
  executeHooks HookTypePre ctx (RegisterHook OpWriteFile HookTypePre ReadOnlyHook s)
  = Fail (ErrMsg "filesystem is read-only")
         (RegisterHook OpWriteFile HookTypePre ReadOnlyHook s).
Proof.
  intros allow s ctx.
  destruct (hook_registry_order OpWriteFile HookTypePre ReadOnlyHook ctx s eq_refl)
    as [Hrun _].
  rewrite Hrun. reflexivity.
Defined.

Lemma Journal_Log_open entry s :
  Journal.file (jrnl s) = true → Journal.mu (jrnl s) = false →
  Journal_Log entry s
  = Done tt (set_jrnl (Journal.mk (Journal.path (jrnl s)) false true
                         ((λ l, (l ++ [entry])%list) <$> Journal.log (jrnl s))) s).
Proof.
  intros Hfile Hmu. unfold Journal_Log, bind, j_Lock, defer. cbn. rewrite Hmu. cbn.
  rewrite Hfile. done.
Qed.

Lemma post_fail_in {A} (m : M A) (E : error → State → Prop) s :
  post m never E (λ _, False) s → ∃ e s', m s = Fail e s' ∧ E e s'.
Proof. unfold post. destruct (m s) as [a s'|e s'|s']; [done| |done]. by exists e, s'. Qed.

Section PostHooks.
Variable HashString : string → string.

(** X15.  For hooks that decide on the context alone: an error of a
    post-hook comes too late to stop the write.  When the pre-hooks pass
    and a post-hook of the write returns an error,
    [WriteFileWithMode] returns that error, and yet the file holds the new
    data and, on a journaling facade, the journal holds the entry of the
    write. *)
Theorem post_hook_error_keeps_write (env : Env) (path data : string) (mode : Z)
    (s : State) (full : string) (h1 h2 : gmap string node) (hs : list HookFunc)
    (e : error) :
  let ctx := HookContext.mk OpWriteFile path "" data mode "" "" in
  fullPath (rootPath s) path = Ok full →
  os.MkdirAll (host s) (filepath.Dir full) = Some h1 →
  os.WriteFile h1 full data = Some h2 →
  free (mutex s full) →
  versioning s && FileExists path (set_host h1 s) = false →
  (journal s = true → Journal.file (jrnl s) = true ∧ Journal.mu (jrnl s) = false) →
  hooks_pass s HookTypePre ctx →
  hooks s !! (OpWriteFile, HookTypePost) = Some hs →
  run_hooks hs ctx = Some e →
  ∃ s', WriteFileWithMode HashString env path data mode s = Fail e s'
        ∧ os.Stat (host s') full = Some (File data)
        ∧ (journal s = true →
           Journal.log (jrnl s')
           = (λ l, (l ++ [JournalEntry.mk "write" path data (now env)
                             {["mode" := fmt_d mode]}])%list) <$> Journal.log (jrnl s)).
Proof.
  intros ctx Hres Hmk Hwr Hfree Hver Hjr Hpre Hhs Hrun.
  destruct (WriteFile_Some _ _ _ _ Hwr) as [-> Hroot].
  cut (post (WriteFileWithMode HashString env path data mode) never
         (λ err s', err = e ∧ os.Stat (host s') full = Some (File data)
            ∧ (journal s = true →
               Journal.log (jrnl s')
               = (λ l, (l ++ [JournalEntry.mk "write" path data (now env)
                                 {["mode" := fmt_d mode]}])%list) <$> Journal.log (jrnl s)))
         (λ _, False) s).
  { intros Hp. destruct (post_fail_in _ _ _ Hp) as (err & s' & Hs' & -> & ?). by exists s'. }
  unfold WriteFileWithMode. apply post_bind, post_resolve. rewrite Hres.
  apply post_bind, post_wrap, post_host_call. rewrite Hmk.
  apply post_locked; [done|]. intros _. unfold write_locked.
  apply post_bind, post_executeHooks_pass; [done|].
  apply post_bind, post_get. apply post_bind, post_get.
  assert (versioning (acquire full (set_host h1 s))
          && FileExists path (acquire full (set_host h1 s)) = false) as -> by exact Hver.
  apply post_bind, post_when; [done|]. intros _.
  apply post_bind, post_get. cbn [journal acquire set_locks set_host].
  destruct (journal s) eqn:Hj.
  - destruct (Hjr eq_refl) as [Hfile Hmu].
    apply post_bind, post_when; [|done]. intros _. apply post_wrap.
    unfold post at 1. rewrite Journal_Log_open by done.
    apply post_bind, post_host_call. cbn [host set_jrnl acquire set_locks set_host].
    rewrite Hwr. apply post_executeHooks. cbn [HookContext.Operation].
    cbn [hooks set_host set_jrnl acquire set_locks]. rewrite Hhs. fold ctx. rewrite Hrun.
    split_and!; [done| |done].
    cbn. unfold os.Stat. rewrite decide_False by done. apply lookup_insert_eq.
  - apply post_bind, post_when; [done|]. intros _.
    apply post_bind, post_host_call. cbn [host acquire set_locks set_host].
    rewrite Hwr. apply post_executeHooks. cbn [HookContext.Operation].
    cbn [hooks set_host acquire set_locks]. rewrite Hhs. fold ctx. rewrite Hrun.
    split_and!; [done| |done].
    cbn. unfold os.Stat. rewrite decide_False by done. apply lookup_insert_eq.
Qed.

End PostHooks.

Lemma post_hook_error_keeps_write_witness :
  let s := set_hooks {[ (OpWriteFile, HookTypePost) := [ReadOnlyHook] ]} plain_facade in
  ∃ s', WriteFileWithMode path_key (mkEnv 1 "id") "a.txt" "hello" 420 s
        = Fail (ErrMsg "filesystem is read-only") s'
        ∧ os.Stat (host s') "/data/a.txt" = Some (File "hello").
Proof.
  intros s.
  destruct (post_hook_error_keeps_write path_key (mkEnv 1 "id") "a.txt" "hello" 420 s
              "/data/a.txt" {["/data" := Dir]}
              (<["/data/a.txt" := File "hello"]> {["/data" := Dir]})
              [ReadOnlyHook] (ErrMsg "filesystem is read-only"))
    as (s' & Hrun & Hst & _).
  - reflexivity.
  - vm_compute. reflexivity.
  - vm_compute. reflexivity.
  - apply (read_only_facade_free "/data/a.txt").
  - reflexivity.
  - discriminate.
  - intros hs' Hhs'. vm_compute in Hhs'. discriminate.
  - reflexivity.
  - reflexivity.
  - by exists s'.
Defined.

(** * Attributes *)

Lemma parents_parent_of n name d : d ∈ os.parents n name → parent_of name d.
Proof.
  revert name. induction n as [|n IH]; intros name; cbn [os.parents].
  - by intros ?%elem_of_nil.
  - intros [->|Hd]%elem_of_cons; [by exists 0%nat|].
    destruct (IH _ Hd) as [m ->]. exists (S m).
    change (Nat.iter (S (S m)) filepath.Dir name)
      with (filepath.Dir (Nat.iter (S m) filepath.Dir name)).
    clear. induction m as [|m IH]; [done|].
    change (Nat.iter (S (S m)) filepath.Dir (filepath.Dir name))
      with (filepath.Dir (Nat.iter (S m) filepath.Dir (filepath.Dir name))).
    by rewrite IH.
Qed.

(** Below directories [os.Stat] fails with [ENOENT] only. *)
Lemma under_file_dirs h name :
  (∀ d, parent_of name d → os.Stat h d = Some Dir) → os.under_file h name = false.
Proof.
  intros Hdirs. unfold os.under_file. apply not_true_is_false.
  intros (d & Hd & Hfile)%existsb_exists.
  apply list_elem_of_In, parents_parent_of, Hdirs in Hd. by rewrite Hd in Hfile.
Qed.

Section Attributes.
Variable HashString : string → string.

(** [GetAttribute] on a facade without hooks. *)
Lemma GetAttribute_outcome path key s :
  hooks s = ∅ →
  writer (mutex s (attrFile HashString (rootPath s) path)) = false →
  let af := attrFile HashString (rootPath s) path in
  let s1 := rw_RUnlock af (racquire af s) in
  GetAttribute HashString path key s
  = match attributes s !! HashString path with
    | None => Fail (Wrapped "failed to read attributes" (ErrHost "open" af)) s1
    | Some attrs =>
        match attrs !! key with
        | None => Fail (ErrMsg ("attribute " ++ key ++ " does not exist for " ++ path)) s1
        | Some value => Done value s1
        end
    end.
Proof.
  intros Hh Hw af s1. apply post_exact.
  unfold GetAttribute. apply post_bind, post_get.
  apply post_rlocked; [congruence|]. intros _.
  apply post_bind, post_executeHooks_pass; [by apply hooks_pass_empty|].
  apply post_bind, post_get. cbn [attributes racquire set_locks].
  destruct (attributes s !! HashString path) as [attrs|]; [|by apply post_fail].
  destruct (attrs !! key) as [value|]; [|by apply post_fail].
  apply post_bind, post_executeHooks_pass; [by apply hooks_pass_empty|].
  by apply post_ret.
Qed.

Lemma GetAttribute_Done path key value s :
  hooks s = ∅ →
  (∀ k, free (mutex s k)) →
  (∃ s', GetAttribute HashString path key s = Done value s')
  ↔ ∃ attrs, attributes s !! HashString path = Some attrs ∧ attrs !! key = Some value.
Proof.
  intros Hh Hfree. rewrite GetAttribute_outcome by (done || apply Hfree).
  destruct (attributes s !! HashString path) as [attrs|].
  - destruct (attrs !! key) as [v|] eqn:Hk.
    + split.
      * intros (s' & [= -> _]). by exists attrs.
      * intros (attrs' & [= <-] & Hv). rewrite Hk in Hv. injection Hv as ->. by eexists.
    + split; [by intros (? & ?)|]. intros (attrs' & [= <-] & Hv). congruence.
  - split; [by intros (? & ?)|by intros (? & ? & _)].
Qed.

(** X8.  Attribute round trip.  On a quiet facade [SetAttribute] on a
    path that exists returns normally; afterwards [GetAttribute] returns
    the value that was set, and gives for every other key and for every
    path with another hash what it gave before. *)
Theorem SetAttribute_GetAttribute (env : Env) (path key value full : string) (s : State) :
  quiet s →
  fullPath (rootPath s) path = Ok full →
  is_Some (os.Stat (host s) full) →
  ∃ s1, SetAttribute HashString env path key value s = Done tt s1
        ∧ (∃ s2, GetAttribute HashString path key s1 = Done value s2)
        ∧ ∀ p k v, HashString p ≠ HashString path ∨ k ≠ key →
            (∃ s2, GetAttribute HashString p k s1 = Done v s2)
            ↔ (∃ s2, GetAttribute HashString p k s = Done v s2).
Proof.
  intros Hq Hres Hst. eexists. split; [by apply (SetAttribute_plain _ _ _ _ _ _ full)|].
  set (s1 := rw_Unlock _ _).
  assert (quiet s1) as Hq1.
  { apply (quiet_unlocked _ _ s); [done..| |done]. by intros k. }
  assert (attributes s1
          = <[HashString path :=
                <[key := value]> (default ∅ (attributes s !! HashString path))]>
              (attributes s)) as Hattrs by done.
  destruct Hq as (_ & _ & Hh & Hfree). destruct Hq1 as (_ & _ & Hh1 & Hfree1).
  split.
  - apply GetAttribute_Done; [done..|]. rewrite Hattrs, lookup_insert_eq.
    eexists. split; [done|]. apply lookup_insert_eq.
  - intros p k v Hother. rewrite !GetAttribute_Done by done. rewrite Hattrs.
    destruct (decide (HashString p = HashString path)) as [Heq|Hne].
    + destruct Hother as [?|Hk]; [done|]. rewrite Heq, lookup_insert_eq.
      split.
      * intros (attrs & [= <-] & Hv). rewrite lookup_insert_ne in Hv by done.
        destruct (attributes s !! HashString path) as [attrs|]; [by exists attrs|].
        cbn in Hv. by rewrite lookup_empty in Hv.
      * intros (attrs & Ha & Hv). eexists. split; [done|].
        rewrite lookup_insert_ne by done. by rewrite Ha.
    + by rewrite lookup_insert_ne.
Qed.

(** X9.  Attributes outlive their file.  On a quiet facade whose root
    is absolute and clean, over a host tree closed under parents, deleting
    a regular file leaves its attributes in place: after [DeleteFile] the
    path no longer exists, [SetAttribute] refuses it, and [GetAttribute]
    still returns every value it returned before. *)
Theorem attributes_survive_DeleteFile (env : Env) (path full old : string) (s : State) :
  filepath.IsAbs (rootPath s) = true → filepath.Clean (rootPath s) = rootPath s →
  quiet s → wf_host (host s) →
  fullPath (rootPath s) path = Ok full →
  os.Stat (host s) full = Some (File old) →
  ∃ s1, DeleteFile HashString env path s = Done tt s1
        ∧ FileExists path s1 = false
        ∧ (∀ env' key value,
             SetAttribute HashString env' path key value s1
             = Fail (ErrMsg ("file does not exist: " ++ path)) s1)
        ∧ ∀ key value,
            (∃ s0, GetAttribute HashString path key s = Done value s0) →
            ∃ s2, GetAttribute HashString path key s1 = Done value s2.
Proof.
  intros Habs Hclean Hq Hwf Hres Hst.
  assert (filepath.Dir full ≠ full) as Hne
    by by eapply (file_not_its_parent (rootPath s) Habs Hclean).
  assert (host s !! full = Some (File old)) as Hl.
  { unfold os.Stat in Hst. by case_decide. }
  eexists. split; [by apply (DeleteFile_plain _ _ _ _ full old)|].
  set (s1 := rw_Unlock _ _).
  assert (quiet s1) as Hq1.
  { apply (quiet_unlocked _ _ s); [done..| |done]. intros k.
    apply mutex_unlock_inner; [done|apply Hq|done]. }
  assert (os.Stat (host s1) full = None) as Hgone.
  { cbn. unfold os.Stat in *. case_decide; [done|]. apply lookup_delete_eq. }
  split_and!.
  - unfold FileExists. change (rootPath s1) with (rootPath s). by rewrite Hres, Hgone.
  - intros env' key value. unfold SetAttribute, bind, resolve, get, lift, fail.
    change (rootPath s1) with (rootPath s). rewrite Hres, Hgone.
    rewrite under_file_dirs; [done|]. intros d Hd.
    assert (os.Stat (host s) d = Some Dir) as Hdir.
    { apply (wf_host_parents (host s) full); [done|by apply (Hwf full (File old))|done]. }
    cbn. unfold os.Stat in *. case_decide; [done|].
    rewrite lookup_delete_ne; [done|]. intros <-. congruence.
  - intros key value. destruct Hq as (_ & _ & Hh & Hfree).
    destruct Hq1 as (_ & _ & Hh1 & Hfree1).
    by rewrite !GetAttribute_Done by done.
Qed.

(** X10.  [DeleteAttribute] on a journaling facade without hooks, for a
    key that is set.  When other keys remain the record of the path loses
    the key and the journal gains a [deleteattr] entry.  When the key is
    the last one the record of the path is removed and nothing is written
    to the journal.  The host tree is not touched. *)
Theorem DeleteAttribute_outcome (env : Env) (path key value : string)
    (attrs : gmap string string) (s : State) :
  hooks s = ∅ →
  free (mutex s (attrFile HashString (rootPath s) path)) →
  journal s = true → Journal.file (jrnl s) = true → Journal.mu (jrnl s) = false →
  attributes s !! HashString path = Some attrs →
  attrs !! key = Some value →
  ∃ s', DeleteAttribute HashString env path key s = Done tt s'
        ∧ host s' = host s
        ∧ if decide (delete key attrs = ∅)
          then attributes s' = delete (HashString path) (attributes s)
               ∧ Journal.log (jrnl s') = Journal.log (jrnl s)
          else attributes s' = <[HashString path := delete key attrs]> (attributes s)
               ∧ Journal.log (jrnl s')
                 = (λ l, (l ++ [JournalEntry.mk "deleteattr" path "" (now env)
                                   {[key := ""]}])%list) <$> Journal.log (jrnl s).
Proof.
  intros Hh Hfree Hj Hfile Hmu Hattrs Hkey.
  cut (post (DeleteAttribute HashString env path key)
         (λ _ s', host s' = host s
            ∧ if decide (delete key attrs = ∅)
              then attributes s' = delete (HashString path) (attributes s)
                   ∧ Journal.log (jrnl s') = Journal.log (jrnl s)
              else attributes s' = <[HashString path := delete key attrs]> (attributes s)
                   ∧ Journal.log (jrnl s')
                     = (λ l, (l ++ [JournalEntry.mk "deleteattr" path "" (now env)
                                       {[key := ""]}])%list) <$> Journal.log (jrnl s))
         never (λ _, False) s).
  { intros Hp. destruct (post_done _ _ _ Hp) as ([] & s' & Hs' & ?). by exists s'. }
  unfold DeleteAttribute. apply post_bind, post_get.
  apply post_locked; [done|]. intros _.
  apply post_bind, post_get. cbn [attributes acquire set_locks]. rewrite Hattrs.
  apply post_bind, post_executeHooks_pass; [by apply hooks_pass_empty|].
  rewrite Hkey. destruct (decide (delete key attrs = ∅)) as [Hlast|Hmore].
  - apply post_bind, post_modify.
    apply post_executeHooks_pass; [by apply hooks_pass_empty|]. done.
  - apply post_bind, post_get. cbn [journal acquire set_locks]. rewrite Hj.
    apply post_bind, post_when; [|done]. intros _. apply post_wrap.
    unfold post at 1. rewrite Journal_Log_open by done.
    apply post_bind, post_modify.
    apply post_executeHooks_pass; [by apply hooks_pass_empty|]. done.
Qed.

End Attributes.

Lemma SetAttribute_GetAttribute_witness :
  let s := set_host {["/data" := Dir; "/data/a.txt" := File "x"]} plain_facade in
  ∃ s1, SetAttribute path_key (mkEnv 1 "id") "a.txt" "owner" "alice" s = Done tt s1
        ∧ ∃ s2, GetAttribute path_key "a.txt" "owner" s1 = Done "alice" s2.
Proof.
  intros s.
  destruct (SetAttribute_GetAttribute path_key (mkEnv 1 "id") "a.txt" "owner" "alice"
              "/data/a.txt" s) as (s1 & Hset & Hget & _).
  - unfold quiet. split_and!; [done..|]. intros k. apply (plain_facade_free k).
  - reflexivity.
  - by eexists.
  - by exists s1.
Defined.

Lemma attributes_survive_DeleteFile_witness :
  let s := set_attributes {[path_key "a.txt" := {["owner" := "alice"]}]}
             (set_host {["/data" := Dir; "/data/a.txt" := File "x"]} plain_facade) in
  ∃ s1, DeleteFile path_key (mkEnv 1 "id") "a.txt" s = Done tt s1
        ∧ FileExists "a.txt" s1 = false
        ∧ ∃ s2, GetAttribute path_key "a.txt" "owner" s1 = Done "alice" s2.
Proof.
  intros s.
  destruct (attributes_survive_DeleteFile path_key (mkEnv 1 "id") "a.txt" "/data/a.txt" "x" s)
    as (s1 & Hdel & Hgone & _ & Hget).
  - reflexivity.
  - reflexivity.
  - unfold quiet. split_and!; [done..|]. intros k. apply (plain_facade_free k).
  - intros p nd Hp. cbn in Hp.
    apply lookup_insert_Some in Hp as [[<- _]|[_ Hp]]; [reflexivity|].
    by apply lookup_singleton_Some in Hp as [<- _].
  - reflexivity.
  - reflexivity.
  - exists s1. split_and!; [done..|]. apply Hget. eexists. vm_compute. reflexivity.
Defined.

Lemma DeleteAttribute_outcome_witness :
  let s := mkState "/data" true (Journal.mk "/data/.journal/fs.log" false true (Some []))
             ∅ ∅ false "/data/.versions" 10
             {["/data" := Dir; "/data/a.txt" := File "x"]} ∅
             {[path_key "a.txt" := {["owner" := "alice"]}]} in
  ∃ s', DeleteAttribute path_key (mkEnv 1 "id") "a.txt" "owner" s = Done tt s'
        ∧ attributes s' = ∅ ∧ Journal.log (jrnl s') = Some [].
Proof.
  intros s.
  destruct (DeleteAttribute_outcome path_key (mkEnv 1 "id") "a.txt" "owner" "alice"
              {["owner" := "alice"]} s) as (s' & Hrun & _ & Hout).
  - reflexivity.
  - by split.
  - reflexivity.
  - reflexivity.
  - reflexivity.
  - reflexivity.
  - reflexivity.
  - rewrite decide_True in Hout by (by rewrite delete_singleton_eq).
    destruct Hout as [Ha Hl]. exists s'. split_and!; [done| |done].
    rewrite Ha. apply delete_singleton_eq.
Defined.

(** * Versions *)

Lemma delete_records_spec ids records :
  NoDup ids → (∀ id, id ∈ ids → is_Some (records !! id)) →
  ∃ records', delete_records ids records = Some records'
              ∧ (∀ id, id ∈ ids → records' !! id = None)
              ∧ (∀ id, id ∉ ids → records' !! id = records !! id).
Proof.
  revert records. induction ids as [|id0 rest IH]; intros records Hnd Hin; cbn.
  - exists records. split_and!; [done| |done]. by intros ? ?%elem_of_nil.
  - apply NoDup_cons in Hnd as [Hid0 Hnd].
    destruct (Hin id0) as [r Hr]; [by left|]. rewrite Hr.
    destruct (IH (delete id0 records) Hnd) as (records' & Hrun & Hgone & Hkept).
    { intros id Hid. rewrite lookup_delete_ne by (intros ->; done).
      apply Hin. by right. }
    exists records'. split_and!; [done|..].
    + intros id [->|Hid]%elem_of_cons; [|by apply Hgone].
      rewrite Hkept by done. apply lookup_delete_eq.
    + intros id [Hne Hid]%not_elem_of_cons. rewrite Hkept by done.
      by apply lookup_delete_ne.
Qed.

(** In a version directory every record is stored under its version ID. *)
Lemma listing_of_records records info :
  (∀ k i data, records !! k = Some (i, data) → VersionInfo.VersionID i = k) →
  info ∈ listing_of records →
  ∃ data, records !! VersionInfo.VersionID info = Some (info, data).
Proof.
  intros Hkeys Hin. unfold listing_of in Hin.
  rewrite merge_sort_Permutation in Hin.
  apply list_elem_of_fmap in Hin as ([k [i data]] & -> & Hkv).
  apply elem_of_map_to_list in Hkv. cbn. exists data.
  by rewrite (Hkeys _ _ _ Hkv).
Qed.

Lemma listing_of_NoDup records :
  (∀ k i data, records !! k = Some (i, data) → VersionInfo.VersionID i = k) →
  NoDup (VersionInfo.VersionID <$> listing_of records).
Proof.
  intros Hkeys. unfold listing_of. rewrite merge_sort_Permutation.
  rewrite <- list_fmap_compose.
  assert ((VersionInfo.VersionID ∘ (λ kv : string * (VersionInfo.t * string), kv.2.1))
            <$> map_to_list records = (map_to_list records).*1) as ->.
  { apply list_fmap_ext. intros j [k [i data]] Hkv. cbn.
    apply (Hkeys k i data). apply elem_of_map_to_list.
    by eapply list_elem_of_lookup_2. }
  apply NoDup_fst_map_to_list.
Qed.

Lemma prune_records_spec maxv records :
  0 < maxv →
  (∀ k i data, records !! k = Some (i, data) → VersionInfo.VersionID i = k) →
  ∃ records', prune_records maxv records = Some records'
    ∧ Z.of_nat (length (listing_of records')) ≤ maxv
    ∧ (∀ info, info ∈ drop (Z.to_nat maxv) (listing_of records) →
         records' !! VersionInfo.VersionID info = None)
    ∧ (∀ info, info ∈ take (Z.to_nat maxv) (listing_of records) →
         records' !! VersionInfo.VersionID info = records !! VersionInfo.VersionID info).
Proof.
  intros Hpos Hkeys.
  pose proof (listing_of_NoDup records Hkeys) as Hnd.
  rewrite <- (take_drop (Z.to_nat maxv) (listing_of records)) in Hnd.
  rewrite fmap_app in Hnd. apply NoDup_app in Hnd as (_ & Hapart & Hnd).
  assert (∃ records', prune_records maxv records = Some records'
            ∧ (∀ info, info ∈ take (Z.to_nat maxv) (listing_of records) →
                 records' !! VersionInfo.VersionID info
                 = records !! VersionInfo.VersionID info)) as (records' & Hrun & Hkept).
  { unfold prune_records.
    destruct (Z.of_nat (length (listing_of records)) <=? maxv); [by exists records|].
    destruct (delete_records_spec
                (rev (VersionInfo.VersionID <$> drop (Z.to_nat maxv) (listing_of records)))
                records) as (records' & Hrun & _ & Hkept).
    - by rewrite <- Permutation_rev.
    - intros id Hid. apply list_elem_of_In in Hid. rewrite <- in_rev in Hid.
      apply list_elem_of_In, list_elem_of_fmap in Hid as (info & -> & Hinfo).
      destruct (listing_of_records records info Hkeys) as [data ->]; [|done].
      rewrite <- (take_drop (Z.to_nat maxv) (listing_of records)).
      apply elem_of_app. by right.
    - exists records'. split; [done|]. intros info Hinfo. apply Hkept.
      intros Hid. apply list_elem_of_In in Hid. rewrite <- in_rev in Hid.
      apply list_elem_of_In in Hid. revert Hid. apply Hapart.
      by apply list_elem_of_fmap_2. }
  exists records'. destruct (prune_records_retention _ _ _ Hpos Hrun) as (_ & ? & _ & ?).
  done.
Qed.

Section MoreVersions.
Variable HashString : string → string.

(** X1.  Retention.  On a facade without hooks, with a positive
    [MaxVersions], over a version directory that stores every record under
    its version ID, [pruneVersions] returns normally.  Afterwards
    [ListVersions] returns at most [MaxVersions] records, newest first;
    each of the first [MaxVersions] records of the former listing can still
    be got, with its data, and none of the records listed after them. *)
Theorem pruneVersions_keeps_newest (path : string)
    (records : gmap string (VersionInfo.t * string)) (s : State) :
  versioning s = true → hooks s = ∅ → 0 < maxVersions s →
  (∀ k i data, records !! k = Some (i, data) → VersionInfo.VersionID i = k) →
  ∃ s', pruneVersions HashString path (with_records HashString path records s) = Done tt s'
        ∧ (∃ listing, ListVersions HashString path s' = Done listing s'
                      ∧ Z.of_nat (length listing) ≤ maxVersions s
                      ∧ Sorted not_older listing)
        ∧ (∀ info, info ∈ drop (Z.to_nat (maxVersions s)) (listing_of records) →
             GetVersion HashString path (VersionInfo.VersionID info) s'
             = Fail (ErrMsg "version not found") s')
        ∧ (∀ info, info ∈ take (Z.to_nat (maxVersions s)) (listing_of records) →
             ∃ data, records !! VersionInfo.VersionID info = Some (info, data)
                     ∧ GetVersion HashString path (VersionInfo.VersionID info) s'
                       = Done (data, info) s').
Proof.
  intros Hv Hh Hpos Hkeys.
  destruct (prune_records_spec _ records Hpos Hkeys)
    as (records' & Hrun & Hlen & Hgone & Hkept).
  assert (post (pruneVersions HashString path)
            (λ _ s', s' = with_records HashString path records' s) never (λ _, False)
            (with_records HashString path records s)) as Hp.
  { apply pruneVersions_post; [done..|]. by rewrite Hrun. }
  destruct (post_done _ _ _ Hp) as ([] & s' & Hs' & ->).
  exists (with_records HashString path records' s). split_and!; [done|..].
  - exists (listing_of records'). split_and!; [|done|apply Sorted_merge_sort, _].
    apply post_exact, ListVersions_post; [done..|].
    by rewrite version_dir_with_records.
  - intros info Hin. apply post_exact, GetVersion_post; [done..|].
    rewrite version_dir_with_records. cbn [default from_option id].
    by rewrite (Hgone info Hin).
  - intros info Hin.
    destruct (listing_of_records records info Hkeys) as [data Hdata].
    { rewrite <- (take_drop (Z.to_nat (maxVersions s)) (listing_of records)).
      apply elem_of_app. by left. }
    exists data. split; [done|].
    apply post_exact, GetVersion_post; [done..|].
    rewrite version_dir_with_records. cbn [default from_option id].
    by rewrite (Hkept info Hin), Hdata.
Qed.

(** X11.  [RestoreVersion] cannot restore a file that exists.  On a
    versioning facade without hooks, for a regular file without attributes
    whose mutex is free and a version that is stored, the call first takes
    a snapshot of the current content and then blocks inside its own write:
    it never returns, the file keeps its content, the version directory
    holds the records after the snapshot, and the write lock of the file
    stays held. *)
Theorem RestoreVersion_existing_blocks (env wenv : Env)
    (path versionID full old data : string) (info : VersionInfo.t)
    (records' : gmap string (VersionInfo.t * string)) (s : State) :
  versioning s = true → hooks s = ∅ →
  fullPath (rootPath s) path = Ok full →
  os.Stat (host s) full = Some (File old) →
  os.Stat (host s) (filepath.Dir full) = Some Dir →
  free (mutex s full) →
  attributes s !! HashString path = None →
  default ∅ (version_dir HashString s path) !! versionID = Some (info, data) →
  snapshot_records (maxVersions s) env path old
    (default ∅ (version_dir HashString s path)) = Some records' →
  ∃ s', RestoreVersion HashString env wenv path versionID s = Blocked s'
        ∧ os.Stat (host s') full = Some (File old)
        ∧ version_dir HashString s' path = Some records'
        ∧ writer (mutex s' full) = true.
Proof.
  intros Hv Hh Hres Hst Hdir Hfree Hattr Hver Hsnap.
  cut (post (RestoreVersion HashString env wenv path versionID) never never
         (λ s', os.Stat (host s') full = Some (File old)
                ∧ version_dir HashString s' path = Some records'
                ∧ writer (mutex s' full) = true) s).
  { intros Hp. by apply post_blocked_in. }
  unfold RestoreVersion. apply post_bind, post_get. rewrite Hv. cbn [negb].
  apply post_bind, post_wrap, GetVersion_post; [done..|]. rewrite Hver.
  apply post_bind, post_get.
  rewrite (FileExists_true path full (File old)) by done.
  apply post_bind, post_when; [|done]. intros _. apply post_wrap.
  apply (createVersion_post HashString env path full old); [done..|by destruct Hfree| |].
  { done. }
  rewrite Hsnap. intros s1 Hsame.
  destruct (same_but_registry_fields _ _ Hsame)
    as (Hroot & _ & _ & Hh' & Hv' & _ & Hhost & _ & _).
  destruct Hsame as [_ Hmutex].
  apply post_bind, post_wrap. unfold post at 1, WriteFile.
  rewrite (WriteFile_versioned_blocks_at HashString wenv path data 420 full old).
  - split_and!.
    + cbn. by rewrite Hhost.
    + apply version_dir_with_records.
    + by rewrite mutex_acquire.
  - change (versioning s1 = true). by rewrite Hv'.
  - change (hooks s1 = ∅). by rewrite Hh'.
  - cbn. by rewrite Hroot.
  - cbn. by rewrite Hhost.
  - cbn. by rewrite Hhost.
  - change (free (mutex s1 full)). by rewrite Hmutex.
Qed.

(** X12.  [SetVersionDescription] on a versioning facade without hooks:
    for a version that is stored the call returns
    normally; afterwards [GetVersion] returns the same data and the same
    record except for the new description, and the other versions of the
    path are as before. *)
Theorem SetVersionDescription_GetVersion (path versionID description data : string)
    (info : VersionInfo.t) (s : State) :
  versioning s = true → hooks s = ∅ →
  GetVersion HashString path versionID s = Done (data, info) s →
  ∃ s', SetVersionDescription HashString path versionID description s = Done tt s'
        ∧ GetVersion HashString path versionID s'
          = Done (data,
                  VersionInfo.mk (VersionInfo.VersionID info) (VersionInfo.Path info)
                    (VersionInfo.CreatedAt info) (VersionInfo.Size info)
                    (VersionInfo.Attributes info) description) s'
        ∧ ∀ other r, other ≠ versionID →
            GetVersion HashString path other s = Done r s →
            GetVersion HashString path other s' = Done r s'.
Proof.
  intros Hv Hh Hget.
  assert (∀ id r s0, versioning s0 = true → hooks s0 = ∅ →
            (GetVersion HashString path id s0 = Done r s0
             ↔ default ∅ (version_dir HashString s0 path) !! id = Some (r.2, r.1)))
    as Hchar.
  { intros id [d i] s0 Hv0 Hh0. cbn [fst snd]. split.
    - intros Hrun.
      assert (post (GetVersion HashString path id)
                (λ r' _, default ∅ (version_dir HashString s0 path) !! id
                         = Some (r'.2, r'.1)) (λ _ _, True) always s0) as Hp.
      { apply GetVersion_post; [done..|].
        by destruct (default ∅ (version_dir HashString s0 path) !! id) as [[??]|]. }
      unfold post in Hp. by rewrite Hrun in Hp.
    - intros Hl. apply post_exact, GetVersion_post; [done..|]. by rewrite Hl. }
  apply Hchar in Hget; [|done..]. cbn [fst snd] in Hget.
  eexists. split.
  { unfold SetVersionDescription, bind, get, modify. cbv beta. rewrite Hv. cbn [negb].
    cbv beta. rewrite Hget. reflexivity. }
  set (s' := set_versions _ s).
  assert (default ∅ (version_dir HashString s' path)
          = <[versionID :=
                (VersionInfo.mk (VersionInfo.VersionID info) (VersionInfo.Path info)
                   (VersionInfo.CreatedAt info) (VersionInfo.Size info)
                   (VersionInfo.Attributes info) description, data)]>
              (default ∅ (version_dir HashString s path))) as Hdir.
  { unfold version_dir, s'. cbn [versions set_versions]. by rewrite lookup_insert_eq. }
  split.
  - apply (Hchar _ (_, _)); [done..|]. rewrite Hdir. apply lookup_insert_eq.
  - intros other r Hne Hother. apply Hchar in Hother; [|done..].
    apply Hchar; [done..|]. rewrite Hdir. by rewrite lookup_insert_ne.
Qed.

(** * The journal file *)

Lemma replay_all_nothing renv paths s :
  replay_all HashString renv ∅ paths s = Done tt s.
Proof.
  induction paths as [|p rest IH]; [done|].
  cbn [replay_all]. unfold bind at 1. rewrite lookup_empty. exact IH.
Qed.

(** X13.  After [Journal.Truncate] there is nothing to recover.  For a
    journal whose mutex is free and whose file exists, truncation followed
    by recovery returns normally when the host lets the file be reopened;
    no call is replayed, so the host tree, the attributes and the versions
    are as before, and the journal is empty and open. *)
Theorem Truncate_then_Recover (renv : RecoverEnv) (s : State) :
  Journal.mu (jrnl s) = false →
  is_Some (Journal.log (jrnl s)) →
  reopen_ok renv = true →
  ∃ s', (Journal_Truncate true >> Journal_Recover HashString renv) s = Done tt s'
        ∧ host s' = host s ∧ attributes s' = attributes s ∧ versions s' = versions s
        ∧ locks s' = locks s
        ∧ Journal.log (jrnl s') = Some [] ∧ Journal.file (jrnl s') = true
        ∧ Journal.mu (jrnl s') = false.
Proof.
  intros Hmu [entries Hlog] Hre. eexists. split.
  - unfold bind at 1, Journal_Truncate, bind, j_Lock, defer, modify, get.
    cbn. rewrite Hmu. cbn. rewrite Hlog. cbn.
    unfold Journal_Recover, bind, j_Lock, defer, modify, get. cbn.
    change (fileState []) with (∅ : gmap string JournalEntry.t).
    rewrite replay_all_nothing. rewrite Hre. cbn. reflexivity.
  - done.
Qed.

End MoreVersions.

(** ** Examples for versions and the journal file *)

Lemma pruneVersions_keeps_newest_witness :
  let records : gmap string (VersionInfo.t * string) :=
    {["id-1" := (VersionInfo.mk "id-1" "a.txt" 1 2 ∅ "", "v1");
      "id-2" := (VersionInfo.mk "id-2" "a.txt" 2 2 ∅ "", "v2");
      "id-3" := (VersionInfo.mk "id-3" "a.txt" 3 2 ∅ "", "v3")]} in
  ∃ s', pruneVersions path_key "a.txt" (with_records path_key "a.txt" records v1_facade)
        = Done tt s'
        ∧ ∃ listing, ListVersions path_key "a.txt" s' = Done listing s'
                     ∧ Z.of_nat (length listing) ≤ 2.
Proof.
  intros records.
  assert (∀ k i data, records !! k = Some (i, data) → VersionInfo.VersionID i = k) as Hkeys.
  { intros k i data Hk. unfold records in Hk.
    apply lookup_insert_Some in Hk as [[<- [= <- _]]|[_ Hk]]; [done|].
    apply lookup_insert_Some in Hk as [[<- [= <- _]]|[_ Hk]]; [done|].
    by apply lookup_singleton_Some in Hk as [<- [= <- _]]. }
  pose proof (pruneVersions_keeps_newest path_key "a.txt" records v1_facade
                eq_refl eq_refl eq_refl Hkeys) as Hw.
  destruct Hw as (s' & Hrun & (listing & Hlist & Hlen & _) & _).
  exists s'. split; [exact Hrun|]. exists listing. split; [exact Hlist|exact Hlen].
Defined.

Lemma RestoreVersion_existing_blocks_witness :
  let s := with_records path_key "a.txt"
             {["id-0" := (VersionInfo.mk "id-0" "a.txt" 0 2 ∅ "", "v0")]} v1_facade in
  ∃ s', RestoreVersion path_key (mkEnv 1 "id-1") (mkEnv 2 "id-2") "a.txt" "id-0" s
        = Blocked s'
        ∧ os.Stat (host s') "/data/a.txt" = Some (File "v1").
Proof.
  intros s.
  assert (snapshot_records (maxVersions s) (mkEnv 1 "id-1") "a.txt" "v1"
            (default ∅ (version_dir path_key s "a.txt"))
          = Some {["id-1" := (VersionInfo.mk "id-1" "a.txt" 1 2 ∅ "", "v1");
                   "id-0" := (VersionInfo.mk "id-0" "a.txt" 0 2 ∅ "", "v0")]}) as Hsnap
    by (vm_compute; reflexivity).
  pose proof (RestoreVersion_existing_blocks path_key (mkEnv 1 "id-1") (mkEnv 2 "id-2")
                "a.txt" "id-0" "/data/a.txt" "v1" "v0"
                (VersionInfo.mk "id-0" "a.txt" 0 2 ∅ "") _ s
                eq_refl eq_refl eq_refl eq_refl eq_refl
                (v1_facade_free "/data/a.txt") eq_refl eq_refl Hsnap) as Hw.
  destruct Hw as (s' & Hrun & Hst & _).
  exists s'. split; [exact Hrun|exact Hst].
Defined.

Lemma SetVersionDescription_GetVersion_witness :
  let info := VersionInfo.mk "id-0" "a.txt" 0 2 ∅ "" in
  let s := with_records path_key "a.txt" {["id-0" := (info, "v0")]} v1_facade in
  ∃ s', SetVersionDescription path_key "a.txt" "id-0" "first draft" s = Done tt s'
        ∧ GetVersion path_key "a.txt" "id-0" s'
          = Done ("v0", VersionInfo.mk "id-0" "a.txt" 0 2 ∅ "first draft") s'.
Proof.
  intros info s.
  destruct (SetVersionDescription_GetVersion path_key "a.txt" "id-0" "first draft" "v0"
              info s) as (s' & Hset & Hget & _).
  - reflexivity.
  - reflexivity.
  - reflexivity.
  - by exists s'.
Defined.

Lemma Truncate_then_Recover_witness :
  ∃ s', (Journal_Truncate true >> Journal_Recover path_key (replay_in ["a.txt"])) v1_facade
        = Done tt s'
        ∧ host s' = host v1_facade ∧ Journal.log (jrnl s') = Some [].
Proof.
  destruct (Truncate_then_Recover path_key (replay_in ["a.txt"]) v1_facade)
    as (s' & Hrun & Hhost & _ & _ & _ & Hlog & _).
  - reflexivity.
  - by eexists.
  - reflexivity.
  - by exists s'.
Defined.
